(** * The relationship graph of the record-data package

    A shallow embedding of
      - [graph/graph.ts]                               (class [Graph]),
      - [graph/edges/collection.ts]                    (hasMany edges),
      - [graph/operations/remove-from-related-records.ts],
    and the properties of the graph engine that are stated about them.

    JavaScript objects are mutable and compared by reference.  Edges and node
    dictionaries therefore live in a store addressed by references, the class
    fields of [Graph] are a record, and every method is a computation that
    threads the whole [World].  [assert] is the one of [@ember/debug] as it
    behaves in a development build: a false condition throws. *)

From stdpp Require Import gmap strings list fin_maps.

Open Scope string_scope.
Open Scope list_scope.
Open Scope nat_scope.

(** ** Identifiers and relationship definitions *)

(** [StableRecordIdentifier]: an opaque handle; the graph only uses it as a
    key and reads its [type].  There is one identifier object per record, so
    two handles are the same object exactly when their fields are equal. *)
Record StableRecordIdentifier : Type := mkIdentifier {
  type : string;
  id : option string;
  lid : string;
}.

#[global] Instance StableRecordIdentifier_eq_dec : EqDecision StableRecordIdentifier.
Proof. solve_decision. Defined.

#[global] Instance StableRecordIdentifier_countable : Countable StableRecordIdentifier.
Proof.
  refine (inj_countable' (λ i, (type i, id i, lid i))
                         (λ t, mkIdentifier t.1.1 t.1.2 t.2) _).
  by intros [].
Defined.

Abbreviation Identifier := StableRecordIdentifier.

(** [definition.kind] *)
Inductive Kind : Type := belongsTo | hasMany | implicit.

#[global] Instance Kind_eq_dec : EqDecision Kind.
Proof. solve_decision. Defined.

(** Modelled from the spec: [UpgradedMeta] and [EdgeDefinition] are declared
    in [-edge-definition.ts], which is not among the sources.  The fields are
    the ones of the spec's Edge Definition (section 3) and the ones the graph
    reads ([kind], [key], [inverseKey], [inverseIsAsync], [lhs_definition],
    [rhs_definition]). *)
Record UpgradedMeta : Type := mkMeta {
  kind : Kind;
  key : string;
  meta_type : string;
  isPolymorphic : bool;
  inverseKind : Kind;
  inverseKey : string;
  inverseType : string;
  inverseIsAsync : bool;
}.

Record EdgeDefinition : Type := mkEdgeDefinition {
  lhs_definition : UpgradedMeta;
  rhs_definition : option UpgradedMeta;
}.

(** [EdgeCache = Dict<Dict<EdgeDefinition | null>>] *)
Abbreviation EdgeCache := (gmap string (gmap string (option EdgeDefinition))).

(** JSON objects carried along untouched. *)
Definition Meta : Type := list (string * string).
Definition Links : Type := list (string * string).

(** Modelled from the spec: [RelationshipState] and [createState] come from
    [-state.ts], which is not among the sources; section 4.2 gives the two
    flags, and a new edge has never received data. *)
Record RelationshipState : Type := mkState {
  hasReceivedData : bool;
  isEmpty : bool;
}.

Definition createState : RelationshipState :=
  {| hasReceivedData := false; isEmpty := true |}.

(** ** Edges *)

(** [edges/collection.ts] *)
Module Collection.

Record t : Type := mk {
  definition : UpgradedMeta;
  identifier : Identifier;
  state : RelationshipState;
  localMembers : gset Identifier;
  remoteMembers : gset Identifier;
  localState : list Identifier;
  remoteState : list Identifier;
  meta : option Meta;
  links : option Links;
  transactionRef : nat;
}.

Definition with_local (ms : gset Identifier) (st : list Identifier) (e : t) : t :=
  mk (definition e) (identifier e) (state e) ms (remoteMembers e) st
     (remoteState e) (meta e) (links e) (transactionRef e).

Definition with_transactionRef (n : nat) (e : t) : t :=
  mk (definition e) (identifier e) (state e) (localMembers e) (remoteMembers e)
     (localState e) (remoteState e) (meta e) (links e) n.

End Collection.

(** Modelled from the spec: [edges/resource.ts] is not among the sources.  A
    resource edge holds one remote and one local value, [meta]/[links] and the
    state flags (section 3); [transactionRef] is the field that
    [_addToTransaction] and [_finalize] write on it.  The factory builds it
    with null values (section 4.3). *)
Module Resource.

Record t : Type := mk {
  definition : UpgradedMeta;
  identifier : Identifier;
  state : RelationshipState;
  remoteState : option Identifier;
  localState : option Identifier;
  meta : option Meta;
  links : option Links;
  transactionRef : nat;
}.

Definition with_transactionRef (n : nat) (e : t) : t :=
  mk (definition e) (identifier e) (state e) (remoteState e) (localState e)
     (meta e) (links e) n.

End Resource.

Definition createResourceRelationship (definition : UpgradedMeta)
    (identifier : Identifier) : Resource.t :=
  {| Resource.definition := definition;
     Resource.identifier := identifier;
     Resource.state := createState;
     Resource.remoteState := None;
     Resource.localState := None;
     Resource.meta := None;
     Resource.links := None;
     Resource.transactionRef := 0 |}.

(** [interface ImplicitRelationship] of [graph.ts] *)
Module Implicit.

Record t : Type := mk {
  definition : UpgradedMeta;
  identifier : Identifier;
  localMembers : gset Identifier;
  remoteMembers : gset Identifier;
}.

End Implicit.

(** [type RelationshipEdge = ImplicitRelationship | CollectionRelationship |
    ResourceRelationship] *)
Inductive RelationshipEdge : Type :=
| ImplicitEdge (e : Implicit.t)
| CollectionEdge (e : Collection.t)
| ResourceEdge (e : Resource.t).

Definition edge_definition (e : RelationshipEdge) : UpgradedMeta :=
  match e with
  | ImplicitEdge i => Implicit.definition i
  | CollectionEdge c => Collection.definition c
  | ResourceEdge r => Resource.definition r
  end.

Definition edge_identifier (e : RelationshipEdge) : Identifier :=
  match e with
  | ImplicitEdge i => Implicit.identifier i
  | CollectionEdge c => Collection.identifier c
  | ResourceEdge r => Resource.identifier r
  end.

(** Modelled from the spec: the guards [isImplicit], [isBelongsTo] and
    [isHasMany] come from [-utils.ts], which is not among the sources; they
    tell the three variants of the closed edge type apart (section 9). *)
Definition isImplicit (e : RelationshipEdge) : bool :=
  match e with ImplicitEdge _ => true | _ => false end.

Definition isBelongsTo (e : RelationshipEdge) : bool :=
  match e with ResourceEdge _ => true | _ => false end.

Definition isHasMany (e : RelationshipEdge) : bool :=
  match e with CollectionEdge _ => true | _ => false end.

(** The [transactionRef] of an edge; implicit edges have none. *)
Definition edge_transactionRef (e : RelationshipEdge) : nat :=
  match e with
  | ImplicitEdge _ => 0
  | CollectionEdge c => Collection.transactionRef c
  | ResourceEdge r => Resource.transactionRef r
  end.

(** [createCollectionRelationship] *)
Definition createCollectionRelationship (definition : UpgradedMeta)
    (identifier : Identifier) : Collection.t :=
  {| Collection.definition := definition;
     Collection.identifier := identifier;
     Collection.state := createState;
     Collection.localMembers := ∅;
     Collection.remoteMembers := ∅;
     Collection.localState := [];
     Collection.remoteState := [];
     Collection.meta := None;
     Collection.links := None;
     Collection.transactionRef := 0 |}.

(** ** Payloads *)

(** [CollectionResourceRelationship]: every key is optional. *)
Record CollectionResourceRelationship : Type := mkCollectionPayload {
  data : option (list Identifier);
  payload_links : option Links;
  payload_meta : option Meta;
}.

Record SingleResourceRelationship : Type := mkSinglePayload {
  single_data : option (option Identifier);
  single_links : option Links;
  single_meta : option Meta;
}.

Inductive RelationshipPayload : Type :=
| SinglePayload (p : SingleResourceRelationship)
| CollectionPayload (p : CollectionResourceRelationship).

(** [legacyGetCollectionRelationshipData]: the payload starts as [{}] and
    gets each key under its own test; [slice()] copies the sequence. *)
Definition legacyGetCollectionRelationshipData (source : Collection.t)
    : CollectionResourceRelationship :=
  let payload := mkCollectionPayload None None None in
  let payload :=
    if hasReceivedData (Collection.state source)
    then mkCollectionPayload (Some (Collection.localState source))
                             (payload_links payload) (payload_meta payload)
    else payload in
  let payload :=
    match Collection.links source with
    | Some l => mkCollectionPayload (data payload) (Some l) (payload_meta payload)
    | None => payload
    end in
  let payload :=
    match Collection.meta source with
    | Some m => mkCollectionPayload (data payload) (payload_links payload) (Some m)
    | None => payload
    end in
  payload.

(** ** Operations *)

(** A [value] that is one identifier or an array of them. *)
Inductive OneOrMany : Type :=
| One (v : Identifier)
| Many (vs : list Identifier).

(** The operation records of [-operations.ts], a union tagged by [op]. *)
Inductive Operation : Type :=
| MergeIdentifiers (record : Identifier) (value : Identifier)
| UpdateRelationship (record : Identifier) (field : string) (value : RelationshipPayload)
| DeleteRecord (record : Identifier)
| ReplaceRelatedRecord (record : Identifier) (field : string) (value : option Identifier)
| AddToRelatedRecords (record : Identifier) (field : string) (value : OneOrMany)
                      (index : option nat)
| RemoveFromRelatedRecords (record : Identifier) (field : string) (value : OneOrMany)
| ReplaceRelatedRecords (record : Identifier) (field : string) (value : list Identifier)
| UnknownOperation (op : string) (record : Identifier) (field : string).

(** ** Dictionaries

    [Dict<V>] is a plain object: keys keep their insertion order
    ([Object.keys]), and a key can be present with the value [undefined]. *)
Definition Dict (V : Type) : Type := list (string * option V).

Fixpoint dict_get {V} (k : string) (d : Dict V) : option V :=
  match d with
  | [] => None
  | (k', v) :: d' => if decide (k' = k) then v else dict_get k d'
  end.

Fixpoint dict_set {V} (k : string) (v : option V) (d : Dict V) : Dict V :=
  match d with
  | [] => [(k, v)]
  | (k', v') :: d' =>
      if decide (k' = k) then (k, v) :: d' else (k', v') :: dict_set k v d'
  end.

Definition dict_keys {V} (d : Dict V) : list string := d.*1.

(** A JavaScript [Set] of objects, iterated in insertion order. *)
Definition set_add {A} `{EqDecision A} (x : A) (s : list A) : list A :=
  if decide (x ∈ s) then s else s ++ [x].

(** ** The graph and the world around it *)

Abbreviation EdgeRef := positive.
Abbreviation NodeRef := positive.
Abbreviation StoreRef := positive.
Abbreviation GraphRef := positive.

Record PushedUpdates : Type := mkPushed {
  pushed_belongsTo : list Operation;
  pushed_hasMany : list Operation;
  pushed_deletions : list Operation;
}.

(** The fields of [class Graph]. *)
Record Graph : Type := mkGraph {
  _definitionCache : EdgeCache;
  _potentialPolymorphicTypes : gmap string (gmap string bool);
  identifiers : gmap Identifier NodeRef;
  store : option StoreRef;
  isDestroyed : bool;
  _willSyncRemote : bool;
  _willSyncLocal : bool;
  _pushedUpdates : PushedUpdates;
  _updatedRelationships : list EdgeRef;
  _transaction : option (list EdgeRef);
  _removing : option Identifier;
}.

(** The callbacks that the graph hands to the store's scheduler. *)
Inductive Callback : Type := FlushRemoteQueue | FlushLocalQueue.

#[global] Instance Callback_eq_dec : EqDecision Callback.
Proof. solve_decision. Defined.

(** What a method call can read and write: the graph itself ([this]), the
    node dictionaries and the edges it refers to, the module-level registry
    [Graphs], and the queue of the store's scheduler. *)
Record World : Type := mkWorld {
  graph : Graph;
  nodes : gmap NodeRef (Dict EdgeRef);
  edges : gmap EdgeRef RelationshipEdge;
  Graphs : gmap StoreRef GraphRef;
  scheduled : list (string * Callback);
}.

Definition set_graph (g : Graph) (w : World) : World :=
  mkWorld g (nodes w) (edges w) (Graphs w) (scheduled w).
Definition set_nodes (n : gmap NodeRef (Dict EdgeRef)) (w : World) : World :=
  mkWorld (graph w) n (edges w) (Graphs w) (scheduled w).
Definition set_edges (e : gmap EdgeRef RelationshipEdge) (w : World) : World :=
  mkWorld (graph w) (nodes w) e (Graphs w) (scheduled w).
Definition set_Graphs (r : gmap StoreRef GraphRef) (w : World) : World :=
  mkWorld (graph w) (nodes w) (edges w) r (scheduled w).
Definition set_scheduled (q : list (string * Callback)) (w : World) : World :=
  mkWorld (graph w) (nodes w) (edges w) (Graphs w) q.

(** Field updates of [this]. *)
Definition set_definitionCache (c : EdgeCache) (g : Graph) : Graph :=
  mkGraph c (_potentialPolymorphicTypes g) (identifiers g) (store g) (isDestroyed g)
    (_willSyncRemote g) (_willSyncLocal g) (_pushedUpdates g)
    (_updatedRelationships g) (_transaction g) (_removing g).
Definition set_potentialPolymorphicTypes (t : gmap string (gmap string bool))
    (g : Graph) : Graph :=
  mkGraph (_definitionCache g) t (identifiers g) (store g) (isDestroyed g)
    (_willSyncRemote g) (_willSyncLocal g) (_pushedUpdates g)
    (_updatedRelationships g) (_transaction g) (_removing g).
Definition set_identifiers (m : gmap Identifier NodeRef) (g : Graph) : Graph :=
  mkGraph (_definitionCache g) (_potentialPolymorphicTypes g) m (store g) (isDestroyed g)
    (_willSyncRemote g) (_willSyncLocal g) (_pushedUpdates g)
    (_updatedRelationships g) (_transaction g) (_removing g).
Definition set_store (s : option StoreRef) (g : Graph) : Graph :=
  mkGraph (_definitionCache g) (_potentialPolymorphicTypes g) (identifiers g) s
    (isDestroyed g) (_willSyncRemote g) (_willSyncLocal g) (_pushedUpdates g)
    (_updatedRelationships g) (_transaction g) (_removing g).
Definition set_isDestroyed (b : bool) (g : Graph) : Graph :=
  mkGraph (_definitionCache g) (_potentialPolymorphicTypes g) (identifiers g) (store g) b
    (_willSyncRemote g) (_willSyncLocal g) (_pushedUpdates g)
    (_updatedRelationships g) (_transaction g) (_removing g).
Definition set_willSyncRemote (b : bool) (g : Graph) : Graph :=
  mkGraph (_definitionCache g) (_potentialPolymorphicTypes g) (identifiers g) (store g)
    (isDestroyed g) b (_willSyncLocal g) (_pushedUpdates g)
    (_updatedRelationships g) (_transaction g) (_removing g).
Definition set_willSyncLocal (b : bool) (g : Graph) : Graph :=
  mkGraph (_definitionCache g) (_potentialPolymorphicTypes g) (identifiers g) (store g)
    (isDestroyed g) (_willSyncRemote g) b (_pushedUpdates g)
    (_updatedRelationships g) (_transaction g) (_removing g).
Definition set_pushedUpdates (p : PushedUpdates) (g : Graph) : Graph :=
  mkGraph (_definitionCache g) (_potentialPolymorphicTypes g) (identifiers g) (store g)
    (isDestroyed g) (_willSyncRemote g) (_willSyncLocal g) p
    (_updatedRelationships g) (_transaction g) (_removing g).
Definition set_updatedRelationships (s : list EdgeRef) (g : Graph) : Graph :=
  mkGraph (_definitionCache g) (_potentialPolymorphicTypes g) (identifiers g) (store g)
    (isDestroyed g) (_willSyncRemote g) (_willSyncLocal g) (_pushedUpdates g)
    s (_transaction g) (_removing g).
Definition set_transaction (t : option (list EdgeRef)) (g : Graph) : Graph :=
  mkGraph (_definitionCache g) (_potentialPolymorphicTypes g) (identifiers g) (store g)
    (isDestroyed g) (_willSyncRemote g) (_willSyncLocal g) (_pushedUpdates g)
    (_updatedRelationships g) t (_removing g).
Definition set_removing (r : option Identifier) (g : Graph) : Graph :=
  mkGraph (_definitionCache g) (_potentialPolymorphicTypes g) (identifiers g) (store g)
    (isDestroyed g) (_willSyncRemote g) (_willSyncLocal g) (_pushedUpdates g)
    (_updatedRelationships g) (_transaction g) r.

(** [constructor(store)] *)
Definition new_Graph (store : StoreRef) : Graph :=
  {| _definitionCache := ∅;
     _potentialPolymorphicTypes := ∅;
     identifiers := ∅;
     store := Some store;
     isDestroyed := false;
     _willSyncRemote := false;
     _willSyncLocal := false;
     _pushedUpdates := mkPushed [] [] [];
     _updatedRelationships := [];
     _transaction := None;
     _removing := None |}.

(** ** Computations: state and exceptions *)

Inductive Error : Type :=
| AssertionFailed (message : string)
| TypeError (message : string).

(** An exception does not roll back what was written before it. *)
Inductive Result (A : Type) : Type :=
| Return (a : A) (w : World)
| Throw (e : Error) (w : World).
Arguments Return {A} a w.
Arguments Throw {A} e w.

Definition M (A : Type) : Type := World → Result A.

Definition ret {A} (a : A) : M A := λ w, Return a w.

Definition bind {A B} (c : M A) (k : A → M B) : M B :=
  λ w, match c w with
       | Return a w' => k a w'
       | Throw e w' => Throw e w'
       end.

Definition throw {A} (e : Error) : M A := λ w, Throw e w.

Notation "'let*' x ':=' c 'in' k" := (bind c (λ x, k))
  (at level 10, x name, c at level 100, k at level 200).
Notation "c '>>' k" := (bind c (λ _, k))
  (at level 100, k at level 200, right associativity).

Definition assert (message : string) (condition : bool) : M unit :=
  if condition then ret tt else throw (AssertionFailed message).

Definition this : M Graph := λ w, Return (graph w) w.

Definition modify_this (f : Graph → Graph) : M unit :=
  λ w, Return tt (set_graph (f (graph w)) w).

(** [for (let i = 0; i < xs.length; i++) body(xs[i])] and [xs.forEach(body)] *)
Fixpoint for_each {A} (xs : list A) (body : A → M unit) : M unit :=
  match xs with
  | [] => ret tt
  | x :: xs' => body x >> for_each xs' body
  end.

(** Objects in the store.  A reference that JavaScript holds always points to
    an object; reading a reference that the store does not have is a
    [TypeError] here. *)
Definition new_node (d : Dict EdgeRef) : M NodeRef :=
  λ w, let n := fresh (dom (nodes w)) in
       Return n (set_nodes (<[n := d]> (nodes w)) w).

Definition read_node (n : NodeRef) : M (Dict EdgeRef) :=
  λ w, match nodes w !! n with
       | Some d => Return d w
       | None => Throw (TypeError "no such node object") w
       end.

(** [relationships[key] = v] *)
Definition write_slot (n : NodeRef) (k : string) (v : option EdgeRef) : M unit :=
  let* d := read_node n in
  λ w, Return tt (set_nodes (<[n := dict_set k v d]> (nodes w)) w).

Definition new_edge (e : RelationshipEdge) : M EdgeRef :=
  λ w, let r := fresh (dom (edges w)) in
       Return r (set_edges (<[r := e]> (edges w)) w).

Definition read_edge (r : EdgeRef) : M RelationshipEdge :=
  λ w, match edges w !! r with
       | Some e => Return e w
       | None => Throw (TypeError "no such edge object") w
       end.

Definition write_edge (r : EdgeRef) (e : RelationshipEdge) : M unit :=
  λ w, Return tt (set_edges (<[r := e]> (edges w)) w).

(** [indexOf]: the first position of [v], or nothing where JavaScript
    answers [-1]. *)
Fixpoint indexOf (v : Identifier) (l : list Identifier) : option nat :=
  match l with
  | [] => None
  | x :: l' => if decide (x = v) then Some 0 else S <$> indexOf v l'
  end.

(** [l.splice(index, 1)] *)
Definition splice1 (index : nat) (l : list Identifier) : list Identifier :=
  take index l ++ drop (S index) l.

(** Build flags: the development build ([DEBUG]) without graph logging. *)
Definition DEBUG : bool := true.

(** ** Collaborators

    Functions of the package that the three source files import but that are
    not among them.  They are parameters of the development: each is an
    arbitrary computation on the world (it receives the graph as its first
    argument in the source).  [upgradeDefinition] reads the graph and its one
    side effect is to cache the definition (section 4.1 of the spec). *)
Class Collaborators : Type := {
  upgradeDefinition :
    Graph → Identifier → string → option EdgeDefinition * EdgeCache;
  isLHS : EdgeDefinition → string → string → bool;
  getStore : StoreRef → StoreRef;
  notifyChange : Identifier → string → M unit;
  destroyRelationship : EdgeRef → option bool → M unit;
  removeCompletelyFromInverse : EdgeRef → M unit;
  removeFromInverse : Identifier → string → Identifier → bool → M unit;
  mergeIdentifier : Operation → NodeRef → M unit;
  assertValidRelationshipPayload : Operation → M unit;
  updateRelationshipOperation : Operation → M unit;
  replaceRelatedRecord : Operation → bool → M unit;
  addToRelatedRecords : Operation → bool → M unit;
  replaceRelatedRecords : Operation → bool → M unit;
  syncRemoteToLocal : EdgeRef → M unit;
  legacyGetResourceRelationshipData : Resource.t → SingleResourceRelationship;
}.

(** [op.record] *)
Definition op_record (op : Operation) : Identifier :=
  match op with
  | MergeIdentifiers r _ | UpdateRelationship r _ _ | DeleteRecord r
  | ReplaceRelatedRecord r _ _ | AddToRelatedRecords r _ _ _
  | RemoveFromRelatedRecords r _ _ | ReplaceRelatedRecords r _ _
  | UnknownOperation _ r _ => r
  end.

(** [op.field]; an operation without the key gives [undefined], which [get]
    rejects exactly as it rejects the empty string. *)
Definition op_field (op : Operation) : string :=
  match op with
  | MergeIdentifiers _ _ | DeleteRecord _ => ""
  | UpdateRelationship _ f _ | ReplaceRelatedRecord _ f _
  | AddToRelatedRecords _ f _ _ | RemoveFromRelatedRecords _ f _
  | ReplaceRelatedRecords _ f _ | UnknownOperation _ _ f => f
  end.

(** Modelled from the spec: [_schedule] is a method of the store, which is
    not among the sources.  Section 6 (scheduler contract): the callback is
    queued under the queue's name and run once, later.  A destroyed graph has
    no store to ask. *)
Definition schedule (queue : string) (callback : Callback) : M unit :=
  let* g := this in
  match store g with
  | None => throw (TypeError "store is null")
  | Some _ => λ w, Return tt (set_scheduled (scheduled w ++ [(queue, callback)]) w)
  end.

Section Graph.

Context `{Collaborators}.

(** *** [Graph.has] *)
Definition has (identifier : Identifier) (propertyName : string) : M bool :=
  let* g := this in
  match identifiers g !! identifier with
  | None => ret false
  | Some relationships =>
      let* d := read_node relationships in
      ret (bool_decide (is_Some (dict_get propertyName d)))
  end.

(** *** [Graph.get] *)
Definition get (identifier : Identifier) (propertyName : string) : M EdgeRef :=
  assert "expected propertyName" (negb (String.eqb propertyName "")) >>
  let* g := this in
  let* relationships :=
    match identifiers g !! identifier with
    | Some relationships => ret relationships
    | None =>
        let* relationships := new_node [] in
        modify_this (λ g, set_identifiers (<[identifier := relationships]> (identifiers g)) g) >>
        ret relationships
    end in
  let* d := read_node relationships in
  match dict_get propertyName d with
  | Some relationship => ret relationship
  | None =>
      let* g := this in
      let '(info, cache) := upgradeDefinition g identifier propertyName in
      modify_this (set_definitionCache cache) >>
      match info with
      | None => throw (AssertionFailed "Could not determine relationship information")
      | Some info =>
          let* meta :=
            if isLHS info (type identifier) propertyName
            then ret (lhs_definition info)
            else match rhs_definition info with
                 | Some m => ret m
                 | None => throw (TypeError "rhs_definition is null")
                 end in
          let edge :=
            match kind meta with
            | belongsTo => ResourceEdge (createResourceRelationship meta identifier)
            | hasMany => CollectionEdge (createCollectionRelationship meta identifier)
            | implicit =>
                ImplicitEdge {| Implicit.definition := meta;
                                Implicit.identifier := identifier;
                                Implicit.localMembers := ∅;
                                Implicit.remoteMembers := ∅ |}
            end in
          let* relationship := new_edge edge in
          write_slot relationships propertyName (Some relationship) >>
          ret relationship
      end
  end.

(** *** [Graph.getData] *)
Definition getData (identifier : Identifier) (propertyName : string)
    : M RelationshipPayload :=
  let* relationship := get identifier propertyName in
  let* e := read_edge relationship in
  assert "Cannot getData() on an implicit relationship" (negb (isImplicit e)) >>
  match e with
  | ResourceEdge r => ret (SinglePayload (legacyGetResourceRelationshipData r))
  | CollectionEdge c => ret (CollectionPayload (legacyGetCollectionRelationshipData c))
  | ImplicitEdge _ => throw (TypeError "not a collection relationship")
  end.

(** *** [Graph.registerPolymorphicType]; the two inner dictionaries are the
    same object when both types are the same. *)
Definition registerPolymorphicType (type1 type2 : string) : M unit :=
  modify_this (λ g,
    let typeCache := _potentialPolymorphicTypes g in
    let t1 := default ∅ (typeCache !! type1) in
    let typeCache := <[type1 := <[type2 := true]> t1]> typeCache in
    let t2 := default ∅ (typeCache !! type2) in
    let typeCache := <[type2 := <[type1 := true]> t2]> typeCache in
    set_potentialPolymorphicTypes typeCache g).

(** *** [Graph.isReleasable] *)
Fixpoint isReleasable_keys (relationships : NodeRef) (keys : list string) : M bool :=
  match keys with
  | [] => ret true
  | k :: keys' =>
      let* d := read_node relationships in
      match dict_get k d with
      | None => throw (AssertionFailed "Expected a relationship")
      | Some relationship =>
          let* e := read_edge relationship in
          if inverseIsAsync (edge_definition e) then ret false
          else isReleasable_keys relationships keys'
      end
  end.

Definition isReleasable (identifier : Identifier) : M bool :=
  let* g := this in
  match identifiers g !! identifier with
  | None => ret true
  | Some relationships =>
      let* d := read_node relationships in
      isReleasable_keys relationships (dict_keys d)
  end.

(** *** [Graph.unload] *)
Definition unload (identifier : Identifier) (silenceNotifications : option bool)
    : M unit :=
  let* g := this in
  match identifiers g !! identifier with
  | None => ret tt
  | Some relationships =>
      let* d := read_node relationships in
      for_each (dict_keys d) (λ key,
        let* d := read_node relationships in
        match dict_get key d with
        | None => ret tt
        | Some rel =>
            destroyRelationship rel silenceNotifications >>
            let* e := read_edge rel in
            if isImplicit e then write_slot relationships key None else ret tt
        end)
  end.

(** *** [Graph.remove] *)
Definition remove (identifier : Identifier) : M unit :=
  let* g := this in
  assert "Cannot remove while still removing" (bool_decide (_removing g = None)) >>
  modify_this (set_removing (Some identifier)) >>
  unload identifier None >>
  modify_this (λ g, set_identifiers (delete identifier (identifiers g)) g) >>
  modify_this (set_removing None).

(** *** [Graph.push] *)
Definition push_deletion (op : Operation) (g : Graph) : Graph :=
  let p := _pushedUpdates g in
  set_pushedUpdates
    (mkPushed (pushed_belongsTo p) (pushed_hasMany p) (pushed_deletions p ++ [op])) g.

Definition push_belongsTo (op : Operation) (g : Graph) : Graph :=
  let p := _pushedUpdates g in
  set_pushedUpdates
    (mkPushed (pushed_belongsTo p ++ [op]) (pushed_hasMany p) (pushed_deletions p)) g.

Definition push_hasMany (op : Operation) (g : Graph) : Graph :=
  let p := _pushedUpdates g in
  set_pushedUpdates
    (mkPushed (pushed_belongsTo p) (pushed_hasMany p ++ [op]) (pushed_deletions p)) g.

Definition push (op : Operation) : M unit :=
  match op with
  | DeleteRecord _ => modify_this (push_deletion op)
  | ReplaceRelatedRecord _ _ _ => modify_this (push_belongsTo op)
  | _ =>
      let* relationship := get (op_record op) (op_field op) in
      let* e := read_edge relationship in
      assert "Cannot push a remote update for an implicit relationship"
             (negb (isImplicit e)) >>
      match kind (edge_definition e) with
      | belongsTo => modify_this (push_belongsTo op)
      | hasMany => modify_this (push_hasMany op)
      | implicit => throw (TypeError "no such bucket")
      end
  end >>
  let* g := this in
  if negb (_willSyncRemote g) then
    modify_this (set_willSyncRemote true) >>
    schedule "coalesce" FlushRemoteQueue
  else ret tt.

(** *** [remove-from-related-records.ts]

    [value] is an identifier, never null, so the first assertion of
    [removeRelatedRecord] holds.  The set and the array of the edge are
    written in place, one after the other, before the inverse is visited. *)
Definition removeRelatedRecord (relationship : EdgeRef) (record value : Identifier)
    (isRemote : bool) : M unit :=
  let* e := read_edge relationship in
  match e with
  | CollectionEdge c =>
      if negb (bool_decide (value ∈ Collection.localMembers c)) then ret tt
      else
        let localMembers := Collection.localMembers c ∖ {[value]} in
        write_edge relationship
          (CollectionEdge (Collection.with_local localMembers (Collection.localState c) c)) >>
        match indexOf value (Collection.localState c) with
        | None => throw (AssertionFailed "expected localMembers and localState to be in sync")
        | Some index =>
            write_edge relationship
              (CollectionEdge (Collection.with_local localMembers
                                 (splice1 index (Collection.localState c)) c)) >>
            removeFromInverse value (inverseKey (Collection.definition c)) record isRemote
        end
  | _ => throw (TypeError "not a collection relationship")
  end.

Definition removeFromRelatedRecords (record : Identifier) (field : string)
    (value : OneOrMany) (isRemote : bool) : M unit :=
  let* relationship := get record field in
  let* e := read_edge relationship in
  assert "You can only 'removeFromRelatedRecords' on a hasMany relationship"
         (isHasMany e) >>
  match value with
  | Many vs => for_each vs (λ v, removeRelatedRecord relationship record v isRemote)
  | One v => removeRelatedRecord relationship record v isRemote
  end >>
  let* e := read_edge relationship in
  notifyChange (edge_identifier e) (key (edge_definition e)).

(** *** [Graph.update] *)
Definition update (op : Operation) (isRemote : bool) : M unit :=
  match op with
  | DeleteRecord _ | MergeIdentifiers _ _ => ret tt
  | _ =>
      let* relationship := get (op_record op) (op_field op) in
      let* e := read_edge relationship in
      assert "Cannot update an implicit relationship" (negb (isImplicit e))
  end >>
  match op with
  | MergeIdentifiers record _ =>
      let* g := this in
      match identifiers g !! record with
      | Some relationships => mergeIdentifier op relationships
      | None => ret tt
      end
  | UpdateRelationship _ _ _ =>
      assert "Can only perform the operation updateRelationship on remote state" isRemote >>
      (if DEBUG then assertValidRelationshipPayload op else ret tt) >>
      updateRelationshipOperation op
  | DeleteRecord identifier =>
      assert "Can only perform the operation deleteRelationship on remote state" isRemote >>
      let* g := this in
      match identifiers g !! identifier with
      | Some relationships =>
          let* d := read_node relationships in
          for_each (dict_keys d) (λ key,
            let* d := read_node relationships in
            match dict_get key d with
            | None => ret tt
            | Some rel =>
                write_slot relationships key None >>
                removeCompletelyFromInverse rel
            end) >>
          modify_this (λ g, set_identifiers (delete identifier (identifiers g)) g)
      | None => ret tt
      end
  | ReplaceRelatedRecord _ _ _ => replaceRelatedRecord op isRemote
  | AddToRelatedRecords _ _ _ _ => addToRelatedRecords op isRemote
  | RemoveFromRelatedRecords record field value =>
      removeFromRelatedRecords record field value isRemote
  | ReplaceRelatedRecords _ _ _ => replaceRelatedRecords op isRemote
  | UnknownOperation _ _ _ =>
      throw (AssertionFailed "No local relationship update operation exists")
  end.

(** *** [Graph._scheduleLocalSync] *)
Definition _scheduleLocalSync (relationship : EdgeRef) : M unit :=
  modify_this (λ g, set_updatedRelationships
                      (set_add relationship (_updatedRelationships g)) g) >>
  let* g := this in
  if negb (_willSyncLocal g) then
    modify_this (set_willSyncLocal true) >>
    schedule "sync" FlushLocalQueue
  else ret tt.

(** *** [Graph._addToTransaction]; the parameter's type leaves implicit
    edges out. *)
Definition _addToTransaction (relationship : EdgeRef) : M unit :=
  let* g := this in
  match _transaction g with
  | None => throw (AssertionFailed "expected a transaction")
  | Some _ =>
      let* e := read_edge relationship in
      match e with
      | CollectionEdge c =>
          write_edge relationship
            (CollectionEdge (Collection.with_transactionRef (S (Collection.transactionRef c)) c))
      | ResourceEdge r =>
          write_edge relationship
            (ResourceEdge (Resource.with_transactionRef (S (Resource.transactionRef r)) r))
      | ImplicitEdge _ => throw (TypeError "not a collection or resource relationship")
      end >>
      let* g := this in
      match _transaction g with
      | None => throw (TypeError "transaction is null")
      | Some t => modify_this (set_transaction (Some (set_add relationship t)))
      end
  end.

(** [v.transactionRef = 0], on the edges that [_addToTransaction] takes. *)
Definition reset_transactionRef (v : EdgeRef) : M unit :=
  let* e := read_edge v in
  match e with
  | CollectionEdge c =>
      write_edge v (CollectionEdge (Collection.with_transactionRef 0 c))
  | ResourceEdge r =>
      write_edge v (ResourceEdge (Resource.with_transactionRef 0 r))
  | ImplicitEdge _ => throw (TypeError "not a collection or resource relationship")
  end.

(** *** [Graph._finalize] *)
Definition _finalize : M unit :=
  let* g := this in
  match _transaction g with
  | Some t =>
      for_each t reset_transactionRef >>
      modify_this (set_transaction None)
  | None => ret tt
  end.

(** *** [Graph._flushRemoteQueue] *)
Definition _flushRemoteQueue : M unit :=
  let* g := this in
  if negb (_willSyncRemote g) then ret tt
  else
    modify_this (set_transaction (Some [])) >>
    modify_this (set_willSyncRemote false) >>
    let* g := this in
    let deletions := pushed_deletions (_pushedUpdates g) in
    let hasMany := pushed_hasMany (_pushedUpdates g) in
    let belongsTo := pushed_belongsTo (_pushedUpdates g) in
    modify_this (set_pushedUpdates (mkPushed [] [] [])) >>
    for_each deletions (λ op, update op true) >>
    for_each hasMany (λ op, update op true) >>
    for_each belongsTo (λ op, update op true) >>
    _finalize.

(** *** [Graph._flushLocalQueue] *)
Definition _flushLocalQueue : M unit :=
  let* g := this in
  if negb (_willSyncLocal g) then ret tt
  else
    modify_this (set_willSyncLocal false) >>
    let* g := this in
    let updated := _updatedRelationships g in
    modify_this (set_updatedRelationships []) >>
    for_each updated syncRemoteToLocal.

(** *** [Graph.destroy] *)
Definition Graphs_delete (k : option StoreRef) : M unit :=
  match k with
  | Some s => λ w, Return tt (set_Graphs (delete s (Graphs w)) w)
  | None => ret tt
  end.

Definition destroy : M unit :=
  let* g := this in
  Graphs_delete (store g) >>
  (if DEBUG then
     let* g := this in
     match store g with
     | Some s => Graphs_delete (Some (getStore s))
     | None => throw (TypeError "store is null")
     end
   else ret tt) >>
  modify_this (set_identifiers ∅) >>
  modify_this (set_store None) >>
  modify_this (set_isDestroyed true).

End Graph.

(** * Vocabulary of the properties *)

(** The world a computation leaves behind, whether it returns or throws. *)
Definition final {A} (r : Result A) : World :=
  match r with Return _ w | Throw _ w => w end.

(** [c] keeps [P], also when it throws. *)
Definition preserves {A} (P : World → Prop) (c : M A) : Prop :=
  ∀ w, P w → P (final (c w)).

(** Where the graph finds the edge of [identifier] for [propertyName]. *)
Definition edge_at (w : World) (identifier : Identifier) (propertyName : string)
    : option EdgeRef :=
  n ← identifiers (graph w) !! identifier;
  d ← nodes w !! n;
  dict_get propertyName d.

(** Membership/order agreement of one side of a collection edge: the set and
    the sequence hold the same elements, the sequence holds each once. *)
Definition side_in_sync (members : gset Identifier) (sequence : list Identifier) : Prop :=
  NoDup sequence ∧ ∀ x, x ∈ members ↔ x ∈ sequence.

Definition in_sync (c : Collection.t) : Prop :=
  side_in_sync (Collection.localMembers c) (Collection.localState c) ∧
  side_in_sync (Collection.remoteMembers c) (Collection.remoteState c).

Definition all_in_sync (w : World) : Prop :=
  ∀ r c, edges w !! r = Some (CollectionEdge c) → in_sync c.

(** The transaction discipline: an edge with a nonzero [transactionRef] is in
    the open transaction, and the open transaction holds collection and
    resource edges only. *)
Definition transaction_inv (w : World) : Prop :=
  (∀ r e, edges w !! r = Some e → edge_transactionRef e ≠ 0 →
     ∃ t, _transaction (graph w) = Some t ∧ r ∈ t) ∧
  (∀ t r, _transaction (graph w) = Some t → r ∈ t →
     ∃ e, edges w !! r = Some e ∧ isImplicit e = false).

(** Between flushes: the discipline holds and no transaction is open. *)
Definition outside_transaction (w : World) : Prop :=
  transaction_inv w ∧ _transaction (graph w) = None.

Definition all_transactionRef_zero (w : World) : Prop :=
  ∀ r e, edges w !! r = Some e → edge_transactionRef e = 0.

(** What is assumed of the collaborators when an invariant [P] of the world
    is at stake: each of them keeps [P]. *)
Record Collaborators_preserve `{Collaborators} (P : World → Prop) : Prop := {
  preserve_notifyChange : ∀ i k, preserves P (notifyChange i k);
  preserve_destroyRelationship : ∀ r s, preserves P (destroyRelationship r s);
  preserve_removeCompletelyFromInverse :
    ∀ r, preserves P (removeCompletelyFromInverse r);
  preserve_removeFromInverse : ∀ i k v b, preserves P (removeFromInverse i k v b);
  preserve_mergeIdentifier : ∀ op n, preserves P (mergeIdentifier op n);
  preserve_assertValidRelationshipPayload :
    ∀ op, preserves P (assertValidRelationshipPayload op);
  preserve_updateRelationshipOperation :
    ∀ op, preserves P (updateRelationshipOperation op);
  preserve_replaceRelatedRecord : ∀ op b, preserves P (replaceRelatedRecord op b);
  preserve_addToRelatedRecords : ∀ op b, preserves P (addToRelatedRecords op b);
  preserve_replaceRelatedRecords : ∀ op b, preserves P (replaceRelatedRecords op b);
  preserve_syncRemoteToLocal : ∀ r, preserves P (syncRemoteToLocal r);
}.

(** Pending flushes: the callbacks in the scheduler's queue. *)
Definition pending (callback : Callback) (w : World) : nat :=
  length (filter (λ qc, qc.2 = callback) (scheduled w)).

Definition one_flush_pending (w : World) : Prop :=
  (pending FlushRemoteQueue w ≤ 1)%nat ∧
  (_willSyncRemote (graph w) = false → pending FlushRemoteQueue w = 0) ∧
  (pending FlushLocalQueue w ≤ 1)%nat ∧
  (_willSyncLocal (graph w) = false → pending FlushLocalQueue w = 0).

(** The graph as its environment drives it: callers use its methods, and the
    scheduler takes a queued callback and runs it. *)
Inductive Call : Type :=
| Call_has (identifier : Identifier) (propertyName : string)
| Call_get (identifier : Identifier) (propertyName : string)
| Call_getData (identifier : Identifier) (propertyName : string)
| Call_registerPolymorphicType (type1 type2 : string)
| Call_isReleasable (identifier : Identifier)
| Call_unload (identifier : Identifier) (silenceNotifications : option bool)
| Call_remove (identifier : Identifier)
| Call_push (op : Operation)
| Call_update (op : Operation) (isRemote : bool)
| Call_scheduleLocalSync (relationship : EdgeRef)
| Call_destroy.

Definition run_call `{Collaborators} (c : Call) : M unit :=
  match c with
  | Call_has i p => has i p >> ret tt
  | Call_get i p => get i p >> ret tt
  | Call_getData i p => getData i p >> ret tt
  | Call_registerPolymorphicType t1 t2 => registerPolymorphicType t1 t2
  | Call_isReleasable i => isReleasable i >> ret tt
  | Call_unload i s => unload i s
  | Call_remove i => remove i
  | Call_push op => push op
  | Call_update op isRemote => update op isRemote
  | Call_scheduleLocalSync r => _scheduleLocalSync r
  | Call_destroy => destroy
  end.

Definition run_callback `{Collaborators} (callback : Callback) : M unit :=
  match callback with
  | FlushRemoteQueue => _flushRemoteQueue
  | FlushLocalQueue => _flushLocalQueue
  end.

Inductive step `{Collaborators} : World → World → Prop :=
| step_call (c : Call) (w : World) :
    step w (final (run_call c w))
| step_scheduler (queue : string) (callback : Callback)
    (before after : list (string * Callback)) (w : World) :
    scheduled w = before ++ (queue, callback) :: after →
    step w (final (run_callback callback (set_scheduled (before ++ after) w))).

(** The same, for runs in which every flush comes to its end. *)
Inductive step_returning `{Collaborators} : World → World → Prop :=
| step_returning_call (c : Call) (w : World) :
    step_returning w (final (run_call c w))
| step_returning_scheduler (queue : string) (callback : Callback)
    (before after : list (string * Callback)) (w w' : World) :
    scheduled w = before ++ (queue, callback) :: after →
    run_callback callback (set_scheduled (before ++ after) w) = Return tt w' →
    step_returning w w'.

(** A new graph for [store], with nothing queued. *)
Definition initial_world (store : StoreRef) (registry : gmap StoreRef GraphRef) : World :=
  {| graph := new_Graph store; nodes := ∅; edges := ∅;
     Graphs := registry; scheduled := [] |}.

(** The bucket a pushed operation is queued in, when the edge it addresses
    is already in the graph. *)
Inductive Bucket : Type := Deletions | HasManyUpdates | BelongsToUpdates.

#[global] Instance Bucket_eq_dec : EqDecision Bucket.
Proof. solve_decision. Defined.

Definition bucket_of (w : World) (op : Operation) : option Bucket :=
  match op with
  | DeleteRecord _ => Some Deletions
  | ReplaceRelatedRecord _ _ _ => Some BelongsToUpdates
  | _ =>
      if decide (op_field op = "") then None
      else
        r ← edge_at w (op_record op) (op_field op);
        e ← edges w !! r;
        if isImplicit e then None
        else match kind (edge_definition e) with
             | belongsTo => Some BelongsToUpdates
             | hasMany => Some HasManyUpdates
             | implicit => None
             end
  end.

Definition queued_in (w : World) (b : Bucket) (ops : list Operation) : list Operation :=
  filter (λ op, bucket_of w op = Some b) ops.

(** The state in which [_flushRemoteQueue] starts to apply the operations:
    a new transaction, the flag down, the three buckets empty. *)
Definition flush_started (w : World) : World :=
  set_graph
    (set_pushedUpdates (mkPushed [] [] [])
       (set_willSyncRemote false (set_transaction (Some []) (graph w)))) w.

(** A computation that only takes members away: every edge stays where the
    graph finds it, and no collection edge gains a local member. *)
Definition only_removes (w w' : World) : Prop :=
  (∀ i f r, edge_at w i f = Some r → edge_at w' i f = Some r) ∧
  (∀ r c, edges w !! r = Some (CollectionEdge c) →
     ∃ c', edges w' !! r = Some (CollectionEdge c') ∧
           Collection.localMembers c' ⊆ Collection.localMembers c).

(** A computation that does not write to the graph's nodes and edges. *)
Definition same_edges (w w' : World) : Prop :=
  edges w' = edges w ∧ ∀ i f, edge_at w' i f = edge_at w i f.

(** [this._pushedUpdates[bucket].push(op)] *)
Definition enqueue (b : Bucket) (op : Operation) (g : Graph) : Graph :=
  match b with
  | Deletions => push_deletion op g
  | HasManyUpdates => push_hasMany op g
  | BelongsToUpdates => push_belongsTo op g
  end.

(** What [push] leaves behind once the operation is in its bucket. *)
Definition flush_requested (w : World) : World :=
  if _willSyncRemote (graph w) then w
  else set_scheduled (scheduled w ++ [("coalesce", FlushRemoteQueue)])
         (set_graph (set_willSyncRemote true (graph w)) w).

(** The edges that [get] builds. *)
Inductive new_edge_shape : RelationshipEdge → Prop :=
| new_resource meta identifier :
    new_edge_shape (ResourceEdge (createResourceRelationship meta identifier))
| new_collection meta identifier :
    new_edge_shape (CollectionEdge (createCollectionRelationship meta identifier))
| new_implicit meta identifier :
    new_edge_shape (ImplicitEdge {| Implicit.definition := meta;
                                    Implicit.identifier := identifier;
                                    Implicit.localMembers := ∅;
                                    Implicit.remoteMembers := ∅ |}).

(** A property of the world that the bookkeeping of the graph cannot break:
    it does not depend on the node dictionaries, on the registry, or on the
    fields of the graph other than the two flags and the transaction, and a
    new edge keeps it. *)
Record Frame (P : World → Prop) : Prop := {
  frame_nodes : ∀ w n, P w → P (set_nodes n w);
  frame_Graphs : ∀ w r, P w → P (set_Graphs r w);
  frame_graph : ∀ w g, P w →
    _willSyncRemote g = _willSyncRemote (graph w) →
    _willSyncLocal g = _willSyncLocal (graph w) →
    _transaction g = _transaction (graph w) →
    P (set_graph g w);
  frame_new_edge : ∀ w e, P w → new_edge_shape e →
    P (set_edges (<[fresh (dom (edges w)) := e]> (edges w)) w);
}.

(** The state in which [_flushLocalQueue] starts to reconcile: the flag down
    and the set of updated relationships replaced by a new one. *)
Definition local_flush_started (w : World) : World :=
  set_graph
    (set_updatedRelationships [] (set_willSyncLocal false (graph w))) w.

(** The edge that [removeRelatedRecord] leaves at its relationship before it
    turns to the inverse: the value is out of the local set and out of the
    local sequence; an edge without the value is left as it is. *)
Definition without_local (value : Identifier) (c : Collection.t) : Collection.t :=
  if decide (value ∈ Collection.localMembers c) then
    match indexOf value (Collection.localState c) with
    | Some index =>
        Collection.with_local (Collection.localMembers c ∖ {[value]})
          (splice1 index (Collection.localState c)) c
    | None =>
        Collection.with_local (Collection.localMembers c ∖ {[value]})
          (Collection.localState c) c
    end
  else c.

(** * A concrete graph: posts and their comments *)

Definition post_comments : UpgradedMeta :=
  {| kind := hasMany; key := "comments"; meta_type := "comment";
     isPolymorphic := false; inverseKind := belongsTo; inverseKey := "post";
     inverseType := "post"; inverseIsAsync := false |}.

Definition comment_post : UpgradedMeta :=
  {| kind := belongsTo; key := "post"; meta_type := "post";
     isPolymorphic := false; inverseKind := hasMany; inverseKey := "comments";
     inverseType := "comment"; inverseIsAsync := false |}.

Definition post_comment_definition : EdgeDefinition :=
  {| lhs_definition := post_comments; rhs_definition := Some comment_post |}.

(** A schema that knows [post.comments] and [comment.post]. *)
Definition blog_upgradeDefinition (g : Graph) (identifier : Identifier)
    (propertyName : string) : option EdgeDefinition * EdgeCache :=
  let cache := _definitionCache g in
  let known :=
    (String.eqb (type identifier) "post" && String.eqb propertyName "comments")
    || (String.eqb (type identifier) "comment" && String.eqb propertyName "post") in
  let info := if known then Some post_comment_definition else None in
  (info,
   <[type identifier :=
       <[propertyName := info]> (default ∅ (cache !! type identifier))]> cache).

Definition blog_isLHS (info : EdgeDefinition) (type key : string) : bool :=
  String.eqb type "post".

(** Modelled from the spec: the mirrored change on the inverse edge (section
    4.4, step 3), for an inverse edge that is already in the graph: the value
    leaves the local side, and the remote side too for a remote change. *)
Definition blog_removeFromInverse (identifier : Identifier) (key : string)
    (value : Identifier) (isRemote : bool) : M unit :=
  λ w,
    match edge_at w identifier key with
    | None => Return tt w
    | Some r =>
        match edges w !! r with
        | Some (CollectionEdge c) =>
            let c' :=
              Collection.mk (Collection.definition c) (Collection.identifier c)
                (Collection.state c)
                (Collection.localMembers c ∖ {[value]})
                (if isRemote then Collection.remoteMembers c ∖ {[value]}
                 else Collection.remoteMembers c)
                (filter (λ x, x ≠ value) (Collection.localState c))
                (if isRemote then filter (λ x, x ≠ value) (Collection.remoteState c)
                 else Collection.remoteState c)
                (Collection.meta c) (Collection.links c)
                (Collection.transactionRef c) in
            Return tt (set_edges (<[r := CollectionEdge c']> (edges w)) w)
        | Some (ResourceEdge e) =>
            let e' :=
              Resource.mk (Resource.definition e) (Resource.identifier e)
                (Resource.state e)
                (if isRemote then None else Resource.remoteState e)
                (if decide (Resource.localState e = Some value) then None
                 else Resource.localState e)
                (Resource.meta e) (Resource.links e) (Resource.transactionRef e) in
            Return tt (set_edges (<[r := ResourceEdge e']> (edges w)) w)
        | Some (ImplicitEdge i) =>
            let i' :=
              Implicit.mk (Implicit.definition i) (Implicit.identifier i)
                (Implicit.localMembers i ∖ {[value]})
                (if isRemote then Implicit.remoteMembers i ∖ {[value]}
                 else Implicit.remoteMembers i) in
            Return tt (set_edges (<[r := ImplicitEdge i']> (edges w)) w)
        | None => Return tt w
        end
    end.

(** Modelled from the spec: a remote [replaceRelatedRecords] (section 4.4)
    on an edge that is already in the graph: the edge joins the transaction
    and takes the given list, without its duplicates, on both sides. *)
Definition blog_replaceRelatedRecords (op : Operation) (isRemote : bool) : M unit :=
  match op with
  | ReplaceRelatedRecords record field value =>
      λ w,
        match edge_at w record field with
        | Some r =>
            (_addToTransaction r >>
             let* e := read_edge r in
             match e with
             | CollectionEdge c =>
                 let value := remove_dups value in
                 write_edge r
                   (CollectionEdge
                      (Collection.mk (Collection.definition c) (Collection.identifier c)
                         {| hasReceivedData := true;
                            isEmpty := bool_decide (value = []) |}
                         (list_to_set value) (list_to_set value) value value
                         (Collection.meta c) (Collection.links c)
                         (Collection.transactionRef c)))
             | _ => throw (AssertionFailed "expected a hasMany relationship")
             end) w
        | None => Return tt w
        end
  | _ => ret tt
  end.

(** Modelled from the spec: the payload of a resource edge (section 4.3),
    with [data] gated on [hasReceivedData]. *)
Definition blog_legacyGetResourceRelationshipData (source : Resource.t)
    : SingleResourceRelationship :=
  {| single_data :=
       if hasReceivedData (Resource.state source)
       then Some (Resource.localState source) else None;
     single_links := Resource.links source;
     single_meta := Resource.meta source |}.

(** The collaborators of the example.  Notifications go to observers outside
    the world; what is not needed by the examples does nothing. *)
#[local] Instance blog : Collaborators := {|
  upgradeDefinition := blog_upgradeDefinition;
  isLHS := blog_isLHS;
  getStore := Pos.succ;
  notifyChange := λ _ _, ret tt;
  destroyRelationship := λ _ _, ret tt;
  removeCompletelyFromInverse := λ _, ret tt;
  removeFromInverse := blog_removeFromInverse;
  mergeIdentifier := λ _ _, ret tt;
  assertValidRelationshipPayload := λ _, ret tt;
  updateRelationshipOperation := λ _, ret tt;
  replaceRelatedRecord := λ _ _, ret tt;
  addToRelatedRecords := λ _ _, ret tt;
  replaceRelatedRecords := blog_replaceRelatedRecords;
  syncRemoteToLocal := λ _, ret tt;
  legacyGetResourceRelationshipData := blog_legacyGetResourceRelationshipData;
|}.

Definition post1 : Identifier := mkIdentifier "post" (Some "1") "@lid:post-1".
Definition comment1 : Identifier := mkIdentifier "comment" (Some "1") "@lid:comment-1".
Definition comment2 : Identifier := mkIdentifier "comment" (Some "2") "@lid:comment-2".

(** [post:1] has the comments 1 and 2, received from the server; [comment:1]
    points back to the post. *)
Definition blog_comments : Collection.t :=
  {| Collection.definition := post_comments;
     Collection.identifier := post1;
     Collection.state := {| hasReceivedData := true; isEmpty := false |};
     Collection.localMembers := {[comment1; comment2]};
     Collection.remoteMembers := {[comment1; comment2]};
     Collection.localState := [comment1; comment2];
     Collection.remoteState := [comment1; comment2];
     Collection.meta := None;
     Collection.links := None;
     Collection.transactionRef := 0 |}.

Definition blog_post : Resource.t :=
  {| Resource.definition := comment_post;
     Resource.identifier := comment1;
     Resource.state := {| hasReceivedData := true; isEmpty := false |};
     Resource.remoteState := Some post1;
     Resource.localState := Some post1;
     Resource.meta := None;
     Resource.links := None;
     Resource.transactionRef := 0 |}.

Definition blog_world : World :=
  {| graph := set_identifiers {[post1 := 1%positive; comment1 := 2%positive]}
                (new_Graph 1%positive);
     nodes := {[1%positive := [("comments", Some 1%positive)];
                2%positive := [("post", Some 2%positive)]]};
     edges := {[1%positive := CollectionEdge blog_comments;
                2%positive := ResourceEdge blog_post]};
     Graphs := {[1%positive := 1%positive; 2%positive := 1%positive]};
     scheduled := [] |}.

(** Three operations for the remote queue of the example. *)
Definition delete_comment1 : Operation := DeleteRecord comment1.
Definition replace_comments : Operation :=
  ReplaceRelatedRecords post1 "comments" [comment2; comment2].
Definition replace_post : Operation := ReplaceRelatedRecord comment1 "post" None.

(** The example after [replace_comments] was pushed. *)
Definition blog_queued : World := final (push replace_comments blog_world).

(** The collection edge behind a reference, if it is one. *)
Definition collection_at (w : World) (r : EdgeRef) : option Collection.t :=
  match edges w !! r with
  | Some (CollectionEdge c) => Some c
  | _ => None
  end.

(** The example after a removal that is flagged remote. *)
Definition blog_after_remote_removal : World :=
  final (removeFromRelatedRecords post1 "comments" (One comment1) true blog_world).

(** The example after both comments were removed locally. *)
Definition blog_without_comments : World :=
  final (removeFromRelatedRecords post1 "comments" (Many [comment1; comment2]) false
           blog_world).

(** * Further vocabulary *)

(** [_potentialPolymorphicTypes[a][b]] *)
Definition polymorphic (g : Graph) (a b : string) : option bool :=
  _potentialPolymorphicTypes g !! a ≫= λ t, t !! b.

(** The registry after [registerPolymorphicType type1 type2]. *)
Definition registered (type1 type2 : string)
    (typeCache : gmap string (gmap string bool)) : gmap string (gmap string bool) :=
  let t1 := default ∅ (typeCache !! type1) in
  let typeCache := <[type1 := <[type2 := true]> t1]> typeCache in
  let t2 := default ∅ (typeCache !! type2) in
  <[type2 := <[type1 := true]> t2]> typeCache.

(** Whether the object behind a reference is an implicit edge. *)
Definition implicit_at (w : World) (r : EdgeRef) : option bool :=
  isImplicit <$> edges w !! r.

(** The slot that [unload] leaves: vacated for an implicit edge. *)
Definition unloaded_slot (w : World) (slot : option EdgeRef) : option EdgeRef :=
  match slot with
  | Some r => if implicit_at w r is Some true then None else Some r
  | None => None
  end.

(** The number of operations in the three buckets. *)
Definition queued (g : Graph) : nat :=
  length (pushed_deletions (_pushedUpdates g)) +
  length (pushed_hasMany (_pushedUpdates g)) +
  length (pushed_belongsTo (_pushedUpdates g)).

(** A collaborator that leaves the node dictionaries, the node table and the
    shape of every edge as they are. *)
Definition keeps_slots {A} (c : M A) : Prop :=
  ∀ w a w', c w = Return a w' →
    nodes w' = nodes w ∧
    identifiers (graph w') = identifiers (graph w) ∧
    ∀ r, implicit_at w' r = implicit_at w r.

(** The example with an implicit edge: [comment:2] holds the inverse of a
    relationship that its schema does not declare. *)
Definition comment_implicit_post : UpgradedMeta :=
  {| kind := implicit; key := "post"; meta_type := "post";
     isPolymorphic := false; inverseKind := hasMany; inverseKey := "comments";
     inverseType := "comment"; inverseIsAsync := false |}.

Definition blog_implicit : Implicit.t :=
  {| Implicit.definition := comment_implicit_post;
     Implicit.identifier := comment2;
     Implicit.localMembers := {[post1]};
     Implicit.remoteMembers := {[post1]} |}.

Definition blog_world_implicit : World :=
  {| graph := set_identifiers
                {[post1 := 1%positive; comment1 := 2%positive; comment2 := 3%positive]}
                (new_Graph 1%positive);
     nodes := {[1%positive := [("comments", Some 1%positive)];
                2%positive := [("post", Some 2%positive)];
                3%positive := [("post", Some 3%positive)]]};
     edges := {[1%positive := CollectionEdge blog_comments;
                2%positive := ResourceEdge blog_post;
                3%positive := ImplicitEdge blog_implicit]};
     Graphs := {[1%positive := 1%positive; 2%positive := 1%positive]};
     scheduled := [] |}.

(** The example with [post:1.comments] out of step: the local set still has
    [comment:1], the local sequence has lost it. *)
Definition blog_comments_out_of_sync : Collection.t :=
  Collection.with_local {[comment1; comment2]} [comment2] blog_comments.

Definition blog_world_out_of_sync : World :=
  set_edges (<[1%positive := CollectionEdge blog_comments_out_of_sync]>
               (edges blog_world)) blog_world.

(** A new record of the example, and a removal aimed at a belongsTo field. *)
Definition post2 : Identifier := mkIdentifier "post" (Some "2") "@lid:post-2".
Definition remove_from_post : Operation :=
  RemoveFromRelatedRecords comment1 "post" (One post1).

(** * Reasoning about computations *)

Lemma bind_Return {A B} (c : M A) (k : A → M B) w b w' :
  bind c k w = Return b w' ↔ ∃ a w1, c w = Return a w1 ∧ k a w1 = Return b w'.
Proof.
  unfold bind. destruct (c w) as [a w1|e w1]; split.
  - eauto.
  - by intros (? & ? & [= -> ->] & ?).
  - done.
  - by intros (? & ? & ? & ?).
Qed.

Lemma preserves_ret {A} P (a : A) : preserves P (ret a).
Proof. by intros w. Qed.

Lemma preserves_throw {A} P e : preserves P (@throw A e).
Proof. by intros w. Qed.

Lemma preserves_assert P m b : preserves P (assert m b).
Proof. destruct b; [apply preserves_ret | apply preserves_throw]. Qed.

Lemma preserves_this P : preserves P this.
Proof. by intros w. Qed.

Lemma preserves_bind {A B} P (c : M A) (k : A → M B) :
  preserves P c → (∀ a, preserves P (k a)) → preserves P (bind c k).
Proof.
  intros Hc Hk w Hw. unfold bind. specialize (Hc w Hw).
  destruct (c w) as [a w1|e w1]; simpl in *; [by apply Hk | done].
Qed.

Lemma preserves_for_each {A} P (xs : list A) (body : A → M unit) :
  (∀ x, x ∈ xs → preserves P (body x)) → preserves P (for_each xs body).
Proof.
  induction xs as [|x xs IH]; intros Hb; simpl.
  - apply preserves_ret.
  - apply preserves_bind.
    + apply Hb. by left.
    + intros _. apply IH. intros y Hy. apply Hb. by right.
Qed.

(** Dictionaries *)
Lemma dict_get_set_eq {V} k (v : option V) d : dict_get k (dict_set k v d) = v.
Proof.
  induction d as [|[k' v'] d IH]; simpl.
  - by rewrite decide_True.
  - destruct (decide (k' = k)) as [->|Hne]; simpl.
    + by rewrite decide_True.
    + by rewrite decide_False.
Qed.

Lemma dict_get_set_ne {V} k k' (v : option V) d :
  k ≠ k' → dict_get k' (dict_set k v d) = dict_get k' d.
Proof.
  intros Hne. induction d as [|[k0 v0] d IH]; simpl.
  - by rewrite decide_False.
  - destruct (decide (k0 = k)) as [->|Hne0]; simpl.
    + by rewrite !decide_False.
    + destruct (decide (k0 = k')); done.
Qed.

Lemma String_eqb_empty (s : string) : negb (String.eqb s "") = true ↔ s ≠ "".
Proof.
  destruct (String.eqb_spec s ""); simpl; intuition congruence.
Qed.

(** Unfold the primitive computations, [bind] last. *)
Ltac unfold_M :=
  unfold write_slot, new_node, read_node, new_edge, read_edge, write_edge,
    modify_this, this, assert, throw, schedule, ret, bind in *.

Section Properties.

Context `{Collaborators}.

Lemma get_existing identifier propertyName w r :
  propertyName ≠ "" →
  edge_at w identifier propertyName = Some r →
  get identifier propertyName w = Return r w.
Proof.
  intros Hp Hr. unfold edge_at in Hr.
  destruct (identifiers (graph w) !! identifier) as [n|] eqn:Hn; [|done].
  simpl in Hr. destruct (nodes w !! n) as [d|] eqn:Hd; [|done]. simpl in Hr.
  unfold get, bind, assert, this, ret, read_node.
  apply String_eqb_empty in Hp. rewrite Hp. simpl.
  by rewrite Hn, Hd, Hr.
Qed.

Lemma has_edge_at identifier propertyName w :
  (∀ n, identifiers (graph w) !! identifier = Some n → is_Some (nodes w !! n)) →
  has identifier propertyName w
  = Return (bool_decide (is_Some (edge_at w identifier propertyName))) w.
Proof.
  intros Hwf. unfold has, edge_at, bind, this, ret, read_node.
  destruct (identifiers (graph w) !! identifier) as [n|] eqn:Hn; simpl.
  - destruct (Hwf n eq_refl) as [d Hd]. by rewrite Hd.
  - done.
Qed.

Lemma get_Return identifier propertyName w relationship w' :
  get identifier propertyName w = Return relationship w' →
  propertyName ≠ "" ∧
  ((edge_at w identifier propertyName = Some relationship ∧ w' = w) ∨
   (edge_at w identifier propertyName = None ∧
    relationship = fresh (dom (edges w)) ∧
    edge_at w' identifier propertyName = Some relationship ∧
    scheduled w' = scheduled w ∧ Graphs w' = Graphs w ∧
    (∃ cache, graph w' = set_definitionCache cache
        (set_identifiers (identifiers (graph w')) (graph w))) ∧
    ∃ e, edges w' = <[relationship := e]> (edges w) ∧
      edge_transactionRef e = 0 ∧
      match kind (edge_definition e) with
      | belongsTo =>
          e = ResourceEdge (createResourceRelationship (edge_definition e) identifier)
      | hasMany =>
          e = CollectionEdge (createCollectionRelationship (edge_definition e) identifier)
      | implicit =>
          e = ImplicitEdge {| Implicit.definition := edge_definition e;
                              Implicit.identifier := identifier;
                              Implicit.localMembers := ∅;
                              Implicit.remoteMembers := ∅ |}
      end)).
Proof.
  unfold get. intros Hget.
  apply bind_Return in Hget as ([] & w0 & Hassert & Hget).
  unfold assert in Hassert.
  destruct (negb (String.eqb propertyName "")) eqn:Hp; [|done].
  injection Hassert as <-. apply String_eqb_empty in Hp. split; [done|].
  revert Hget. unfold edge_at. unfold_M.
  destruct (identifiers (graph w) !! identifier) as [n|] eqn:Hn; simpl.
  - destruct (nodes w !! n) as [d|] eqn:Hd; simpl; [|done].
    destruct (dict_get propertyName d) as [r|] eqn:Hr; simpl.
    { intros [= <- <-]. by left. }
    destruct (upgradeDefinition (graph w) identifier propertyName) as [[info|] cache];
      simpl; [|done].
    destruct (isLHS info (type identifier) propertyName).
    + simpl. rewrite Hd. simpl. intros [= <- <-]. right. simpl.
      rewrite Hn. simpl. rewrite lookup_insert_eq. simpl. rewrite dict_get_set_eq.
      repeat split; try done; [by eexists|].
      eexists. split; [done|]. destruct (kind (lhs_definition info)) eqn:Hk; simpl; by rewrite ?Hk.
    + destruct (rhs_definition info) as [m|]; simpl; [|done].
      rewrite Hd. simpl. intros [= <- <-]. right. simpl.
      rewrite Hn. simpl. rewrite lookup_insert_eq. simpl. rewrite dict_get_set_eq.
      repeat split; try done; [by eexists|].
      eexists. split; [done|]. destruct (kind m) eqn:Hk; simpl; by rewrite ?Hk.
  - rewrite lookup_insert_eq. simpl.
    destruct (upgradeDefinition _ identifier propertyName) as [[info|] cache];
      simpl; [|done].
    destruct (isLHS info (type identifier) propertyName).
    + simpl. rewrite lookup_insert_eq. simpl. intros [= <- <-]. right. simpl.
      rewrite !lookup_insert_eq. simpl. rewrite insert_insert_eq, lookup_insert_eq.
      simpl. rewrite decide_True by done.
      repeat split; try done; [by eexists|].
      eexists. split; [done|]. destruct (kind (lhs_definition info)) eqn:Hk; simpl; by rewrite ?Hk.
    + destruct (rhs_definition info) as [m|]; simpl; [|done].
      rewrite lookup_insert_eq. simpl. intros [= <- <-]. right. simpl.
      rewrite !lookup_insert_eq. simpl. rewrite insert_insert_eq, lookup_insert_eq.
      simpl. rewrite decide_True by done.
      repeat split; try done; [by eexists|].
      eexists. split; [done|]. destruct (kind m) eqn:Hk; simpl; by rewrite ?Hk.
Qed.

Lemma get_Return_edge_at identifier propertyName w relationship w' :
  get identifier propertyName w = Return relationship w' →
  edge_at w' identifier propertyName = Some relationship.
Proof.
  intros Hget. apply get_Return in Hget as [_ [[? ->]|(_ & _ & ? & _)]]; done.
Qed.

Lemma get_Return_node identifier propertyName w relationship w' n :
  get identifier propertyName w = Return relationship w' →
  identifiers (graph w) !! identifier = Some n → is_Some (nodes w !! n).
Proof.
  unfold get. intros Hget Hn.
  apply bind_Return in Hget as ([] & w0 & Hassert & Hget).
  unfold assert in Hassert. destruct (negb _); [|done]. injection Hassert as <-.
  revert Hget. unfold_M. rewrite Hn. simpl. by destruct (nodes w !! n).
Qed.

Lemma has_true identifier propertyName w r :
  edge_at w identifier propertyName = Some r →
  has identifier propertyName w = Return true w.
Proof.
  unfold edge_at, has, bind, this, ret, read_node. intros Hr.
  destruct (identifiers (graph w) !! identifier) as [n|]; [|done]. simpl in *.
  destruct (nodes w !! n) as [d|]; [|done]. simpl in *. by rewrite Hr.
Qed.

(** C6: the payload of a collection edge has a [data] key exactly when the
    edge's [hasReceivedData] flag is set, the data is then the local ordered
    sequence, a new edge has no [data], and [getData] hands out this payload
    for a collection edge. *)
Theorem collection_payload_data_gated_on_hasReceivedData :
  (∀ source : Collection.t,
     data (legacyGetCollectionRelationshipData source)
     = if hasReceivedData (Collection.state source)
       then Some (Collection.localState source) else None) ∧
  (∀ source : Collection.t,
     is_Some (data (legacyGetCollectionRelationshipData source))
     ↔ hasReceivedData (Collection.state source) = true) ∧
  (∀ definition identifier,
     data (legacyGetCollectionRelationshipData
             (createCollectionRelationship definition identifier)) = None) ∧
  (∀ identifier propertyName w relationship w' source,
     get identifier propertyName w = Return relationship w' →
     edges w' !! relationship = Some (CollectionEdge source) →
     getData identifier propertyName w
     = Return (CollectionPayload (legacyGetCollectionRelationshipData source)) w').
Proof.
  assert (Hdata : ∀ source : Collection.t,
     data (legacyGetCollectionRelationshipData source)
     = if hasReceivedData (Collection.state source)
       then Some (Collection.localState source) else None).
  { intros source. unfold legacyGetCollectionRelationshipData.
    destruct (hasReceivedData _), (Collection.links source), (Collection.meta source);
      done. }
  split; [done|]. split; [|split].
  - intros source. rewrite Hdata. destruct (hasReceivedData _); split; try done;
      by intros [? ?].
  - intros. by rewrite Hdata.
  - intros identifier propertyName w r w' source Hget Hr.
    unfold getData, bind. rewrite Hget. unfold read_edge. by rewrite Hr.
Qed.


(** ** Removal and destruction *)

Lemma set_edges_set_edges e e' w : set_edges e (set_edges e' w) = set_edges e w.
Proof. done. Qed.

Lemma set_graph_id w : set_graph (graph w) w = w.
Proof. by destruct w. Qed.

(** C7: [remove] throws whenever a removal is in progress, of whichever
    identifier, and leaves the world as it was; when it returns, it has
    unloaded the identifier, the identifier has no node, [has] is false for
    each of its fields, the removal marker is cleared, and removing the
    identifier once more returns. *)
Theorem remove_is_guarded_and_deletes_the_node identifier w :
  (∀ other, _removing (graph w) = Some other →
     remove identifier w
     = Throw (AssertionFailed "Cannot remove while still removing") w) ∧
  (∀ w', remove identifier w = Return tt w' →
     _removing (graph w) = None ∧
     (∃ w1, unload identifier None
              (set_graph (set_removing (Some identifier) (graph w)) w) = Return tt w1 ∧
            w' = set_graph
                   (set_removing None
                      (set_identifiers (delete identifier (identifiers (graph w1)))
                         (graph w1))) w1) ∧
     identifiers (graph w') !! identifier = None ∧
     (∀ propertyName, has identifier propertyName w' = Return false w') ∧
     _removing (graph w') = None ∧
     remove identifier w' = Return tt w').
Proof.
  split.
  - intros other Hother. unfold remove, bind, this, assert. by rewrite Hother.
  - intros w' Hremove.
    assert (Hnone : _removing (graph w) = None).
    { revert Hremove. unfold remove, bind, this, assert.
      by destruct (_removing (graph w)). }
    assert (Hshape : ∃ w1, unload identifier None
              (set_graph (set_removing (Some identifier) (graph w)) w) = Return tt w1 ∧
            w' = set_graph
                   (set_removing None
                      (set_identifiers (delete identifier (identifiers (graph w1)))
                         (graph w1))) w1).
    { revert Hremove. unfold remove, bind, this, assert, modify_this, ret.
      rewrite Hnone. simpl.
      destruct (unload identifier None _) as [[] w1|]; [|done].
      intros [= <-]. by exists w1. }
    destruct Hshape as (w1 & Hunload & ->).
    assert (Hid : identifiers
              (graph (set_graph
                   (set_removing None
                      (set_identifiers (delete identifier (identifiers (graph w1)))
                         (graph w1))) w1)) !! identifier = None).
    { simpl. apply lookup_delete_eq. }
    split; [done|]. split; [by exists w1|]. split; [done|]. split; [|split; [done|]].
    + intros p. unfold has, bind, this. by rewrite Hid.
    + unfold remove, unload. unfold_M. simpl. rewrite lookup_delete_eq. simpl.
      rewrite delete_delete_eq. done.
Qed.

(** C9, as the code has it: [destroy] takes the graph out of the registry,
    under its store wrapper and under the wrapper's store, empties the node
    table, drops the store and sets [isDestroyed]; no method looks at
    [isDestroyed], and on the destroyed graph [has] answers false. *)
Theorem destroy_detaches_and_clears w s :
  store (graph w) = Some s →
  ∃ w', destroy w = Return tt w' ∧
    Graphs w' !! s = None ∧
    Graphs w' !! getStore s = None ∧
    (∀ k, k ≠ s → k ≠ getStore s → Graphs w' !! k = Graphs w !! k) ∧
    identifiers (graph w') = ∅ ∧
    store (graph w') = None ∧
    isDestroyed (graph w') = true ∧
    (∀ identifier propertyName, has identifier propertyName w' = Return false w').
Proof.
  intros Hs. unfold destroy, Graphs_delete, DEBUG. unfold_M. rewrite !Hs. simpl.
  rewrite Hs. eexists. split; [done|]. simpl.
  split. { destruct (decide (getStore s = s)) as [->|?].
           - apply lookup_delete_eq.
           - rewrite lookup_delete_ne by done. apply lookup_delete_eq. }
  split; [apply lookup_delete_eq|].
  split. { intros k ? ?. by rewrite !lookup_delete_ne. }
  repeat split.
Qed.

(** ** The remote queue *)

Lemma bucket_of_ext w w' op :
  edges w' = edges w → nodes w' = nodes w →
  identifiers (graph w') = identifiers (graph w) →
  bucket_of w' op = bucket_of w op.
Proof. intros He Hn Hi. unfold bucket_of, edge_at. by rewrite He, Hn, Hi. Qed.

Lemma push_existing op b w :
  bucket_of w op = Some b →
  _willSyncRemote (graph w) = true ∨ is_Some (store (graph w)) →
  push op w = Return tt (flush_requested (set_graph (enqueue b op (graph w)) w)).
Proof.
  intros Hb Hstore.
  assert (Htail : ∀ g, _willSyncRemote g = _willSyncRemote (graph w) →
            store g = store (graph w) →
            (let* g' := this in
             if negb (_willSyncRemote g')
             then modify_this (set_willSyncRemote true) >>
                  schedule "coalesce" FlushRemoteQueue
             else ret tt) (set_graph g w)
            = Return tt (flush_requested (set_graph g w))).
  { intros g Hflag Hst. unfold flush_requested. unfold_M. simpl. rewrite Hflag.
    destruct (_willSyncRemote (graph w)) eqn:Hf; simpl; [done|].
    rewrite Hst. destruct Hstore as [?|[s ->]]; done. }
  unfold push.
  destruct op; unfold bucket_of in Hb;
    try (injection Hb as <-; unfold bind at 1; unfold modify_this at 1;
         by apply Htail).
  all: destruct (decide (op_field _ = "")) as [|Hf]; [done|];
    destruct (edge_at w _ _) as [r|] eqn:Hat; simpl in Hb; [|done];
    destruct (edges w !! r) as [e|] eqn:He; simpl in Hb; [|done];
    destruct (isImplicit e) eqn:Himp; [done|];
    unfold bind at 1; unfold bind at 1;
    erewrite get_existing by done;
    unfold bind at 1, read_edge at 1; rewrite He;
    unfold bind at 1, assert at 1; rewrite Himp; simpl;
    destruct (kind (edge_definition e)); try done; injection Hb as <-;
    unfold modify_this at 1; by apply Htail.
Qed.

Lemma pushes_existing ops : ∀ w,
  (∀ op, op ∈ ops → is_Some (bucket_of w op)) →
  is_Some (store (graph w)) →
  ∃ w', for_each ops push w = Return tt w' ∧
    edges w' = edges w ∧ nodes w' = nodes w ∧
    identifiers (graph w') = identifiers (graph w) ∧
    store (graph w') = store (graph w) ∧
    (ops ≠ [] → _willSyncRemote (graph w') = true) ∧
    pushed_deletions (_pushedUpdates (graph w'))
    = pushed_deletions (_pushedUpdates (graph w)) ++ queued_in w Deletions ops ∧
    pushed_hasMany (_pushedUpdates (graph w'))
    = pushed_hasMany (_pushedUpdates (graph w)) ++ queued_in w HasManyUpdates ops ∧
    pushed_belongsTo (_pushedUpdates (graph w'))
    = pushed_belongsTo (_pushedUpdates (graph w)) ++ queued_in w BelongsToUpdates ops.
Proof.
  induction ops as [|op ops IH]; intros w Hops Hstore.
  - exists w. simpl. unfold queued_in. rewrite !filter_nil, !app_nil_r. done.
  - destruct (Hops op) as [b Hb]; [by left|].
    simpl. unfold bind at 1. rewrite (push_existing op b w Hb) by by right.
    set (w1 := flush_requested (set_graph (enqueue b op (graph w)) w)).
    assert (He : edges w1 = edges w).
    { unfold w1, flush_requested. by destruct (_willSyncRemote _). }
    assert (Hn : nodes w1 = nodes w).
    { unfold w1, flush_requested. by destruct (_willSyncRemote _). }
    assert (Hi : identifiers (graph w1) = identifiers (graph w)).
    { unfold w1, flush_requested. by destruct (_willSyncRemote _), b. }
    assert (Hs : store (graph w1) = store (graph w)).
    { unfold w1, flush_requested. by destruct (_willSyncRemote _), b. }
    assert (Hflag : _willSyncRemote (graph w1) = true).
    { unfold w1, flush_requested.
      by destruct (_willSyncRemote (graph (set_graph _ w))) eqn:Hf. }
    assert (Hbo : ∀ o, bucket_of w1 o = bucket_of w o)
      by (intros; by apply bucket_of_ext).
    destruct (IH w1) as (w' & Hrun & He' & Hn' & Hi' & Hs' & Hflag' & Hd & Hh & Hbt).
    { intros o Ho. rewrite Hbo. apply Hops. by right. }
    { by rewrite Hs. }
    exists w'. split; [done|]. rewrite He', Hn', Hi', Hs'.
    repeat (split; [done|]).
    split.
    { intros _. destruct ops as [|o ops']; [|by apply Hflag'].
      simpl in Hrun. by injection Hrun as <-. }
    assert (Hq : ∀ b', queued_in w1 b' ops = queued_in w b' ops).
    { intros b'. unfold queued_in. apply list_filter_iff. intros o. by rewrite Hbo. }
    rewrite Hd, Hh, Hbt, !Hq. unfold queued_in. rewrite !filter_cons, Hb.
    unfold w1, flush_requested.
    destruct (_willSyncRemote (graph (set_graph _ w))), b; simpl;
      repeat case_decide; try done; by rewrite <- ?app_assoc.
Qed.

Lemma flush_equation w :
  _willSyncRemote (graph w) = true →
  _flushRemoteQueue w
  = (for_each (pushed_deletions (_pushedUpdates (graph w))) (λ op, update op true) >>
     for_each (pushed_hasMany (_pushedUpdates (graph w))) (λ op, update op true) >>
     for_each (pushed_belongsTo (_pushedUpdates (graph w))) (λ op, update op true) >>
     _finalize) (flush_started w).
Proof.
  intros Hflag. unfold _flushRemoteQueue. unfold bind at 1, this at 1.
  rewrite Hflag. simpl. done.
Qed.

Lemma flushRemoteQueue_idle w :
  _willSyncRemote (graph w) = false → _flushRemoteQueue w = Return tt w.
Proof.
  intros Hflag. unfold _flushRemoteQueue. unfold bind at 1, this at 1.
  by rewrite Hflag.
Qed.

Lemma local_flush_equation w :
  _willSyncLocal (graph w) = true →
  _flushLocalQueue w
  = for_each (_updatedRelationships (graph w)) syncRemoteToLocal
      (local_flush_started w).
Proof.
  intros Hflag. unfold _flushLocalQueue. unfold bind at 1, this at 1.
  rewrite Hflag. simpl. done.
Qed.

Lemma flushLocalQueue_idle w :
  _willSyncLocal (graph w) = false → _flushLocalQueue w = Return tt w.
Proof.
  intros Hflag. unfold _flushLocalQueue. unfold bind at 1, this at 1.
  by rewrite Hflag.
Qed.

Lemma for_each_three {A} (x y z : A) (body : A → M unit) (k : M unit) w :
  (for_each [x] body >> for_each [y] body >> for_each [z] body >> k) w
  = (body x >> body y >> body z >> k) w.
Proof.
  simpl. unfold bind, ret.
  destruct (body x w) as [[] w1|]; [|done].
  destruct (body y w1) as [[] w2|]; [|done].
  by destruct (body z w2) as [[] w3|].
Qed.

Lemma push_Return_bucket op w w' :
  push op w = Return tt w' →
  ∃ b, _pushedUpdates (graph w') = _pushedUpdates (enqueue b op (graph w)) ∧
    match op with
    | DeleteRecord _ => b = Deletions
    | ReplaceRelatedRecord _ _ _ => b = BelongsToUpdates
    | _ =>
        ∃ r e, edge_at w' (op_record op) (op_field op) = Some r ∧
          edges w' !! r = Some e ∧ isImplicit e = false ∧
          match kind (edge_definition e) with
          | belongsTo => b = BelongsToUpdates
          | hasMany => b = HasManyUpdates
          | implicit => False
          end
    end.
Proof.
  unfold push. intros Hpush.
  apply bind_Return in Hpush as ([] & w1 & Hbucket & Htail).
  assert (Hsame : _pushedUpdates (graph w') = _pushedUpdates (graph w1) ∧
                  edges w' = edges w1 ∧
                  ∀ i f, edge_at w' i f = edge_at w1 i f).
  { revert Htail. unfold_M. unfold throw. simpl.
    destruct (_willSyncRemote (graph w1)); simpl; [by intros [= <-]|].
    destruct (store (graph w1)); [|done]. by intros [= <-]. }
  destruct Hsame as (Hp & He & Hat). rewrite Hp.
  assert (Hother :
    (let* relationship := get (op_record op) (op_field op) in
     let* e := read_edge relationship in
     assert "Cannot push a remote update for an implicit relationship"
            (negb (isImplicit e)) >>
     match kind (edge_definition e) with
     | belongsTo => modify_this (push_belongsTo op)
     | hasMany => modify_this (push_hasMany op)
     | implicit => throw (TypeError "no such bucket")
     end) w = Return tt w1 →
    ∃ b, _pushedUpdates (graph w1) = _pushedUpdates (enqueue b op (graph w)) ∧
      ∃ r e, edge_at w' (op_record op) (op_field op) = Some r ∧
        edges w' !! r = Some e ∧ isImplicit e = false ∧
        match kind (edge_definition e) with
        | belongsTo => b = BelongsToUpdates
        | hasMany => b = HasManyUpdates
        | implicit => False
        end).
  { clear Hbucket. intros Hrun.
    apply bind_Return in Hrun as (r & wa & Hget & Hrun).
    pose proof (get_Return_edge_at _ _ _ _ _ Hget) as Hat_a.
    assert (Hpa : _pushedUpdates (graph wa) = _pushedUpdates (graph w)).
    { apply get_Return in Hget as [_ [[_ ->]|(_ & _ & _ & _ & _ & [cache ->] & _)]];
        done. }
    apply bind_Return in Hrun as (e & ? & Hread & Hrun).
    unfold read_edge in Hread. destruct (edges wa !! r) as [e0|] eqn:Hr; [|done].
    injection Hread as -> <-.
    apply bind_Return in Hrun as ([] & ? & Hassert & Hrun).
    unfold assert in Hassert. destruct (isImplicit e) eqn:Himp; [done|].
    injection Hassert as <-.
    destruct (kind (edge_definition e)) eqn:Hk; [| |done];
      injection Hrun as <-;
      [exists BelongsToUpdates|exists HasManyUpdates];
      (split; [simpl; by rewrite Hpa|]);
      exists r, e; rewrite Hat, He; simpl; by rewrite Hk. }
  destruct op; try (by apply Hother).
  - injection Hbucket as <-. by exists Deletions.
  - injection Hbucket as <-. by exists BelongsToUpdates.
Qed.

(** C2: a flush that finds its flag set starts from the state with a new
    transaction and the three buckets emptied, and applies there the queued
    deletions, then the queued hasMany updates, then the queued belongsTo
    updates.  Operations pushed in any order onto empty buckets are applied
    bucket by bucket; one deletion, one hasMany update and one belongsTo
    update, pushed in any of the six orders, are applied in that order.
    Every push that returns has put its operation at the end of one bucket:
    a deletion in the deletions, a [replaceRelatedRecord] in the belongsTo
    updates, another operation by the kind of the edge it addresses. *)
Theorem flush_applies_deletions_then_hasMany_then_belongsTo :
  (∀ w, _willSyncRemote (graph w) = true →
     _pushedUpdates (graph (flush_started w)) = mkPushed [] [] [] ∧
     _flushRemoteQueue w
     = (for_each (pushed_deletions (_pushedUpdates (graph w))) (λ op, update op true) >>
        for_each (pushed_hasMany (_pushedUpdates (graph w))) (λ op, update op true) >>
        for_each (pushed_belongsTo (_pushedUpdates (graph w))) (λ op, update op true) >>
        _finalize) (flush_started w)) ∧
  (∀ w0 ops,
     _pushedUpdates (graph w0) = mkPushed [] [] [] →
     is_Some (store (graph w0)) →
     (∀ op, op ∈ ops → is_Some (bucket_of w0 op)) →
     ops ≠ [] →
     ∃ w, for_each ops push w0 = Return tt w ∧
       _flushRemoteQueue w
       = (for_each (queued_in w0 Deletions ops) (λ op, update op true) >>
          for_each (queued_in w0 HasManyUpdates ops) (λ op, update op true) >>
          for_each (queued_in w0 BelongsToUpdates ops) (λ op, update op true) >>
          _finalize) (flush_started w)) ∧
  (∀ w0 deletion hasManyUpdate belongsToUpdate ops,
     _pushedUpdates (graph w0) = mkPushed [] [] [] →
     is_Some (store (graph w0)) →
     bucket_of w0 deletion = Some Deletions →
     bucket_of w0 hasManyUpdate = Some HasManyUpdates →
     bucket_of w0 belongsToUpdate = Some BelongsToUpdates →
     ops ≡ₚ [deletion; hasManyUpdate; belongsToUpdate] →
     ∃ w, for_each ops push w0 = Return tt w ∧
       _flushRemoteQueue w
       = (update deletion true >>
          update hasManyUpdate true >>
          update belongsToUpdate true >>
          _finalize) (flush_started w)) ∧
  (∀ op w w', push op w = Return tt w' →
     ∃ b, _pushedUpdates (graph w') = _pushedUpdates (enqueue b op (graph w)) ∧
       match op with
       | DeleteRecord _ => b = Deletions
       | ReplaceRelatedRecord _ _ _ => b = BelongsToUpdates
       | _ =>
           ∃ r e, edge_at w' (op_record op) (op_field op) = Some r ∧
             edges w' !! r = Some e ∧ isImplicit e = false ∧
             match kind (edge_definition e) with
             | belongsTo => b = BelongsToUpdates
             | hasMany => b = HasManyUpdates
             | implicit => False
             end
       end).
Proof.
  assert (Hmany : ∀ w0 ops,
     _pushedUpdates (graph w0) = mkPushed [] [] [] →
     is_Some (store (graph w0)) →
     (∀ op, op ∈ ops → is_Some (bucket_of w0 op)) →
     ops ≠ [] →
     ∃ w, for_each ops push w0 = Return tt w ∧
       _flushRemoteQueue w
       = (for_each (queued_in w0 Deletions ops) (λ op, update op true) >>
          for_each (queued_in w0 HasManyUpdates ops) (λ op, update op true) >>
          for_each (queued_in w0 BelongsToUpdates ops) (λ op, update op true) >>
          _finalize) (flush_started w)).
  { intros w0 ops Hempty Hstore Hops Hne.
    destruct (pushes_existing ops w0 Hops Hstore)
      as (w & Hrun & _ & _ & _ & _ & Hflag & Hd & Hh & Hb).
    exists w. split; [done|]. rewrite flush_equation by auto.
    rewrite Hd, Hh, Hb, Hempty. done. }
  split; [|split; [exact Hmany|split; [|exact push_Return_bucket]]].
  - intros w Hflag. split; [done|]. by apply flush_equation.
  - intros w0 d h b ops Hempty Hstore Hd Hh Hb Hperm.
    destruct (Hmany w0 ops Hempty Hstore) as (w & Hrun & Hflush).
    { intros op Hop. rewrite Hperm in Hop.
      repeat (apply elem_of_cons in Hop as [->|Hop]); [eauto..|].
      by apply elem_of_nil in Hop. }
    { intros ->. by apply Permutation_nil_cons in Hperm. }
    exists w. split; [done|]. rewrite Hflush.
    assert (Hq : ∀ bk x, queued_in w0 bk [d; h; b] = [x] → queued_in w0 bk ops = [x]).
    { intros bk x Hx. apply Permutation_singleton_r. rewrite <- Hx.
      unfold queued_in. by rewrite Hperm. }
    rewrite (Hq Deletions d), (Hq HasManyUpdates h), (Hq BelongsToUpdates b).
    + apply (for_each_three d h b (λ op, update op true)).
    + unfold queued_in. rewrite !filter_cons, filter_nil, Hd, Hh, Hb.
      repeat case_decide; done.
    + unfold queued_in. rewrite !filter_cons, filter_nil, Hd, Hh, Hb.
      repeat case_decide; done.
    + unfold queued_in. rewrite !filter_cons, filter_nil, Hd, Hh, Hb.
      repeat case_decide; done.
Qed.

(** ** Invariants that the bookkeeping keeps *)

Section Framed.

Variable P : World → Prop.
Hypothesis P_frame : Frame P.

Lemma preserves_read_node n : preserves P (read_node n).
Proof. intros w Hw. unfold read_node. by destruct (nodes w !! n). Qed.

Lemma preserves_read_edge r : preserves P (read_edge r).
Proof. intros w Hw. unfold read_edge. by destruct (edges w !! r). Qed.

Lemma preserves_new_node d : preserves P (new_node d).
Proof. intros w Hw. unfold new_node. simpl. by apply frame_nodes. Qed.

Lemma preserves_write_slot n k v : preserves P (write_slot n k v).
Proof.
  apply preserves_bind; [apply preserves_read_node|].
  intros d w Hw. simpl. by apply frame_nodes.
Qed.

Lemma preserves_modify_this f :
  (∀ g, _willSyncRemote (f g) = _willSyncRemote g ∧
        _willSyncLocal (f g) = _willSyncLocal g ∧
        _transaction (f g) = _transaction g) →
  preserves P (modify_this f).
Proof.
  intros Hf w Hw. destruct (Hf (graph w)) as (? & ? & ?). simpl.
  by apply frame_graph.
Qed.

Lemma preserves_new_edge e : new_edge_shape e → preserves P (new_edge e).
Proof. intros He w Hw. unfold new_edge. simpl. by apply frame_new_edge. Qed.

Lemma preserves_has identifier propertyName :
  preserves P (has identifier propertyName).
Proof.
  apply preserves_bind; [apply preserves_this|]. intros g.
  destruct (identifiers g !! identifier); [|apply preserves_ret].
  apply preserves_bind; [apply preserves_read_node|]. intros. apply preserves_ret.
Qed.

Lemma preserves_get identifier propertyName :
  preserves P (get identifier propertyName).
Proof.
  apply preserves_bind; [apply preserves_assert|]. intros _.
  apply preserves_bind; [apply preserves_this|]. intros g.
  apply preserves_bind.
  { destruct (identifiers g !! identifier); [apply preserves_ret|].
    apply preserves_bind; [apply preserves_new_node|]. intros n.
    apply preserves_bind; [by apply preserves_modify_this|]. intros.
    apply preserves_ret. }
  intros n. apply preserves_bind; [apply preserves_read_node|]. intros d.
  destruct (dict_get propertyName d); [apply preserves_ret|].
  apply preserves_bind; [apply preserves_this|]. intros g'.
  destruct (upgradeDefinition g' identifier propertyName) as [info cache].
  apply preserves_bind; [by apply preserves_modify_this|]. intros _.
  destruct info as [info|]; [|apply preserves_throw].
  apply preserves_bind.
  { destruct (isLHS _ _ _); [apply preserves_ret|].
    destruct (rhs_definition info); [apply preserves_ret|apply preserves_throw]. }
  intros meta. apply preserves_bind.
  { apply preserves_new_edge. destruct (kind meta); constructor. }
  intros r. apply preserves_bind; [apply preserves_write_slot|]. intros.
  apply preserves_ret.
Qed.

Lemma preserves_getData identifier propertyName :
  preserves P (getData identifier propertyName).
Proof.
  apply preserves_bind; [apply preserves_get|]. intros r.
  apply preserves_bind; [apply preserves_read_edge|]. intros e.
  apply preserves_bind; [apply preserves_assert|]. intros _.
  destruct e; [apply preserves_throw|apply preserves_ret..].
Qed.

Lemma preserves_isReleasable identifier : preserves P (isReleasable identifier).
Proof.
  apply preserves_bind; [apply preserves_this|]. intros g.
  destruct (identifiers g !! identifier) as [n|]; [|apply preserves_ret].
  apply preserves_bind; [apply preserves_read_node|]. intros d.
  induction (dict_keys d) as [|k ks IH]; simpl; [apply preserves_ret|].
  apply preserves_bind; [apply preserves_read_node|]. intros d'.
  destruct (dict_get k d'); [|apply preserves_throw].
  apply preserves_bind; [apply preserves_read_edge|]. intros e.
  destruct (inverseIsAsync _); [apply preserves_ret|apply IH].
Qed.

Lemma preserves_destroy : preserves P destroy.
Proof.
  assert (Hdel : ∀ k, preserves P (Graphs_delete k)).
  { intros [s|]; [|apply preserves_ret]. intros w Hw. simpl. by apply frame_Graphs. }
  apply preserves_bind; [apply preserves_this|]. intros g.
  apply preserves_bind; [apply Hdel|]. intros _.
  apply preserves_bind.
  { unfold DEBUG. apply preserves_bind; [apply preserves_this|]. intros g'.
    destruct (store g'); [apply Hdel|apply preserves_throw]. }
  intros _. apply preserves_bind; [by apply preserves_modify_this|]. intros _.
  apply preserves_bind; [by apply preserves_modify_this|]. intros _.
  by apply preserves_modify_this.
Qed.

(** The first half of [push]: the operation goes to its bucket. *)
Lemma preserves_push_bucket op :
  preserves P
    match op with
    | DeleteRecord _ => modify_this (push_deletion op)
    | ReplaceRelatedRecord _ _ _ => modify_this (push_belongsTo op)
    | _ =>
        let* relationship := get (op_record op) (op_field op) in
        let* e := read_edge relationship in
        assert "Cannot push a remote update for an implicit relationship"
               (negb (isImplicit e)) >>
        match kind (edge_definition e) with
        | belongsTo => modify_this (push_belongsTo op)
        | hasMany => modify_this (push_hasMany op)
        | implicit => throw (TypeError "no such bucket")
        end
    end.
Proof.
  assert (Hget : preserves P
            (let* relationship := get (op_record op) (op_field op) in
             let* e := read_edge relationship in
             assert "Cannot push a remote update for an implicit relationship"
                    (negb (isImplicit e)) >>
             match kind (edge_definition e) with
             | belongsTo => modify_this (push_belongsTo op)
             | hasMany => modify_this (push_hasMany op)
             | implicit => throw (TypeError "no such bucket")
             end)).
  { apply preserves_bind; [by apply preserves_get|]. intros r.
    apply preserves_bind; [apply preserves_read_edge|]. intros e.
    apply preserves_bind; [apply preserves_assert|]. intros _.
    destruct (kind _); first [by apply preserves_modify_this | apply preserves_throw]. }
  destruct op; first [by apply preserves_modify_this | apply Hget].
Qed.

Hypothesis P_collaborators : Collaborators_preserve P.

Lemma preserves_unload identifier silenceNotifications :
  preserves P (unload identifier silenceNotifications).
Proof.
  apply preserves_bind; [apply preserves_this|]. intros g.
  destruct (identifiers g !! identifier) as [n|]; [|apply preserves_ret].
  apply preserves_bind; [apply preserves_read_node|]. intros d.
  apply preserves_for_each. intros k _.
  apply preserves_bind; [apply preserves_read_node|]. intros d'.
  destruct (dict_get k d') as [rel|]; [|apply preserves_ret].
  apply preserves_bind; [by apply preserve_destroyRelationship|]. intros _.
  apply preserves_bind; [apply preserves_read_edge|]. intros e.
  destruct (isImplicit e); [apply preserves_write_slot|apply preserves_ret].
Qed.

Lemma preserves_remove identifier : preserves P (remove identifier).
Proof.
  apply preserves_bind; [apply preserves_this|]. intros g.
  apply preserves_bind; [apply preserves_assert|]. intros _.
  apply preserves_bind; [by apply preserves_modify_this|]. intros _.
  apply preserves_bind; [apply preserves_unload|]. intros _.
  apply preserves_bind; [by apply preserves_modify_this|]. intros _.
  by apply preserves_modify_this.
Qed.

Hypothesis P_removeRelatedRecord : ∀ relationship record value isRemote,
  preserves P (removeRelatedRecord relationship record value isRemote).

Lemma preserves_removeFromRelatedRecords record field value isRemote :
  preserves P (removeFromRelatedRecords record field value isRemote).
Proof.
  apply preserves_bind; [apply preserves_get|]. intros r.
  apply preserves_bind; [apply preserves_read_edge|]. intros e.
  apply preserves_bind; [apply preserves_assert|]. intros _.
  apply preserves_bind.
  { destruct value; [apply P_removeRelatedRecord|].
    apply preserves_for_each. intros. apply P_removeRelatedRecord. }
  intros _. apply preserves_bind; [apply preserves_read_edge|]. intros e'.
  by apply preserve_notifyChange.
Qed.

Lemma preserves_update op isRemote : preserves P (update op isRemote).
Proof.
  assert (Hguard : preserves P
            (let* relationship := get (op_record op) (op_field op) in
             let* e := read_edge relationship in
             assert "Cannot update an implicit relationship" (negb (isImplicit e)))).
  { apply preserves_bind; [apply preserves_get|]. intros r.
    apply preserves_bind; [apply preserves_read_edge|]. intros e.
    apply preserves_assert. }
  unfold update. apply preserves_bind.
  { destruct op; first [apply preserves_ret | apply Hguard]. }
  intros _. destruct op.
  - apply preserves_bind; [apply preserves_this|]. intros g.
    destruct (identifiers g !! record); [|apply preserves_ret].
    by apply preserve_mergeIdentifier.
  - apply preserves_bind; [apply preserves_assert|]. intros _.
    apply preserves_bind; [by apply preserve_assertValidRelationshipPayload|].
    intros _. by apply preserve_updateRelationshipOperation.
  - apply preserves_bind; [apply preserves_assert|]. intros _.
    apply preserves_bind; [apply preserves_this|]. intros g.
    destruct (identifiers g !! record) as [n|]; [|apply preserves_ret].
    apply preserves_bind; [apply preserves_read_node|]. intros d.
    apply preserves_bind; [|intros _; by apply preserves_modify_this].
    apply preserves_for_each. intros k _.
    apply preserves_bind; [apply preserves_read_node|]. intros d'.
    destruct (dict_get k d') as [rel|]; [|apply preserves_ret].
    apply preserves_bind; [apply preserves_write_slot|]. intros _.
    by apply preserve_removeCompletelyFromInverse.
  - by apply preserve_replaceRelatedRecord.
  - by apply preserve_addToRelatedRecords.
  - apply preserves_removeFromRelatedRecords.
  - by apply preserve_replaceRelatedRecords.
  - apply preserves_throw.
Qed.

End Framed.

(** ** One pending flush per queue *)

Lemma pending_app callback q1 q2 w :
  pending callback (set_scheduled (q1 ++ q2) w)
  = pending callback (set_scheduled q1 w) + pending callback (set_scheduled q2 w).
Proof. unfold pending. simpl. by rewrite filter_app, length_app. Qed.

Lemma pending_one callback queue callback' w :
  pending callback (set_scheduled [(queue, callback')] w)
  = if decide (callback' = callback) then 1 else 0.
Proof.
  unfold pending. simpl. rewrite filter_cons, filter_nil. simpl.
  by destruct (decide (callback' = callback)).
Qed.

Lemma pending_ext callback w' w :
  scheduled w' = scheduled w → pending callback w' = pending callback w.
Proof. unfold pending. by intros ->. Qed.

Lemma pending_scheduled callback w : pending callback (set_scheduled (scheduled w) w) = pending callback w.
Proof. done. Qed.

Lemma one_flush_pending_frame : Frame one_flush_pending.
Proof.
  split.
  - by intros w n Hw.
  - by intros w r Hw.
  - intros w g Hw Hr Hl _. unfold one_flush_pending, pending in *. simpl.
    by rewrite Hr, Hl.
  - by intros w e Hw _.
Qed.

Lemma one_flush_pending_edges w e :
  one_flush_pending w → one_flush_pending (set_edges e w).
Proof. done. Qed.

Lemma one_flush_pending_transaction w t :
  one_flush_pending w →
  one_flush_pending (set_graph (set_transaction t (graph w)) w).
Proof. done. Qed.

Section OnePending.

Hypothesis collaborators_keep : Collaborators_preserve one_flush_pending.

Lemma removeRelatedRecord_one_flush_pending relationship record value isRemote :
  preserves one_flush_pending (removeRelatedRecord relationship record value isRemote).
Proof.
  assert (Hwrite : ∀ r e, preserves one_flush_pending (write_edge r e)).
  { intros r e w Hw. by apply one_flush_pending_edges. }
  apply preserves_bind; [apply preserves_read_edge|]. intros e.
  destruct e as [|c|]; [apply preserves_throw| |apply preserves_throw].
  destruct (negb _); [apply preserves_ret|].
  apply preserves_bind; [apply Hwrite|]. intros _.
  destruct (indexOf _ _); [|apply preserves_throw].
  apply preserves_bind; [apply Hwrite|]. intros _.
  by apply preserve_removeFromInverse.
Qed.

Lemma update_one_flush_pending op isRemote :
  preserves one_flush_pending (update op isRemote).
Proof.
  apply preserves_update; auto using one_flush_pending_frame,
    removeRelatedRecord_one_flush_pending.
Qed.

Lemma finalize_one_flush_pending : preserves one_flush_pending _finalize.
Proof.
  apply preserves_bind; [apply preserves_this|]. intros g.
  destruct (_transaction g) as [t|]; [|apply preserves_ret].
  apply preserves_bind.
  - apply preserves_for_each. intros r _.
    apply preserves_bind; [apply preserves_read_edge|]. intros e.
    destruct e; [apply preserves_throw|..]; intros w Hw; by apply one_flush_pending_edges.
  - intros _ w Hw. by apply one_flush_pending_transaction.
Qed.

Lemma push_one_flush_pending op : preserves one_flush_pending (push op).
Proof.
  assert (Hframe := one_flush_pending_frame).
  apply preserves_bind; [by apply preserves_push_bucket|].
  intros _ w Hw. unfold_M. unfold throw. simpl.
  destruct (_willSyncRemote (graph w)) eqn:Hflag; simpl; [done|].
  destruct Hw as (Hr1 & Hr0 & Hl1 & Hl0).
  destruct (store (graph w)); simpl.
  - unfold one_flush_pending. rewrite !pending_app, !pending_one. simpl.
    rewrite ?(pending_ext FlushRemoteQueue _ w), ?(pending_ext FlushLocalQueue _ w)
      by done.
    specialize (Hr0 Hflag). split; [lia|]. split; [done|]. split; [lia|].
    intros Hf. specialize (Hl0 Hf). lia.
  - unfold one_flush_pending. simpl.
    rewrite ?(pending_ext FlushRemoteQueue _ w), ?(pending_ext FlushLocalQueue _ w)
      by done.
    specialize (Hr0 Hflag). split; [lia|]. split; [done|]. split; [lia|]. done.
Qed.

Lemma scheduleLocalSync_one_flush_pending relationship :
  preserves one_flush_pending (_scheduleLocalSync relationship).
Proof.
  apply preserves_bind.
  { by apply preserves_modify_this; [apply one_flush_pending_frame|]. }
  intros _ w Hw. unfold_M. unfold throw. simpl.
  destruct (_willSyncLocal (graph w)) eqn:Hflag; simpl; [done|].
  destruct Hw as (Hr1 & Hr0 & Hl1 & Hl0).
  destruct (store (graph w)); simpl.
  - unfold one_flush_pending. rewrite !pending_app, !pending_one. simpl.
    rewrite ?(pending_ext FlushRemoteQueue _ w), ?(pending_ext FlushLocalQueue _ w)
      by done.
    specialize (Hl0 Hflag). split; [lia|]. split; [|split; [lia|done]].
    intros Hf. specialize (Hr0 Hf). lia.
  - unfold one_flush_pending. simpl.
    rewrite ?(pending_ext FlushRemoteQueue _ w), ?(pending_ext FlushLocalQueue _ w)
      by done.
    specialize (Hl0 Hflag). split; [lia|]. split; [done|]. split; [lia|]. done.
Qed.

Lemma flushRemoteQueue_one_flush_pending w :
  one_flush_pending w → pending FlushRemoteQueue w = 0 →
  one_flush_pending (final (_flushRemoteQueue w)).
Proof.
  intros Hw Hzero. destruct (_willSyncRemote (graph w)) eqn:Hflag.
  - rewrite flush_equation by done.
    assert (Hw1 : one_flush_pending (flush_started w)).
    { destruct Hw as (Hr1 & Hr0 & Hl1 & Hl0). by repeat split. }
    revert Hw1. generalize (flush_started w).
    change (preserves one_flush_pending
      (for_each (pushed_deletions (_pushedUpdates (graph w))) (λ op, update op true) >>
       for_each (pushed_hasMany (_pushedUpdates (graph w))) (λ op, update op true) >>
       for_each (pushed_belongsTo (_pushedUpdates (graph w))) (λ op, update op true) >>
       _finalize)).
    repeat (apply preserves_bind;
            [apply preserves_for_each; intros; apply update_one_flush_pending
            |intros _]).
    apply finalize_one_flush_pending.
  - by rewrite flushRemoteQueue_idle.
Qed.

Lemma flushLocalQueue_one_flush_pending w :
  one_flush_pending w → pending FlushLocalQueue w = 0 →
  one_flush_pending (final (_flushLocalQueue w)).
Proof.
  intros Hw Hzero. destruct (_willSyncLocal (graph w)) eqn:Hflag.
  - rewrite local_flush_equation by done.
    assert (Hw1 : one_flush_pending (local_flush_started w)).
    { destruct Hw as (Hr1 & Hr0 & Hl1 & Hl0). by repeat split. }
    revert Hw1. generalize (local_flush_started w).
    change (preserves one_flush_pending
      (for_each (_updatedRelationships (graph w)) syncRemoteToLocal)).
    apply preserves_for_each. intros. by apply preserve_syncRemoteToLocal.
  - by rewrite flushLocalQueue_idle.
Qed.

Lemma step_one_flush_pending w w' :
  step w w' → one_flush_pending w → one_flush_pending w'.
Proof.
  assert (Hframe := one_flush_pending_frame).
  intros Hstep Hw. destruct Hstep as [c w|queue callback before after w Hq].
  - revert w Hw. change (preserves one_flush_pending (run_call c)).
    destruct c; simpl.
    + apply preserves_bind; [by apply preserves_has|]. intros. apply preserves_ret.
    + apply preserves_bind; [by apply preserves_get|]. intros. apply preserves_ret.
    + apply preserves_bind; [by apply preserves_getData|]. intros. apply preserves_ret.
    + by apply preserves_modify_this.
    + apply preserves_bind; [by apply preserves_isReleasable|]. intros.
      apply preserves_ret.
    + by apply preserves_unload.
    + by apply preserves_remove.
    + apply push_one_flush_pending.
    + apply update_one_flush_pending.
    + apply scheduleLocalSync_one_flush_pending.
    + by apply preserves_destroy.
  - assert (Hsplit : ∀ cb, pending cb w
              = pending cb (set_scheduled (before ++ after) w)
                + if decide (callback = cb) then 1 else 0).
    { intros cb. rewrite <- (pending_scheduled cb w), Hq.
      change ((queue, callback) :: after) with ([(queue, callback)] ++ after).
      rewrite !pending_app, pending_one. lia. }
    destruct Hw as (Hr1 & Hr0 & Hl1 & Hl0).
    pose proof (Hsplit FlushRemoteQueue) as HsR.
    pose proof (Hsplit FlushLocalQueue) as HsL.
    assert (Hw1 : one_flush_pending (set_scheduled (before ++ after) w)).
    { unfold one_flush_pending. simpl. repeat split; try lia.
      - intros Hf. specialize (Hr0 Hf). lia.
      - intros Hf. specialize (Hl0 Hf). lia. }
    destruct callback; simpl.
    + apply flushRemoteQueue_one_flush_pending; [done|].
      rewrite decide_True in HsR by done. lia.
    + apply flushLocalQueue_one_flush_pending; [done|].
      rewrite decide_True in HsL by done. lia.
Qed.

End OnePending.

Lemma flags_and_queue_frame (r l : bool) (q : list (string * Callback)) :
  Frame (λ w, _willSyncRemote (graph w) = r ∧ _willSyncLocal (graph w) = l ∧
              scheduled w = q).
Proof.
  split.
  - by intros w n Hw.
  - by intros w g Hw.
  - intros w g (? & ? & ?) Hr Hl _. simpl. by rewrite Hr, Hl.
  - by intros w e Hw _.
Qed.

Lemma push_Return op w w' :
  push op w = Return tt w' →
  _willSyncRemote (graph w') = true ∧
  scheduled w'
  = if _willSyncRemote (graph w) then scheduled w
    else scheduled w ++ [("coalesce", FlushRemoteQueue)].
Proof.
  unfold push. intros Hpush.
  apply bind_Return in Hpush as ([] & w1 & Hbucket & Htail).
  pose proof (preserves_push_bucket _
    (flags_and_queue_frame (_willSyncRemote (graph w)) (_willSyncLocal (graph w))
       (scheduled w)) op w (conj eq_refl (conj eq_refl eq_refl))) as Hkeep.
  rewrite Hbucket in Hkeep. simpl in Hkeep. destruct Hkeep as (Hr & _ & Hq).
  rewrite <- Hr, <- Hq. revert Htail. unfold_M. unfold throw. simpl.
  destruct (_willSyncRemote (graph w1)) eqn:Hflag; simpl.
  - by intros [= <-].
  - destruct (store (graph w1)); [|done]. by intros [= <-].
Qed.

Lemma scheduleLocalSync_Return relationship w w' :
  _scheduleLocalSync relationship w = Return tt w' →
  relationship ∈ _updatedRelationships (graph w') ∧
  _willSyncLocal (graph w') = true ∧
  scheduled w'
  = if _willSyncLocal (graph w) then scheduled w
    else scheduled w ++ [("sync", FlushLocalQueue)].
Proof.
  unfold _scheduleLocalSync. unfold_M. unfold throw. simpl.
  assert (Hin : relationship ∈ set_add relationship (_updatedRelationships (graph w))).
  { unfold set_add. case_decide; [done|]. set_solver. }
  destruct (_willSyncLocal (graph w)) eqn:Hflag; simpl.
  - by intros [= <-].
  - destruct (store (graph w)); [|done]. by intros [= <-].
Qed.

(** C8: with collaborators that leave the scheduling to the graph, at most
    one remote flush and at most one local flush are queued in every state
    the graph can reach, and a queue with a callback in it has its flag set.
    [push] and [_scheduleLocalSync] queue a callback only when the flag is
    down and leave the flag set; a flush whose flag is down does nothing,
    and a flush whose flag is set clears it before it applies anything. *)
Theorem at_most_one_pending_flush_per_queue :
  Collaborators_preserve one_flush_pending →
  (∀ store registry w,
     rtc step (initial_world store registry) w → one_flush_pending w) ∧
  (∀ op w w', push op w = Return tt w' →
     _willSyncRemote (graph w') = true ∧
     scheduled w'
     = if _willSyncRemote (graph w) then scheduled w
       else scheduled w ++ [("coalesce", FlushRemoteQueue)]) ∧
  (∀ relationship w w', _scheduleLocalSync relationship w = Return tt w' →
     _willSyncLocal (graph w') = true ∧
     scheduled w'
     = if _willSyncLocal (graph w) then scheduled w
       else scheduled w ++ [("sync", FlushLocalQueue)]) ∧
  (∀ w, _willSyncRemote (graph w) = false → _flushRemoteQueue w = Return tt w) ∧
  (∀ w, _willSyncLocal (graph w) = false → _flushLocalQueue w = Return tt w) ∧
  (∀ w, _willSyncRemote (graph w) = true →
     _willSyncRemote (graph (flush_started w)) = false ∧
     _flushRemoteQueue w
     = (for_each (pushed_deletions (_pushedUpdates (graph w))) (λ op, update op true) >>
        for_each (pushed_hasMany (_pushedUpdates (graph w))) (λ op, update op true) >>
        for_each (pushed_belongsTo (_pushedUpdates (graph w))) (λ op, update op true) >>
        _finalize) (flush_started w)) ∧
  (∀ w, _willSyncLocal (graph w) = true →
     _willSyncLocal (graph (local_flush_started w)) = false ∧
     _flushLocalQueue w
     = for_each (_updatedRelationships (graph w)) syncRemoteToLocal
         (local_flush_started w)).
Proof.
  intros Hkeep. split; [|split; [|split; [|split; [|split; [|split]]]]].
  - intros s registry w Hreach.
    assert (Hinit : one_flush_pending (initial_world s registry)).
    { unfold one_flush_pending, pending. simpl. auto. }
    induction Hreach as [|w0 w1 w2 Hstep _ IH]; [done|].
    apply IH. by eapply step_one_flush_pending.
  - apply push_Return.
  - intros r w w' Hrun. by apply scheduleLocalSync_Return in Hrun as (_ & ? & ?).
  - apply flushRemoteQueue_idle.
  - apply flushLocalQueue_idle.
  - intros w Hflag. split; [done|]. by apply flush_equation.
  - intros w Hflag. split; [done|]. by apply local_flush_equation.
Qed.

(** ** The transaction of a remote flush *)

Lemma transaction_inv_frame : Frame transaction_inv.
Proof.
  split.
  - by intros w n Hw.
  - by intros w r Hw.
  - intros w g [H1 H2] _ _ Ht. split; simpl; rewrite Ht; [exact H1|exact H2].
  - intros w e [H1 H2] He. split; simpl.
    + intros r e' Hr Hnz. destruct (decide (r = fresh (dom (edges w)))) as [->|Hne].
      * rewrite lookup_insert_eq in Hr. injection Hr as <-. by destruct He.
      * rewrite lookup_insert_ne in Hr by done. eauto.
    + intros t r Ht Hr. destruct (H2 t r Ht Hr) as (e' & He' & Himp).
      exists e'. split; [|done]. rewrite lookup_insert_ne; [done|].
      intros <-. apply (is_fresh (dom (edges w))). by apply elem_of_dom.
Qed.

(** Rewriting an edge in place, with the same [transactionRef]. *)
Lemma transaction_inv_write_edge w r e e' :
  transaction_inv w → edges w !! r = Some e →
  edge_transactionRef e' = edge_transactionRef e → isImplicit e' = isImplicit e →
  transaction_inv (set_edges (<[r := e']> (edges w)) w).
Proof.
  intros [H1 H2] Hr Href Himp. split; simpl.
  - intros r0 e0 Hr0 Hnz. destruct (decide (r0 = r)) as [->|Hne].
    + rewrite lookup_insert_eq in Hr0. injection Hr0 as <-.
      apply (H1 r e Hr). by rewrite <- Href.
    + rewrite lookup_insert_ne in Hr0 by done. eauto.
  - intros t r0 Ht Hr0. destruct (H2 t r0 Ht Hr0) as (e0 & He0 & Himp0).
    destruct (decide (r0 = r)) as [->|Hne].
    + exists e'. rewrite lookup_insert_eq. split; [done|].
      rewrite Himp. congruence.
    + exists e0. by rewrite lookup_insert_ne.
Qed.

Lemma transaction_inv_closed w :
  transaction_inv w → _transaction (graph w) = None → all_transactionRef_zero w.
Proof.
  intros [H1 _] Hnone r e Hr.
  destruct (decide (edge_transactionRef e = 0)) as [|Hnz]; [done|].
  destruct (H1 r e Hr Hnz) as (t & Ht & _). congruence.
Qed.

Lemma elem_of_set_add {A} `{EqDecision A} (x y : A) s :
  y ∈ set_add x s ↔ y = x ∨ y ∈ s.
Proof.
  unfold set_add. case_decide.
  - split; [by right|]. by intros [->|?].
  - rewrite elem_of_app, list_elem_of_singleton. tauto.
Qed.

Lemma addToTransaction_Return relationship w w' :
  _addToTransaction relationship w = Return tt w' →
  ∃ e e' t t',
    edges w !! relationship = Some e ∧ isImplicit e = false ∧
    _transaction (graph w) = Some t ∧
    edges w' = <[relationship := e']> (edges w) ∧
    isImplicit e' = false ∧
    edge_transactionRef e' = S (edge_transactionRef e) ∧
    _transaction (graph w') = Some t' ∧
    (∀ r, r ∈ t' ↔ r = relationship ∨ r ∈ t).
Proof.
  unfold _addToTransaction. unfold_M. unfold throw.
  destruct (_transaction (graph w)) as [t|] eqn:Ht; [|done].
  destruct (edges w !! relationship) as [[i|c|r]|] eqn:He; simpl; try done.
  - rewrite Ht. simpl. intros [= <-].
    eexists _, _, _, _. simpl. repeat (split; [reflexivity|]).
    intros r. apply elem_of_set_add.
  - rewrite Ht. simpl. intros [= <-].
    eexists _, _, _, _. simpl. repeat (split; [reflexivity|]).
    intros r0. apply elem_of_set_add.
Qed.

Lemma addToTransaction_transaction_inv relationship :
  preserves transaction_inv (_addToTransaction relationship).
Proof.
  intros w Hw.
  destruct (_addToTransaction relationship w) as [[] w'|err w'] eqn:Hrun; simpl.
  - apply addToTransaction_Return in Hrun
      as (e & e' & t & t' & He & Himp & Ht & He' & Himp' & Href & Ht' & Hin).
    destruct Hw as [H1 H2]. split.
    + intros r e0 Hr Hnz. exists t'. split; [done|]. rewrite Hin.
      rewrite He' in Hr. destruct (decide (r = relationship)) as [->|Hne]; [by left|].
      rewrite lookup_insert_ne in Hr by done. right.
      destruct (H1 r e0 Hr Hnz) as (t0 & Ht0 & ?). congruence.
    + intros t0 r Ht0 Hr. rewrite Ht' in Ht0. injection Ht0 as <-.
      rewrite He'. apply Hin in Hr as [->|Hr].
      * exists e'. by rewrite lookup_insert_eq.
      * destruct (H2 t r Ht Hr) as (e0 & He0 & Himp0).
        destruct (decide (r = relationship)) as [->|Hne].
        -- exists e'. by rewrite lookup_insert_eq.
        -- exists e0. by rewrite lookup_insert_ne.
  - revert Hrun. unfold _addToTransaction. unfold_M. unfold throw.
    destruct (_transaction (graph w)) as [t|] eqn:Ht; [|by intros [= _ <-]].
    destruct (edges w !! relationship) as [[i|c|r]|] eqn:He; simpl;
      try (by intros [= _ <-]); by rewrite Ht.
Qed.

Lemma reset_all t : ∀ w,
  (∀ r, r ∈ t → ∃ e, edges w !! r = Some e ∧ isImplicit e = false) →
  ∃ w', for_each t reset_transactionRef w = Return tt w' ∧
    graph w' = graph w ∧
    ∀ r e', edges w' !! r = Some e' →
      edge_transactionRef e' = 0 ∨ ((r ∉ t) ∧ edges w !! r = Some e').
Proof.
  induction t as [|x t IH]; intros w Ht.
  - exists w. split; [done|]. split; [done|]. intros r e' Hr. right.
    split; [apply not_elem_of_nil|done].
  - destruct (Ht x) as (e & He & Himp); [by left|].
    assert (Hreset : ∃ e0, edge_transactionRef e0 = 0 ∧ isImplicit e0 = false ∧
              reset_transactionRef x w
              = Return tt (set_edges (<[x := e0]> (edges w)) w)).
    { unfold reset_transactionRef. unfold_M. rewrite He.
      destruct e as [i|c|r]; [done|..]; eexists; by repeat split. }
    destruct Hreset as (e0 & Hzero & Himp0 & Hreset).
    destruct (IH (set_edges (<[x := e0]> (edges w)) w)) as (w' & Hrun & Hg & Hedges).
    { intros r Hr. simpl. destruct (decide (r = x)) as [->|Hne].
      - exists e0. by rewrite lookup_insert_eq.
      - rewrite lookup_insert_ne by done. apply Ht. by right. }
    exists w'. split; [|split; [done|]].
    { simpl. unfold bind. by rewrite Hreset. }
    intros r e' Hr. destruct (Hedges r e' Hr) as [?|[Hnotin Hr1]]; [by left|].
    simpl in Hr1. destruct (decide (r = x)) as [->|Hne].
    + rewrite lookup_insert_eq in Hr1. injection Hr1 as <-. by left.
    + rewrite lookup_insert_ne in Hr1 by done. right. split; [|done].
      rewrite not_elem_of_cons. done.
Qed.

Lemma finalize_closes w :
  transaction_inv w →
  ∃ w', _finalize w = Return tt w' ∧ all_transactionRef_zero w' ∧
        _transaction (graph w') = None.
Proof.
  intros Hw. unfold _finalize. unfold bind at 1, this at 1.
  destruct (_transaction (graph w)) as [t|] eqn:Ht.
  - destruct Hw as [H1 H2].
    destruct (reset_all t w (λ r, H2 t r Ht)) as (w' & Hrun & Hg & Hedges).
    unfold bind. rewrite Hrun. eexists. split; [done|]. split; [|done].
    intros r e' Hr. simpl in Hr.
    destruct (Hedges r e' Hr) as [?|[Hnotin Hr0]]; [done|].
    destruct (decide (edge_transactionRef e' = 0)) as [|Hnz]; [done|].
    destruct (H1 r e' Hr0 Hnz) as (t0 & Ht0 & Hin). congruence.
  - exists w. split; [done|]. split; [|done].
    by apply transaction_inv_closed.
Qed.

Lemma closed_transaction_inv w :
  all_transactionRef_zero w → _transaction (graph w) = None → transaction_inv w.
Proof.
  intros Hzero Hnone. split.
  - intros r e Hr Hnz. by rewrite (Hzero r e Hr) in Hnz.
  - intros t r Ht. congruence.
Qed.

Lemma finalize_transaction_inv : preserves transaction_inv _finalize.
Proof.
  intros w Hw. destruct (finalize_closes w Hw) as (w' & -> & Hzero & Hnone).
  by apply closed_transaction_inv.
Qed.

Section Transaction.

Hypothesis collaborators_keep : Collaborators_preserve transaction_inv.

Lemma removeRelatedRecord_transaction_inv relationship record value isRemote :
  preserves transaction_inv (removeRelatedRecord relationship record value isRemote).
Proof.
  intros w Hw. unfold removeRelatedRecord. unfold bind at 1, read_edge at 1.
  destruct (edges w !! relationship) as [[i|c|r]|] eqn:He; simpl; try done.
  destruct (negb _); [done|].
  unfold bind at 1, write_edge at 1.
  destruct (indexOf value (Collection.localState c)) as [index|]; simpl.
  - unfold bind at 1, write_edge at 1. simpl. rewrite insert_insert_eq.
    apply preserve_removeFromInverse; [done|]. rewrite set_edges_set_edges.
    by eapply transaction_inv_write_edge.
  - by eapply transaction_inv_write_edge.
Qed.

Lemma update_transaction_inv op isRemote :
  preserves transaction_inv (update op isRemote).
Proof.
  apply preserves_update; auto using transaction_inv_frame,
    removeRelatedRecord_transaction_inv.
Qed.

Lemma flush_transaction_inv w :
  transaction_inv w → _transaction (graph w) = None →
  transaction_inv (final (_flushRemoteQueue w)) ∧
  ∀ w', _flushRemoteQueue w = Return tt w' →
        all_transactionRef_zero w' ∧ _transaction (graph w') = None.
Proof.
  intros Hw Hnone. pose proof (transaction_inv_closed w Hw Hnone) as Hzero.
  destruct (_willSyncRemote (graph w)) eqn:Hflag.
  2: { rewrite flushRemoteQueue_idle by done. split; [done|]. by intros w' [= <-]. }
  rewrite flush_equation by done.
  assert (Hw1 : transaction_inv (flush_started w)).
  { split; simpl.
    - intros r e Hr Hnz. by rewrite (Hzero r e Hr) in Hnz.
    - intros t r [= <-] Hr. by apply elem_of_nil in Hr. }
  set (loops :=
    for_each (pushed_deletions (_pushedUpdates (graph w))) (λ op, update op true) >>
    for_each (pushed_hasMany (_pushedUpdates (graph w))) (λ op, update op true) >>
    for_each (pushed_belongsTo (_pushedUpdates (graph w))) (λ op, update op true)).
  assert (Hloops : preserves transaction_inv loops).
  { unfold loops.
    repeat (apply preserves_bind;
            [apply preserves_for_each; intros; apply update_transaction_inv
            |intros _]).
    apply preserves_for_each; intros; apply update_transaction_inv. }
  assert (Heq : ∀ w1,
    (for_each (pushed_deletions (_pushedUpdates (graph w))) (λ op, update op true) >>
     for_each (pushed_hasMany (_pushedUpdates (graph w))) (λ op, update op true) >>
     for_each (pushed_belongsTo (_pushedUpdates (graph w))) (λ op, update op true) >>
     _finalize) w1 = (loops >> _finalize) w1).
  { intros w1. unfold loops, bind.
    destruct (for_each (pushed_deletions _) _ w1) as [[] w2|]; [|done].
    by destruct (for_each (pushed_hasMany _) _ w2) as [[] w3|]. }
  rewrite Heq. specialize (Hloops _ Hw1). unfold bind.
  destruct (loops (flush_started w)) as [[] w2|err w2]; simpl in Hloops.
  - destruct (finalize_closes w2 Hloops) as (w3 & Hfin & Hz & Hn).
    rewrite Hfin. split; [by apply closed_transaction_inv|].
    by intros w' [= <-].
  - split; [done|]. by intros w' [=].
Qed.

End Transaction.

(** ** Membership and order of a collection edge *)

Lemma indexOf_None v l : indexOf v l = None ↔ v ∉ l.
Proof.
  induction l as [|x l IH]; simpl.
  - split; [intros _; apply not_elem_of_nil|done].
  - rewrite not_elem_of_cons. destruct (decide (x = v)) as [->|Hne].
    + split; [done|]. by intros [? _].
    + destruct (indexOf v l); simpl.
      * split; [done|]. intros [_ Hv]. by apply IH in Hv.
      * split; [|done]. intros _. split; [done|]. by apply IH.
Qed.

Lemma indexOf_Some v l index : indexOf v l = Some index → l !! index = Some v.
Proof.
  revert index. induction l as [|x l IH]; intros index; simpl; [done|].
  destruct (decide (x = v)) as [->|Hne].
  - by intros [= <-].
  - destruct (indexOf v l) as [j|]; simpl; [|done]. intros [= <-]. by apply IH.
Qed.

Lemma splice1_spec index v l :
  l !! index = Some v → NoDup l →
  NoDup (splice1 index l) ∧ ∀ x, x ∈ splice1 index l ↔ x ∈ l ∧ x ≠ v.
Proof.
  intros Hv Hnodup. unfold splice1.
  pose proof (take_drop_middle l index v Hv) as Hl.
  remember (take index l) as t eqn:Heqt. remember (drop (S index) l) as d eqn:Heqd.
  clear Heqt Heqd Hv. subst l.
  apply NoDup_app in Hnodup as (Ht & Hdisj & Hd).
  apply NoDup_cons in Hd as [Hv' Hd]. split.
  - apply NoDup_app. split; [done|]. split; [|done].
    intros x Hx Hx'. apply (Hdisj x Hx). by right.
  - intros x. rewrite !elem_of_app, elem_of_cons. split.
    + intros [Hx|Hx].
      * split; [by left|]. intros ->. apply (Hdisj v Hx). by left.
      * split; [by right; right|]. by intros ->.
    + intros [[Hx|[->|Hx]] Hne]; [by left|done|by right].
Qed.

Lemma without_local_in_sync value c :
  in_sync c → in_sync (without_local value c).
Proof.
  intros [[Hnodup Hlocal] Hremote]. unfold without_local.
  case_decide as Hin; [|done].
  destruct (indexOf value (Collection.localState c)) as [index|] eqn:Hindex.
  - apply indexOf_Some in Hindex.
    destruct (splice1_spec index value _ Hindex Hnodup) as [Hnd Hel].
    split; [|done]. split; [done|]. intros x. simpl.
    rewrite Hel, elem_of_difference, elem_of_singleton, Hlocal. done.
  - apply indexOf_None in Hindex. by apply Hlocal in Hin.
Qed.

Lemma without_local_spec value c :
  in_sync c →
  (value ∉ Collection.localMembers (without_local value c)) ∧
  (value ∉ Collection.localState (without_local value c)) ∧
  (∀ x, x ≠ value →
     (x ∈ Collection.localMembers (without_local value c)
      ↔ x ∈ Collection.localMembers c) ∧
     (x ∈ Collection.localState (without_local value c)
      ↔ x ∈ Collection.localState c)) ∧
  Collection.remoteMembers (without_local value c) = Collection.remoteMembers c ∧
  Collection.remoteState (without_local value c) = Collection.remoteState c.
Proof.
  intros Hsync. pose proof (without_local_in_sync value c Hsync) as [[_ Hlocal'] _].
  destruct Hsync as [[Hnodup Hlocal] _].
  assert (Hmembers : ∀ x, x ∈ Collection.localMembers (without_local value c)
                          ↔ x ∈ Collection.localMembers c ∧ x ≠ value).
  { intros x. unfold without_local. case_decide as Hin.
    - destruct (indexOf _ _); simpl;
        by rewrite elem_of_difference, elem_of_singleton.
    - split; [|by intros [? _]]. intros Hx. split; [done|]. by intros ->. }
  split; [|split; [|split; [|split]]].
  - rewrite Hmembers. by intros [_ ?].
  - rewrite <- Hlocal', Hmembers. by intros [_ ?].
  - intros x Hne. rewrite <- Hlocal', <- Hlocal, Hmembers. split; tauto.
  - unfold without_local. case_decide; [|done]. by destruct (indexOf _ _).
  - unfold without_local. case_decide; [|done]. by destruct (indexOf _ _).
Qed.

(** [removeRelatedRecord] on an edge whose sides agree: the local change,
    then the inverse. *)
Lemma removeRelatedRecord_in_sync relationship c record value isRemote w :
  edges w !! relationship = Some (CollectionEdge c) →
  in_sync c →
  removeRelatedRecord relationship record value isRemote w
  = if decide (value ∈ Collection.localMembers c) then
      removeFromInverse value (inverseKey (Collection.definition c)) record isRemote
        (set_edges (<[relationship := CollectionEdge (without_local value c)]> (edges w)) w)
    else Return tt w.
Proof.
  intros He [[Hnodup Hlocal] _]. unfold removeRelatedRecord.
  unfold bind at 1, read_edge at 1. rewrite He. unfold without_local.
  destruct (decide (value ∈ Collection.localMembers c)) as [Hin|Hnotin].
  - rewrite bool_decide_eq_true_2 by done. simpl.
    unfold bind at 1, write_edge at 1.
    destruct (indexOf value (Collection.localState c)) as [index|] eqn:Hindex.
    + unfold bind at 1, write_edge at 1. simpl. by rewrite insert_insert_eq.
    + apply indexOf_None in Hindex. by apply Hlocal in Hin.
  - by rewrite bool_decide_eq_false_2.
Qed.

Lemma createCollectionRelationship_in_sync definition identifier :
  in_sync (createCollectionRelationship definition identifier).
Proof.
  split; (split; [apply NoDup_nil_2|]); intros x; simpl;
    by rewrite elem_of_empty, elem_of_nil.
Qed.

Lemma all_in_sync_frame : Frame all_in_sync.
Proof.
  split.
  - by intros w n Hw.
  - by intros w r Hw.
  - by intros w g Hw _ _ _.
  - intros w e Hw He r c. simpl.
    destruct (decide (r = fresh (dom (edges w)))) as [->|Hne].
    + rewrite lookup_insert_eq. intros [= ->]. inversion He; subst.
      apply createCollectionRelationship_in_sync.
    + rewrite lookup_insert_ne by done. apply Hw.
Qed.

Lemma in_sync_size c :
  in_sync c →
  size (Collection.localMembers c) = length (Collection.localState c) ∧
  size (Collection.remoteMembers c) = length (Collection.remoteState c).
Proof.
  assert (Hside : ∀ (m : gset Identifier) l, side_in_sync m l → size m = length l).
  { intros m l [Hnodup Hel]. rewrite <- (size_list_to_set (C := gset Identifier) l) by done.
    f_equal. apply set_eq. intros x. by rewrite elem_of_list_to_set. }
  intros [? ?]. split; by apply Hside.
Qed.

Section InSync.

Hypothesis collaborators_keep : Collaborators_preserve all_in_sync.

Lemma removeRelatedRecord_all_in_sync relationship record value isRemote :
  preserves all_in_sync (removeRelatedRecord relationship record value isRemote).
Proof.
  intros w Hw.
  destruct (edges w !! relationship) as [[i|c|r]|] eqn:He.
  - unfold removeRelatedRecord. unfold_M. by rewrite He.
  - rewrite (removeRelatedRecord_in_sync _ c) by eauto.
    case_decide; [|done]. apply preserve_removeFromInverse; [done|].
    intros r0 c0. simpl. destruct (decide (r0 = relationship)) as [->|Hne].
    + rewrite lookup_insert_eq. intros [= <-]. apply without_local_in_sync. eauto.
    + rewrite lookup_insert_ne by done. apply Hw.
  - unfold removeRelatedRecord. unfold_M. by rewrite He.
  - unfold removeRelatedRecord. unfold_M. by rewrite He.
Qed.

End InSync.

(** ** Removing twice *)

Lemma only_removes_refl w : only_removes w w.
Proof. split; [done|]. intros r c Hr. by exists c. Qed.

Lemma only_removes_trans w1 w2 w3 :
  only_removes w1 w2 → only_removes w2 w3 → only_removes w1 w3.
Proof.
  intros [Hat12 He12] [Hat23 He23]. split; [by auto|].
  intros r c Hr. destruct (He12 r c Hr) as (c2 & Hr2 & Hsub2).
  destruct (He23 r c2 Hr2) as (c3 & Hr3 & Hsub3).
  exists c3. split; [done|]. by etrans.
Qed.

Lemma removeRelatedRecord_absent relationship c record value isRemote w :
  edges w !! relationship = Some (CollectionEdge c) →
  value ∉ Collection.localMembers c →
  removeRelatedRecord relationship record value isRemote w = Return tt w.
Proof.
  intros He Hnotin. unfold removeRelatedRecord. unfold_M. rewrite He.
  by rewrite bool_decide_eq_false_2.
Qed.

Lemma for_each_removeRelatedRecord_absent relationship c record values isRemote w :
  edges w !! relationship = Some (CollectionEdge c) →
  (∀ v, v ∈ values → v ∉ Collection.localMembers c) →
  for_each values (λ v, removeRelatedRecord relationship record v isRemote) w
  = Return tt w.
Proof.
  intros He. induction values as [|v values IH]; intros Habsent; [done|].
  simpl. unfold bind.
  rewrite (removeRelatedRecord_absent _ c) by (try done; apply Habsent; by left).
  apply IH. intros v' Hv'. apply Habsent. by right.
Qed.

Lemma removeFromRelatedRecords_absent record field value isRemote w relationship c :
  field ≠ "" →
  edge_at w record field = Some relationship →
  edges w !! relationship = Some (CollectionEdge c) →
  (∀ v, v ∈ match value with One v => [v] | Many vs => vs end →
        v ∉ Collection.localMembers c) →
  removeFromRelatedRecords record field value isRemote w
  = notifyChange (Collection.identifier c) (key (Collection.definition c)) w.
Proof.
  intros Hfield Hat He Habsent.
  unfold removeFromRelatedRecords. unfold bind at 1.
  rewrite (get_existing _ _ _ relationship) by done.
  unfold bind at 1, read_edge at 1. rewrite He.
  unfold bind at 1, assert at 1. simpl.
  unfold bind at 1.
  assert (Hnoop : match value with
            | One v => removeRelatedRecord relationship record v isRemote
            | Many vs =>
                for_each vs (λ v, removeRelatedRecord relationship record v isRemote)
            end w = Return tt w).
  { destruct value as [v|vs].
    - apply (removeRelatedRecord_absent _ c); [done|]. apply Habsent.
      by apply list_elem_of_singleton.
    - by apply (for_each_removeRelatedRecord_absent _ c). }
  destruct value; rewrite Hnoop; unfold bind, read_edge; by rewrite He.
Qed.

Section Idempotence.

Hypothesis removeFromInverse_only_removes : ∀ identifier key value isRemote w w',
  removeFromInverse identifier key value isRemote w = Return tt w' →
  only_removes w w'.

Hypothesis notifyChange_same_edges : ∀ identifier key w w',
  notifyChange identifier key w = Return tt w' → same_edges w w'.

Lemma removeRelatedRecord_only_removes relationship record value isRemote w w' :
  removeRelatedRecord relationship record value isRemote w = Return tt w' →
  only_removes w w' ∧
  ∃ c', edges w' !! relationship = Some (CollectionEdge c') ∧
        value ∉ Collection.localMembers c'.
Proof.
  unfold removeRelatedRecord. unfold bind at 1, read_edge at 1.
  destruct (edges w !! relationship) as [[i|c|r]|] eqn:He; simpl; try done.
  destruct (decide (value ∈ Collection.localMembers c)) as [Hin|Hnotin].
  2: { rewrite bool_decide_eq_false_2 by done. simpl. intros [= <-].
       split; [apply only_removes_refl|]. by exists c. }
  rewrite bool_decide_eq_true_2 by done. simpl.
  unfold bind at 1, write_edge at 1.
  destruct (indexOf value (Collection.localState c)) as [index|]; [|done].
  unfold bind at 1, write_edge at 1. simpl. rewrite insert_insert_eq.
  rewrite set_edges_set_edges.
  set (c1 := Collection.with_local _ _ c).
  set (w1 := set_edges _ w). intros Hinverse.
  apply removeFromInverse_only_removes in Hinverse as Hshrink.
  assert (Hfirst : only_removes w w1).
  { split; [done|]. intros r0 c0 Hr0. unfold w1. simpl.
    destruct (decide (r0 = relationship)) as [->|Hne].
    - rewrite lookup_insert_eq. exists c1. split; [done|].
      rewrite He in Hr0. injection Hr0 as <-. simpl.
      intros x. rewrite elem_of_difference. by intros [? _].
    - rewrite lookup_insert_ne by done. exists c0. by split. }
  split; [by eapply only_removes_trans|].
  destruct Hshrink as [_ Hedges].
  destruct (Hedges relationship c1) as (c' & Hc' & Hsub).
  { unfold w1. simpl. by rewrite lookup_insert_eq. }
  exists c'. split; [done|]. intros Hv. apply Hsub in Hv. simpl in Hv.
  apply elem_of_difference in Hv as [_ Hv]. apply Hv. by apply elem_of_singleton.
Qed.

Lemma for_each_removeRelatedRecord_only_removes relationship record values isRemote :
  ∀ w w' c,
  edges w !! relationship = Some (CollectionEdge c) →
  for_each values (λ v, removeRelatedRecord relationship record v isRemote) w
  = Return tt w' →
  only_removes w w' ∧
  ∃ c', edges w' !! relationship = Some (CollectionEdge c') ∧
        ∀ v, v ∈ values → v ∉ Collection.localMembers c'.
Proof.
  induction values as [|v values IH]; intros w w' c He; simpl.
  - intros [= <-]. split; [apply only_removes_refl|]. exists c. split; [done|].
    intros v Hv. by apply elem_of_nil in Hv.
  - intros Hrun. apply bind_Return in Hrun as ([] & w1 & Hfirst & Hrest).
    apply removeRelatedRecord_only_removes in Hfirst as [Hshrink1 (c1 & Hc1 & Hv1)].
    destruct (IH w1 w' c1 Hc1 Hrest) as [Hshrink (c' & Hc' & Hrestv)].
    split; [by eapply only_removes_trans|]. exists c'. split; [done|].
    intros v' [->|Hv']%elem_of_cons; [|by apply Hrestv].
    destruct Hshrink as [_ Hedges].
    destruct (Hedges relationship c1 Hc1) as (c2 & Hc2 & Hsub).
    rewrite Hc' in Hc2. injection Hc2 as <-. intros Hv. by apply Hsub in Hv.
Qed.

Lemma removeFromRelatedRecords_twice record field value isRemote w w1 :
  removeFromRelatedRecords record field value isRemote w = Return tt w1 →
  ∃ relationship c1,
    edge_at w1 record field = Some relationship ∧
    edges w1 !! relationship = Some (CollectionEdge c1) ∧
    (∀ v, v ∈ match value with One v => [v] | Many vs => vs end →
          v ∉ Collection.localMembers c1) ∧
    removeFromRelatedRecords record field value isRemote w1
    = notifyChange (Collection.identifier c1) (key (Collection.definition c1)) w1 ∧
    ∀ w2, removeFromRelatedRecords record field value isRemote w1 = Return tt w2 →
          same_edges w1 w2.
Proof.
  unfold removeFromRelatedRecords at 1. intros Hrun.
  apply bind_Return in Hrun as (r & wa & Hget & Hrun).
  pose proof (get_Return_edge_at _ _ _ _ _ Hget) as Hat.
  pose proof (get_Return _ _ _ _ _ Hget) as [Hfield _].
  apply bind_Return in Hrun as (e & ? & Hread & Hrun).
  unfold read_edge in Hread. destruct (edges wa !! r) as [e0|] eqn:He; [|done].
  injection Hread as -> <-.
  apply bind_Return in Hrun as ([] & ? & Hassert & Hrun).
  unfold assert in Hassert. destruct e as [i|c|res]; simpl in Hassert; try done.
  injection Hassert as <-.
  apply bind_Return in Hrun as ([] & wl & Hloop & Hrun).
  assert (Hloop' : only_removes wa wl ∧
    ∃ c', edges wl !! r = Some (CollectionEdge c') ∧
          ∀ v, v ∈ match value with One v => [v] | Many vs => vs end →
               v ∉ Collection.localMembers c').
  { destruct value as [v|vs].
    - apply removeRelatedRecord_only_removes in Hloop as [? (c' & ? & ?)].
      split; [done|]. exists c'. split; [done|].
      by intros v' ->%list_elem_of_singleton.
    - by eapply for_each_removeRelatedRecord_only_removes. }
  destruct Hloop' as [[Hat_l _] (c1 & Hc1 & Habsent)].
  apply bind_Return in Hrun as (e & ? & Hread & Hnotify).
  unfold read_edge in Hread. rewrite Hc1 in Hread. injection Hread as <- <-.
  apply notifyChange_same_edges in Hnotify as [Hedges Hat_n].
  exists r, c1.
  assert (Hat1 : edge_at w1 record field = Some r) by (rewrite Hat_n; auto).
  assert (He1 : edges w1 !! r = Some (CollectionEdge c1)) by by rewrite Hedges.
  pose proof (removeFromRelatedRecords_absent record field value isRemote w1 r c1
                Hfield Hat1 He1 Habsent) as Hsecond.
  repeat (split; [done|]).
  intros w2 Hrun2. rewrite Hsecond in Hrun2. by apply notifyChange_same_edges in Hrun2.
Qed.

End Idempotence.

(** C5: [removeRelatedRecord] leaves the world as it is for a value that is
    not in the local membership set, and [removeFromRelatedRecords] with
    values that are all absent only notifies.  With an inverse removal that takes
    members away only, and notifications that do not write to the graph, a
    second [removeFromRelatedRecords] with the same operation finds all its
    values absent, comes down to the notification, and leaves every edge as
    the first one left it. *)
Theorem removeFromRelatedRecords_is_idempotent :
  (∀ identifier key value isRemote w w',
     removeFromInverse identifier key value isRemote w = Return tt w' →
     only_removes w w') →
  (∀ identifier key w w',
     notifyChange identifier key w = Return tt w' → same_edges w w') →
  (∀ relationship c record value isRemote w,
     edges w !! relationship = Some (CollectionEdge c) →
     value ∉ Collection.localMembers c →
     removeRelatedRecord relationship record value isRemote w = Return tt w) ∧
  (∀ record field value isRemote w relationship c,
     field ≠ "" →
     edge_at w record field = Some relationship →
     edges w !! relationship = Some (CollectionEdge c) →
     (∀ v, v ∈ match value with One v => [v] | Many vs => vs end →
           v ∉ Collection.localMembers c) →
     removeFromRelatedRecords record field value isRemote w
     = notifyChange (Collection.identifier c) (key (Collection.definition c)) w) ∧
  (∀ record field value isRemote w w1,
     removeFromRelatedRecords record field value isRemote w = Return tt w1 →
     ∃ relationship c1,
       edge_at w1 record field = Some relationship ∧
       edges w1 !! relationship = Some (CollectionEdge c1) ∧
       (∀ v, v ∈ match value with One v => [v] | Many vs => vs end →
             v ∉ Collection.localMembers c1) ∧
       removeFromRelatedRecords record field value isRemote w1
       = notifyChange (Collection.identifier c1) (key (Collection.definition c1)) w1 ∧
       ∀ w2, removeFromRelatedRecords record field value isRemote w1 = Return tt w2 →
             edges w2 = edges w1 ∧ ∀ i f, edge_at w2 i f = edge_at w1 i f).
Proof.
  intros Hinverse Hnotify. split; [|split].
  - apply removeRelatedRecord_absent.
  - apply removeFromRelatedRecords_absent.
  - intros record field value isRemote w w1 Hrun.
    exact (removeFromRelatedRecords_twice Hinverse Hnotify _ _ _ _ _ _ Hrun).
Qed.


(** ** Invariants of every run *)

Section Unscheduled.

Variable P : World → Prop.
Hypothesis P_frame : Frame P.
Hypothesis P_scheduling : ∀ w g q, P w →
  _transaction g = _transaction (graph w) → P (set_scheduled q (set_graph g w)).
Hypothesis P_collaborators : Collaborators_preserve P.
Hypothesis P_removeRelatedRecord : ∀ relationship record value isRemote,
  preserves P (removeRelatedRecord relationship record value isRemote).

Lemma P_graph w g : P w → _transaction g = _transaction (graph w) → P (set_graph g w).
Proof. intros Hw Ht. exact (P_scheduling w g (scheduled w) Hw Ht). Qed.

Lemma preserves_push op : preserves P (push op).
Proof.
  apply preserves_bind; [by apply preserves_push_bucket|].
  intros _ w Hw. unfold_M. unfold throw. simpl.
  destruct (_willSyncRemote (graph w)); simpl; [done|].
  destruct (store (graph w)); simpl; [by apply P_scheduling|by apply P_graph].
Qed.

Lemma preserves_scheduleLocalSync relationship :
  preserves P (_scheduleLocalSync relationship).
Proof.
  apply preserves_bind; [by apply preserves_modify_this|].
  intros _ w Hw. unfold_M. unfold throw. simpl.
  destruct (_willSyncLocal (graph w)); simpl; [done|].
  destruct (store (graph w)); simpl; [by apply P_scheduling|by apply P_graph].
Qed.

Lemma preserves_flushLocalQueue : preserves P _flushLocalQueue.
Proof.
  intros w Hw. destruct (_willSyncLocal (graph w)) eqn:Hflag.
  - rewrite local_flush_equation by done.
    assert (Hw1 : P (local_flush_started w)) by by apply P_graph.
    revert Hw1. generalize (local_flush_started w).
    change (preserves P (for_each (_updatedRelationships (graph w)) syncRemoteToLocal)).
    apply preserves_for_each. intros. by apply preserve_syncRemoteToLocal.
  - by rewrite flushLocalQueue_idle.
Qed.

Lemma preserves_run_call c : preserves P (run_call c).
Proof.
  destruct c; simpl.
  - apply preserves_bind; [by apply preserves_has|]. intros. apply preserves_ret.
  - apply preserves_bind; [by apply preserves_get|]. intros. apply preserves_ret.
  - apply preserves_bind; [by apply preserves_getData|]. intros. apply preserves_ret.
  - by apply preserves_modify_this.
  - apply preserves_bind; [by apply preserves_isReleasable|]. intros.
    apply preserves_ret.
  - by apply preserves_unload.
  - by apply preserves_remove.
  - apply preserves_push.
  - by apply preserves_update.
  - apply preserves_scheduleLocalSync.
  - by apply preserves_destroy.
Qed.

End Unscheduled.

Section InSyncRuns.

Hypothesis collaborators_keep : Collaborators_preserve all_in_sync.

Lemma all_in_sync_edges w w' :
  edges w' = edges w → all_in_sync w → all_in_sync w'.
Proof. intros He Hw r c. rewrite He. apply Hw. Qed.

Lemma finalize_all_in_sync : preserves all_in_sync _finalize.
Proof.
  apply preserves_bind; [apply preserves_this|]. intros g.
  destruct (_transaction g) as [t|]; [|apply preserves_ret].
  apply preserves_bind.
  - apply preserves_for_each. intros r _ w Hw. unfold reset_transactionRef.
    unfold_M. unfold throw.
    destruct (edges w !! r) as [[i|c|res]|] eqn:He; simpl; try done;
      intros r0 c0; simpl;
      (destruct (decide (r0 = r)) as [->|Hne];
       [rewrite lookup_insert_eq|rewrite lookup_insert_ne by done; apply Hw]).
    + intros [= <-]. apply (Hw r c He).
    + done.
  - intros _ w Hw. by apply (all_in_sync_edges w).
Qed.

Lemma flushRemoteQueue_all_in_sync : preserves all_in_sync _flushRemoteQueue.
Proof.
  intros w Hw. destruct (_willSyncRemote (graph w)) eqn:Hflag.
  - rewrite flush_equation by done.
    assert (Hw1 : all_in_sync (flush_started w)) by by apply (all_in_sync_edges w).
    revert Hw1. generalize (flush_started w).
    change (preserves all_in_sync
      (for_each (pushed_deletions (_pushedUpdates (graph w))) (λ op, update op true) >>
       for_each (pushed_hasMany (_pushedUpdates (graph w))) (λ op, update op true) >>
       for_each (pushed_belongsTo (_pushedUpdates (graph w))) (λ op, update op true) >>
       _finalize)).
    repeat (apply preserves_bind;
            [apply preserves_for_each; intros; apply preserves_update;
               auto using all_in_sync_frame, removeRelatedRecord_all_in_sync
            |intros _]).
    apply finalize_all_in_sync.
  - by rewrite flushRemoteQueue_idle.
Qed.

Lemma step_all_in_sync w w' : step w w' → all_in_sync w → all_in_sync w'.
Proof.
  intros Hstep Hw. destruct Hstep as [c w|queue callback before after w Hq].
  - apply preserves_run_call;
      [apply all_in_sync_frame
      |intros w0 g q Hw0 _; by apply (all_in_sync_edges w0)
      |done
      |by apply removeRelatedRecord_all_in_sync
      |done].
  - assert (Hw1 : all_in_sync (set_scheduled (before ++ after) w))
      by by apply (all_in_sync_edges w).
    destruct callback; simpl.
    + by apply flushRemoteQueue_all_in_sync.
    + apply preserves_flushLocalQueue;
        [intros w0 g q Hw0 _; by apply (all_in_sync_edges w0)|done|done].
Qed.

End InSyncRuns.

Lemma outside_transaction_frame : Frame outside_transaction.
Proof.
  pose proof transaction_inv_frame as Hf. split.
  - by intros w n Hw.
  - by intros w r Hw.
  - intros w g [Hw Hnone] Hr Hl Ht. split; [by apply (frame_graph _ Hf)|].
    simpl. congruence.
  - intros w e [Hw Hnone] He. split; [by apply (frame_new_edge _ Hf)|done].
Qed.

Section TransactionRuns.

Hypothesis collaborators_keep : Collaborators_preserve transaction_inv.
Hypothesis collaborators_do_not_open : Collaborators_preserve outside_transaction.

Lemma removeRelatedRecord_outside_transaction relationship record value isRemote :
  preserves outside_transaction
    (removeRelatedRecord relationship record value isRemote).
Proof.
  intros w [Hw Hnone]. unfold removeRelatedRecord. unfold bind at 1, read_edge at 1.
  destruct (edges w !! relationship) as [[i|c|r]|] eqn:He; simpl; try done.
  destruct (negb _); [done|].
  unfold bind at 1, write_edge at 1.
  destruct (indexOf value (Collection.localState c)) as [index|]; simpl.
  - unfold bind at 1, write_edge at 1. simpl. rewrite insert_insert_eq.
    apply preserve_removeFromInverse; [done|]. rewrite set_edges_set_edges.
    split; [|done]. by eapply transaction_inv_write_edge.
  - split; [|done]. by eapply transaction_inv_write_edge.
Qed.

Lemma step_returning_outside_transaction w w' :
  step_returning w w' → outside_transaction w → outside_transaction w'.
Proof.
  assert (Hsched : ∀ w g q, outside_transaction w →
            _transaction g = _transaction (graph w) →
            outside_transaction (set_scheduled q (set_graph g w))).
  { intros w0 g q [[H1 H2] Hnone] Ht. split; [|simpl; congruence].
    split; simpl; rewrite Ht; [exact H1|exact H2]. }
  intros Hstep Hw.
  destruct Hstep as [c w|queue callback before after w w' Hq Hrun].
  - apply preserves_run_call;
      [apply outside_transaction_frame
      |exact Hsched
      |done
      |apply removeRelatedRecord_outside_transaction
      |done].
  - assert (Hw1 : outside_transaction (set_scheduled (before ++ after) w)).
    { destruct Hw as [[H1 H2] Hnone]. by repeat split. }
    destruct callback; simpl in Hrun.
    + destruct Hw1 as [Hw1 Hnone1].
      destruct (flush_transaction_inv collaborators_keep _ Hw1 Hnone1) as [_ Hclosed].
      destruct (Hclosed w' Hrun) as [Hzero Hnone].
      split; [by apply closed_transaction_inv|done].
    + pose proof (preserves_flushLocalQueue outside_transaction Hsched
                    collaborators_do_not_open _ Hw1) as Hw'.
      by rewrite Hrun in Hw'.
Qed.

End TransactionRuns.


(** C1: a new collection edge has empty sets and sequences; on an edge whose
    set and sequence agree, [removeRelatedRecord] takes the value out of the
    local set and out of the local sequence together (or touches neither),
    leaves the remote side alone, and the edge agrees again; with
    collaborators that keep the agreement, every call of
    [removeFromRelatedRecords] and of [get] keeps the set and the sequence
    of every collection edge in agreement, local and remote, in size and in
    elements, and so they agree in every state that method calls and
    flushes can reach from a new graph. *)
Theorem membership_set_and_sequence_agree :
  Collaborators_preserve all_in_sync →
  (∀ store registry w,
     rtc step (initial_world store registry) w → all_in_sync w) ∧
  (∀ definition identifier,
     let c := createCollectionRelationship definition identifier in
     Collection.localMembers c = ∅ ∧ Collection.localState c = [] ∧
     Collection.remoteMembers c = ∅ ∧ Collection.remoteState c = [] ∧
     in_sync c) ∧
  (∀ store registry, all_in_sync (initial_world store registry)) ∧
  (∀ c, in_sync c →
     size (Collection.localMembers c) = length (Collection.localState c) ∧
     size (Collection.remoteMembers c) = length (Collection.remoteState c)) ∧
  (∀ relationship c record value isRemote w,
     edges w !! relationship = Some (CollectionEdge c) →
     in_sync c →
     removeRelatedRecord relationship record value isRemote w
     = (if decide (value ∈ Collection.localMembers c) then
          removeFromInverse value (inverseKey (Collection.definition c)) record isRemote
            (set_edges (<[relationship := CollectionEdge (without_local value c)]>
                          (edges w)) w)
        else Return tt w) ∧
     in_sync (without_local value c) ∧
     (value ∉ Collection.localMembers (without_local value c)) ∧
     (value ∉ Collection.localState (without_local value c)) ∧
     (∀ x, x ≠ value →
        (x ∈ Collection.localMembers (without_local value c)
         ↔ x ∈ Collection.localMembers c) ∧
        (x ∈ Collection.localState (without_local value c)
         ↔ x ∈ Collection.localState c)) ∧
     Collection.remoteMembers (without_local value c) = Collection.remoteMembers c ∧
     Collection.remoteState (without_local value c) = Collection.remoteState c) ∧
  (∀ record field value isRemote,
     preserves all_in_sync (removeFromRelatedRecords record field value isRemote)) ∧
  (∀ identifier propertyName, preserves all_in_sync (get identifier propertyName)).
Proof.
  intros Hkeep.
  assert (Hinit : ∀ store registry, all_in_sync (initial_world store registry)).
  { intros s registry r c Hr. simpl in Hr. by rewrite lookup_empty in Hr. }
  split; [|split; [|split; [|split; [|split; [|split]]]]].
  - intros s registry w Hreach. pose proof (Hinit s registry) as Hw0.
    induction Hreach as [|w0 w1 w2 Hstep _ IH]; [done|].
    apply IH. by eapply step_all_in_sync.
  - intros definition identifier. simpl. do 4 (split; [done|]).
    apply createCollectionRelationship_in_sync.
  - exact Hinit.
  - apply in_sync_size.
  - intros r c record value isRemote w He Hsync.
    split; [by apply removeRelatedRecord_in_sync|].
    split; [by apply without_local_in_sync|]. by apply without_local_spec.
  - intros. apply preserves_removeFromRelatedRecords;
      auto using all_in_sync_frame, removeRelatedRecord_all_in_sync.
  - intros. apply preserves_get. apply all_in_sync_frame.
Qed.


End Properties.

(** * The collaborators of the example *)

Lemma blog_world_edges r e :
  edges blog_world !! r = Some e →
  (r = 1%positive ∧ e = CollectionEdge blog_comments) ∨
  (r = 2%positive ∧ e = ResourceEdge blog_post).
Proof.
  unfold blog_world. simpl. intros Hr.
  apply lookup_insert_Some in Hr as [[<- <-]|[_ Hr]]; [by left|].
  apply lookup_singleton_Some in Hr as [<- <-]. by right.
Qed.

Lemma blog_comments_in_sync : in_sync blog_comments.
Proof.
  assert (Hside : side_in_sync {[comment1; comment2]} [comment1; comment2]).
  { split.
    - apply NoDup_cons. split; [|apply NoDup_singleton].
      by intros [=]%list_elem_of_singleton.
    - intros x. rewrite elem_of_union, !elem_of_singleton, elem_of_cons,
        list_elem_of_singleton. done. }
  by split.
Qed.

Lemma blog_world_in_sync : all_in_sync blog_world.
Proof.
  intros r c Hr. apply blog_world_edges in Hr as [[_ [= ->]]|[_ ?]]; [|done].
  apply blog_comments_in_sync.
Qed.

Lemma blog_world_transactionRef_zero : all_transactionRef_zero blog_world.
Proof. intros r e Hr. by apply blog_world_edges in Hr as [[_ ->]|[_ ->]]. Qed.

Lemma filter_in_sync (members : gset Identifier) sequence value :
  side_in_sync members sequence →
  side_in_sync (members ∖ {[value]}) (filter (λ x, x ≠ value) sequence).
Proof.
  intros [Hnodup Hel]. split; [by apply NoDup_filter|].
  intros x. rewrite elem_of_difference, elem_of_singleton, list_elem_of_filter, Hel.
  tauto.
Qed.

Lemma remove_dups_in_sync (value : list Identifier) :
  side_in_sync (list_to_set (remove_dups value)) (remove_dups value).
Proof. split; [apply NoDup_remove_dups|]. intros x. apply elem_of_list_to_set. Qed.

Lemma addToTransaction_all_in_sync relationship :
  preserves all_in_sync (_addToTransaction relationship).
Proof.
  intros w Hw. unfold _addToTransaction. unfold_M. unfold throw.
  destruct (_transaction (graph w)) as [t|] eqn:Ht; [|done].
  destruct (edges w !! relationship) as [[i|c|r]|] eqn:He; simpl; try done;
    rewrite Ht; simpl; intros r0 c0; simpl;
    (destruct (decide (r0 = relationship)) as [->|Hne];
     [rewrite lookup_insert_eq|rewrite lookup_insert_ne by done; apply Hw]).
  - intros [= <-]. apply (Hw relationship c He).
  - done.
Qed.

Lemma addToTransaction_one_flush_pending relationship :
  preserves one_flush_pending (_addToTransaction relationship).
Proof.
  intros w Hw. unfold _addToTransaction. unfold_M. unfold throw.
  destruct (_transaction (graph w)) as [t|] eqn:Ht; [|done].
  destruct (edges w !! relationship) as [[i|c|r]|] eqn:He; simpl; try done;
    by rewrite Ht.
Qed.

Lemma blog_removeFromInverse_edges identifier key value isRemote w :
  final (blog_removeFromInverse identifier key value isRemote w) = w ∨
  ∃ r e e', edges w !! r = Some e ∧
    final (blog_removeFromInverse identifier key value isRemote w)
    = set_edges (<[r := e']> (edges w)) w ∧
    edge_transactionRef e' = edge_transactionRef e ∧
    isImplicit e' = isImplicit e ∧
    (∀ c, e = CollectionEdge c →
       ∃ c', e' = CollectionEdge c' ∧
         Collection.localMembers c' ⊆ Collection.localMembers c) ∧
    (∀ c', e' = CollectionEdge c' →
       ∃ c, e = CollectionEdge c ∧ (in_sync c → in_sync c')).
Proof.
  unfold blog_removeFromInverse.
  destruct (edge_at w identifier key) as [r|]; [|by left].
  destruct (edges w !! r) as [[i|c|res]|] eqn:He; [| | |by left]; right;
    eexists r, _, _; (split; [done|]); (split; [done|]); (split; [done|]);
    (split; [done|]); (split; [intros c0 [= <-]|intros c0 [= <-]]).
  - eexists. split; [done|]. simpl.
    intros x. rewrite elem_of_difference. by intros [? _].
  - eexists. split; [done|].
    intros [Hlocal Hremote]. split; simpl; [by apply filter_in_sync|].
    destruct isRemote; [by apply filter_in_sync|done].
Qed.

Lemma blog_replaceRelatedRecords_preserves (P : World → Prop) :
  (∀ r, preserves P (_addToTransaction r)) →
  (∀ w r c c', P w → edges w !! r = Some (CollectionEdge c) →
     Collection.transactionRef c' = Collection.transactionRef c → in_sync c' →
     P (set_edges (<[r := CollectionEdge c']> (edges w)) w)) →
  ∀ op isRemote, preserves P (blog_replaceRelatedRecords op isRemote).
Proof.
  intros Hadd Hwrite op isRemote. destruct op; try apply preserves_ret.
  intros w Hw. simpl. destruct (edge_at w record field) as [r|]; [|done].
  unfold bind at 1. specialize (Hadd r w Hw).
  destruct (_addToTransaction r w) as [[] w1|]; simpl in Hadd; [|done].
  unfold bind at 1, read_edge at 1.
  destruct (edges w1 !! r) as [[i|c|res]|] eqn:He; simpl; try done.
  apply (Hwrite w1 r c); [done..|]. split; apply remove_dups_in_sync.
Qed.

Lemma blog_keeps_in_sync : Collaborators_preserve all_in_sync.
Proof.
  split; try (intros; apply preserves_ret).
  - intros i k v b w Hw.
    change (all_in_sync (final (blog_removeFromInverse i k v b w))).
    destruct (blog_removeFromInverse_edges i k v b w)
      as [->|(r & e & e' & He & -> & _ & _ & _ & Hc)]; [done|].
    intros r0 c0. simpl. destruct (decide (r0 = r)) as [->|Hne].
    + rewrite lookup_insert_eq. intros [= ->].
      destruct (Hc c0 eq_refl) as (c & -> & Hsync). apply Hsync. eauto.
    + rewrite lookup_insert_ne by done. apply Hw.
  - change (∀ op b, preserves all_in_sync (blog_replaceRelatedRecords op b)).
    apply blog_replaceRelatedRecords_preserves;
      [apply addToTransaction_all_in_sync|].
    intros w r c c' Hw He _ Hsync r0 c0. simpl.
    destruct (decide (r0 = r)) as [->|Hne].
    + rewrite lookup_insert_eq. by intros [= <-].
    + rewrite lookup_insert_ne by done. apply Hw.
Qed.

(** * The properties on the concrete graph *)

Lemma collection_payload_witness :
  getData post1 "comments" blog_world
  = Return (CollectionPayload
              {| data := Some [comment1; comment2];
                 payload_links := None; payload_meta := None |}) blog_world.
Proof.
  apply (proj2 (proj2 (proj2 collection_payload_data_gated_on_hasReceivedData))
           post1 "comments" blog_world 1%positive blog_world blog_comments);
    vm_compute; reflexivity.
Defined.


Lemma remove_witness :
  remove post1 blog_world = Return tt (final (remove post1 blog_world)) ∧
  identifiers (graph (final (remove post1 blog_world))) !! post1 = None ∧
  remove post1 (final (remove post1 blog_world))
  = Return tt (final (remove post1 blog_world)).
Proof.
  assert (Hremove : remove post1 blog_world
                    = Return tt (final (remove post1 blog_world)))
    by (vm_compute; reflexivity).
  destruct (proj2 (remove_is_guarded_and_deletes_the_node post1 blog_world)
              _ Hremove) as (_ & _ & Hid & _ & _ & Hagain).
  exact (conj Hremove (conj Hid Hagain)).
Defined.

Lemma destroy_witness :
  ∃ w', destroy blog_world = Return tt w' ∧
    Graphs w' !! 1%positive = None ∧
    Graphs w' !! getStore 1%positive = None ∧
    (∀ k, k ≠ 1%positive → k ≠ getStore 1%positive →
          Graphs w' !! k = Graphs blog_world !! k) ∧
    identifiers (graph w') = ∅ ∧
    store (graph w') = None ∧
    isDestroyed (graph w') = true ∧
    (∀ identifier propertyName, has identifier propertyName w' = Return false w').
Proof. apply (destroy_detaches_and_clears blog_world 1%positive). reflexivity. Defined.

(** Counterexample to C9 as the specification words it: after [destroy], a
    call of [has] returns false, it is not an error. *)
Lemma destroyed_graph_answers_has :
  destroy blog_world = Return tt (final (destroy blog_world)) ∧
  isDestroyed (graph (final (destroy blog_world))) = true ∧
  has post1 "comments" (final (destroy blog_world))
  = Return false (final (destroy blog_world)) ∧
  ¬ (∃ e w', has post1 "comments" (final (destroy blog_world)) = Throw e w').
Proof.
  assert (Hhas : has post1 "comments" (final (destroy blog_world))
                 = Return false (final (destroy blog_world)))
    by (vm_compute; reflexivity).
  split; [vm_compute; reflexivity|]. split; [reflexivity|]. split; [exact Hhas|].
  intros (e & w' & Hthrow). rewrite Hhas in Hthrow. discriminate.
Defined.

Lemma blog_keeps_transaction_inv : Collaborators_preserve transaction_inv.
Proof.
  split; try (intros; apply preserves_ret).
  - intros i k v b w Hw.
    change (transaction_inv (final (blog_removeFromInverse i k v b w))).
    destruct (blog_removeFromInverse_edges i k v b w)
      as [->|(r & e & e' & He & -> & Href & Himp & _)]; [done|].
    by eapply transaction_inv_write_edge.
  - change (∀ op b, preserves transaction_inv (blog_replaceRelatedRecords op b)).
    apply blog_replaceRelatedRecords_preserves;
      [apply addToTransaction_transaction_inv|].
    intros w r c c' Hw He Href _. by eapply transaction_inv_write_edge.
Qed.

Lemma blog_keeps_outside_transaction : Collaborators_preserve outside_transaction.
Proof.
  split; try (intros; apply preserves_ret).
  - intros i k v b w [Hw Hnone].
    change (outside_transaction (final (blog_removeFromInverse i k v b w))).
    destruct (blog_removeFromInverse_edges i k v b w)
      as [->|(r & e & e' & He & -> & Href & Himp & _)]; [done|].
    split; [|done]. by eapply transaction_inv_write_edge.
  - change (∀ op b, preserves outside_transaction (blog_replaceRelatedRecords op b)).
    apply blog_replaceRelatedRecords_preserves.
    + intros r w [Hw Hnone]. unfold _addToTransaction. unfold_M. unfold throw.
      rewrite Hnone. by split.
    + intros w r c c' [Hw Hnone] He Href _. split; [|done].
      by eapply transaction_inv_write_edge.
Qed.

Lemma blog_keeps_one_flush_pending : Collaborators_preserve one_flush_pending.
Proof.
  split; try (intros; apply preserves_ret).
  - intros i k v b w Hw.
    change (one_flush_pending (final (blog_removeFromInverse i k v b w))).
    by destruct (blog_removeFromInverse_edges i k v b w)
      as [->|(r & e & e' & He & -> & _)].
  - change (∀ op b, preserves one_flush_pending (blog_replaceRelatedRecords op b)).
    apply blog_replaceRelatedRecords_preserves;
      [apply addToTransaction_one_flush_pending|]. by intros.
Qed.

Lemma blog_removeFromInverse_only_removes identifier key value isRemote w w' :
  removeFromInverse identifier key value isRemote w = Return tt w' →
  only_removes w w'.
Proof.
  change (blog_removeFromInverse identifier key value isRemote w = Return tt w' →
          only_removes w w').
  intros Hrun.
  destruct (blog_removeFromInverse_edges identifier key value isRemote w)
    as [Hsame|(r & e & e' & He & Hfinal & _ & _ & Hc & _)];
    rewrite Hrun in *; simpl in *; subst w'.
  - apply only_removes_refl.
  - split; [done|]. intros r0 c0 Hr0. simpl.
    destruct (decide (r0 = r)) as [->|Hne].
    + rewrite lookup_insert_eq. rewrite He in Hr0. injection Hr0 as ->.
      destruct (Hc c0 eq_refl) as (c' & -> & Hsub). by exists c'.
    + rewrite lookup_insert_ne by done. exists c0. by split.
Qed.

Lemma blog_notifyChange_same_edges identifier key w w' :
  notifyChange identifier key w = Return tt w' → same_edges w w'.
Proof. intros [= <-]. by split. Qed.

Lemma membership_witness :
  all_in_sync blog_without_comments ∧
  Collection.localState <$> collection_at blog_without_comments 1%positive = Some [] ∧
  Collection.localMembers <$> collection_at blog_without_comments 1%positive = Some ∅.
Proof.
  split; [|split; vm_compute; reflexivity].
  apply (proj1 (proj2 (proj2 (proj2 (proj2 (proj2
           (membership_set_and_sequence_agree blog_keeps_in_sync))))))).
  exact blog_world_in_sync.
Defined.

Lemma flush_order_witness :
  ∃ w, for_each [replace_post; replace_comments; delete_comment1] push blog_world
       = Return tt w ∧
    _flushRemoteQueue w
    = (update delete_comment1 true >>
       update replace_comments true >>
       update replace_post true >>
       _finalize) (flush_started w).
Proof.
  apply (proj1 (proj2 (proj2 flush_applies_deletions_then_hasMany_then_belongsTo))
           blog_world delete_comment1 replace_comments replace_post).
  - reflexivity.
  - by eexists.
  - reflexivity.
  - vm_compute; reflexivity.
  - reflexivity.
  - exact (Permutation_rev [replace_post; replace_comments; delete_comment1]).
Defined.

Lemma blog_queued_edges : edges blog_queued = edges blog_world.
Proof. vm_compute; reflexivity. Qed.

Lemma blog_queued_transaction_inv : transaction_inv blog_queued.
Proof.
  apply closed_transaction_inv; [|vm_compute; reflexivity].
  intros r e. rewrite blog_queued_edges. apply blog_world_transactionRef_zero.
Qed.


Lemma idempotence_witness :
  ∃ relationship c1,
    edge_at blog_without_comments post1 "comments" = Some relationship ∧
    edges blog_without_comments !! relationship = Some (CollectionEdge c1) ∧
    (∀ v, v ∈ [comment1; comment2] → v ∉ Collection.localMembers c1) ∧
    removeFromRelatedRecords post1 "comments" (Many [comment1; comment2]) false
      blog_without_comments
    = notifyChange (Collection.identifier c1) (key (Collection.definition c1))
        blog_without_comments ∧
    ∀ w2, removeFromRelatedRecords post1 "comments" (Many [comment1; comment2]) false
            blog_without_comments = Return tt w2 →
          edges w2 = edges blog_without_comments ∧
          ∀ i f, edge_at w2 i f = edge_at blog_without_comments i f.
Proof.
  apply (proj2 (proj2 (removeFromRelatedRecords_is_idempotent
                  blog_removeFromInverse_only_removes blog_notifyChange_same_edges))
           post1 "comments" (Many [comment1; comment2]) false blog_world).
  vm_compute; reflexivity.
Defined.



Lemma one_pending_witness :
  one_flush_pending
    (final (push replace_post
              (final (push delete_comment1 (initial_world 1%positive ∅))))).
Proof.
  apply (proj1 (at_most_one_pending_flush_per_queue blog_keeps_one_flush_pending)
           1%positive ∅).
  eapply rtc_l; [exact (step_call (Call_push delete_comment1) _)|].
  eapply rtc_l; [exact (step_call (Call_push replace_post) _)|].
  apply rtc_refl.
Defined.

(** * Further properties of the graph *)

(** ** The registry of polymorphic types *)

Lemma default_empty_lookup (m : gmap string (gmap string bool)) a b :
  default ∅ (m !! a) !! b = m !! a ≫= λ t, t !! b.
Proof. by destruct (m !! a). Qed.

(** X1: [registerPolymorphicType] always returns; afterwards the two types are
    registered with each other, in both directions, every other entry of the
    registry is as before, and nothing else in the world has changed. *)
Theorem registerPolymorphicType_registers_both_ways type1 type2 w :
  ∃ w', registerPolymorphicType type1 type2 w = Return tt w' ∧
    (∀ a b, polymorphic (graph w') a b
            = if decide ((a = type1 ∧ b = type2) ∨ (a = type2 ∧ b = type1))
              then Some true else polymorphic (graph w) a b) ∧
    w' = set_graph
           (set_potentialPolymorphicTypes (_potentialPolymorphicTypes (graph w'))
              (graph w)) w.
Proof.
  eexists. split; [reflexivity|]. split; [|reflexivity].
  intros a b. unfold polymorphic. simpl.
  destruct (decide (a = type2)) as [->|Ha2].
  - rewrite lookup_insert_eq. simpl.
    destruct (decide (b = type1)) as [->|Hb1].
    + rewrite lookup_insert_eq. by rewrite decide_True by (by right).
    + rewrite lookup_insert_ne by done.
      destruct (decide (type1 = type2)) as [->|Hne].
      * rewrite lookup_insert_eq. simpl. rewrite lookup_insert_ne by done.
        rewrite default_empty_lookup. rewrite decide_False; [done|].
        intros [[_ ?]|[_ ?]]; done.
      * rewrite lookup_insert_ne by done. rewrite default_empty_lookup.
        rewrite decide_False; [done|]. intros [[? _]|[_ ?]]; done.
  - rewrite lookup_insert_ne by done.
    destruct (decide (a = type1)) as [->|Ha1].
    + rewrite lookup_insert_eq. simpl.
      destruct (decide (b = type2)) as [->|Hb2].
      * rewrite lookup_insert_eq. by rewrite decide_True by (by left).
      * rewrite lookup_insert_ne by done. rewrite default_empty_lookup.
        rewrite decide_False; [done|]. intros [[_ ?]|[? _]]; done.
    + rewrite lookup_insert_ne by done. rewrite decide_False; [done|].
      intros [[? _]|[? _]]; done.
Qed.

Lemma registerPolymorphicType_run type1 type2 w :
  registerPolymorphicType type1 type2 w
  = Return tt
      (set_graph
         (set_potentialPolymorphicTypes
            (registered type1 type2 (_potentialPolymorphicTypes (graph w)))
            (graph w)) w).
Proof. reflexivity. Qed.

Lemma registered_symmetric type1 type2 m :
  registered type2 type1 m = registered type1 type2 m.
Proof.
  unfold registered. destruct (decide (type1 = type2)) as [->|Hne]; [done|].
  rewrite (lookup_insert_ne _ type1 type2) by done.
  rewrite (lookup_insert_ne _ type2 type1) by done.
  by rewrite insert_insert_ne.
Qed.

Lemma registered_idempotent type1 type2 m :
  registered type1 type2 (registered type1 type2 m) = registered type1 type2 m.
Proof.
  unfold registered. destruct (decide (type1 = type2)) as [->|Hne].
  - rewrite !lookup_insert_eq. simpl. by rewrite !insert_insert_eq.
  - repeat first [rewrite lookup_insert_eq | rewrite lookup_insert_ne by done].
    simpl. rewrite !insert_insert_eq.
    apply map_eq. intros k.
    destruct (decide (k = type2)) as [->|Hk2].
    { by rewrite !lookup_insert_eq. }
    rewrite !(lookup_insert_ne _ type2 k) by done.
    destruct (decide (k = type1)) as [->|Hk1].
    { by rewrite !lookup_insert_eq. }
    repeat rewrite lookup_insert_ne by done. done.
Qed.

(** X2: registering a pair a second time changes nothing, and the order of
    the two types does not matter. *)
Theorem registerPolymorphicType_idempotent_and_symmetric type1 type2 w :
  registerPolymorphicType type1 type2
    (final (registerPolymorphicType type1 type2 w))
  = registerPolymorphicType type1 type2 w ∧
  registerPolymorphicType type2 type1 w = registerPolymorphicType type1 type2 w.
Proof.
  rewrite !registerPolymorphicType_run. unfold final.
  unfold set_graph, set_potentialPolymorphicTypes. simpl.
  by rewrite registered_idempotent, registered_symmetric.
Qed.

(** ** Releasing and unloading *)

Lemma dict_get_Some_keys {V} k (d : Dict V) v :
  dict_get k d = Some v → k ∈ dict_keys d.
Proof.
  induction d as [|[k' v'] d IH]; simpl; [done|].
  destruct (decide (k' = k)) as [->|Hne]; [intros _; by left|].
  intros Hk. right. by apply IH.
Qed.

Lemma dict_get_not_keys {V} k (d : Dict V) : k ∉ dict_keys d → dict_get k d = None.
Proof.
  induction d as [|[k' v'] d IH]; simpl; [done|].
  rewrite not_elem_of_cons. intros [Hne Hk]. rewrite decide_False by done.
  by apply IH.
Qed.

Lemma dict_keys_set_present {V} k (v : option V) d :
  k ∈ dict_keys d → dict_keys (dict_set k v d) = dict_keys d.
Proof.
  unfold dict_keys. induction d as [|[k' v'] d IH]; simpl.
  - by intros ?%elem_of_nil.
  - destruct (decide (k' = k)) as [->|Hne]; simpl; [done|].
    intros [?|Hk]%elem_of_cons; [done|]. f_equal. by apply IH.
Qed.

Lemma isReleasable_keys_complete n d w keys :
  nodes w !! n = Some d →
  (∀ k, k ∈ keys → ∃ r e, dict_get k d = Some r ∧ edges w !! r = Some e) →
  ∃ b, isReleasable_keys n keys w = Return b w ∧
    (b = true ↔
     ∀ k r e, k ∈ keys → dict_get k d = Some r → edges w !! r = Some e →
              inverseIsAsync (edge_definition e) = false).
Proof.
  intros Hn. induction keys as [|k keys IH]; intros Hkeys; simpl.
  - exists true. split; [done|]. split; [|done]. intros _ k r e Hk.
    by apply elem_of_nil in Hk.
  - destruct (Hkeys k) as (r & e & Hr & He); [by left|].
    unfold bind at 1, read_node at 1. rewrite Hn, Hr.
    unfold bind at 1, read_edge at 1. rewrite He.
    destruct (inverseIsAsync (edge_definition e)) eqn:Hasync.
    + exists false. split; [done|]. split; [done|]. intros Hall.
      rewrite (Hall k r e) in Hasync; [done|by left|done..].
    + destruct IH as (b & Hrun & Hb). { intros k' Hk'. apply Hkeys. by right. }
      exists b. split; [done|]. rewrite Hb. split.
      * intros Hall k' r' e' [->|Hk']%elem_of_cons Hr' He'; [|by eapply Hall].
        congruence.
      * intros Hall k' r' e' Hk'. apply Hall. by right.
Qed.

(** X3: on a node whose slots all hold edges, [isReleasable] returns without
    changing anything, and its answer is true exactly when no edge of the
    node has an asynchronous inverse. *)
Theorem isReleasable_true_iff_no_async_inverse identifier n d w :
  identifiers (graph w) !! identifier = Some n →
  nodes w !! n = Some d →
  (∀ k, k ∈ dict_keys d → ∃ r e, dict_get k d = Some r ∧ edges w !! r = Some e) →
  ∃ b, isReleasable identifier w = Return b w ∧
    (b = true ↔
     ∀ k r e, dict_get k d = Some r → edges w !! r = Some e →
              inverseIsAsync (edge_definition e) = false).
Proof.
  intros Hi Hn Hslots. unfold isReleasable. unfold bind at 1, this at 1.
  rewrite Hi. unfold bind at 1, read_node at 1. rewrite Hn.
  destruct (isReleasable_keys_complete n d w (dict_keys d) Hn Hslots)
    as (b & Hrun & Hb).
  exists b. split; [done|]. rewrite Hb. split.
  - intros Hall k r e Hr. apply (Hall k); [|done]. by eapply dict_get_Some_keys.
  - intros Hall k r e _. apply Hall.
Qed.

Lemma isReleasable_keys_vacated n d w before k after :
  nodes w !! n = Some d →
  (∀ k', k' ∈ before →
     ∃ r e, dict_get k' d = Some r ∧ edges w !! r = Some e ∧
            inverseIsAsync (edge_definition e) = false) →
  dict_get k d = None →
  isReleasable_keys n (before ++ k :: after) w
  = Throw (AssertionFailed "Expected a relationship") w.
Proof.
  intros Hn Hbefore Hk. induction before as [|k0 before IH]; simpl.
  - unfold bind at 1, read_node at 1. by rewrite Hn, Hk.
  - destruct (Hbefore k0) as (r & e & Hr & He & Hsync); [by left|].
    unfold bind at 1, read_node at 1. rewrite Hn, Hr.
    unfold bind at 1, read_edge at 1. rewrite He, Hsync.
    apply IH. intros k' Hk'. apply Hbefore. by right.
Qed.

(** X4: a slot that was vacated (its key is still there, its value is
    undefined) makes [isReleasable] fail its assertion, unless an earlier
    key of the node already answered with an asynchronous inverse. *)
Theorem isReleasable_asserts_on_a_vacated_slot identifier n d w before k after :
  identifiers (graph w) !! identifier = Some n →
  nodes w !! n = Some d →
  dict_keys d = before ++ k :: after →
  (∀ k', k' ∈ before →
     ∃ r e, dict_get k' d = Some r ∧ edges w !! r = Some e ∧
            inverseIsAsync (edge_definition e) = false) →
  dict_get k d = None →
  isReleasable identifier w = Throw (AssertionFailed "Expected a relationship") w.
Proof.
  intros Hi Hn Hkeys Hbefore Hk. unfold isReleasable. unfold bind at 1, this at 1.
  rewrite Hi. unfold bind at 1, read_node at 1. rewrite Hn, Hkeys.
  by apply (isReleasable_keys_vacated n d).
Qed.

Section Extras.

Context `{Collaborators}.

Lemma unloaded_slot_ext w w' slot :
  (∀ r, implicit_at w' r = implicit_at w r) →
  unloaded_slot w' slot = unloaded_slot w slot.
Proof. intros Hi. destruct slot as [r|]; [|done]. simpl. by rewrite Hi. Qed.

Lemma unloaded_slot_idempotent w slot :
  unloaded_slot w (unloaded_slot w slot) = unloaded_slot w slot.
Proof.
  destruct slot as [r|]; [|done]. simpl.
  destruct (implicit_at w r) as [[]|] eqn:Hr; simpl; by rewrite ?Hr.
Qed.

Lemma unload_loop n s keys :
  (∀ rel s, keeps_slots (destroyRelationship rel s)) →
  ∀ w d w',
  nodes w !! n = Some d →
  for_each keys (λ key,
    let* d := read_node n in
    match dict_get key d with
    | None => ret tt
    | Some rel =>
        destroyRelationship rel s >>
        let* e := read_edge rel in
        if isImplicit e then write_slot n key None else ret tt
    end) w = Return tt w' →
  identifiers (graph w') = identifiers (graph w) ∧
  (∀ r, implicit_at w' r = implicit_at w r) ∧
  ∃ d', nodes w' !! n = Some d' ∧ dict_keys d' = dict_keys d ∧
    ∀ k, dict_get k d'
         = if decide (k ∈ keys) then unloaded_slot w (dict_get k d)
           else dict_get k d.
Proof.
  intros Hquiet. induction keys as [|k keys IH]; intros w d w' Hn; cbn [for_each].
  - intros [= <-]. split; [done|]. split; [done|]. exists d.
    split; [done|]. split; [done|]. intros k.
    case_decide as Hk; [by apply elem_of_nil in Hk|done].
  - intros Hrun. apply bind_Return in Hrun as ([] & w2 & Hbody & Hrest).
    assert (Hstep : identifiers (graph w2) = identifiers (graph w) ∧
              (∀ r, implicit_at w2 r = implicit_at w r) ∧
              ∃ d2, nodes w2 !! n = Some d2 ∧ dict_keys d2 = dict_keys d ∧
                dict_get k d2 = unloaded_slot w (dict_get k d) ∧
                ∀ k', k' ≠ k → dict_get k' d2 = dict_get k' d).
    { revert Hbody. unfold bind at 1, read_node at 1. rewrite Hn.
      destruct (dict_get k d) as [rel|] eqn:Hk.
      2: { intros [= <-]. repeat (split; [done|]). exists d. by rewrite ?Hk. }
      unfold bind at 1.
      destruct (destroyRelationship rel s w) as [[] w1|] eqn:Hdestroy; [|done].
      apply Hquiet in Hdestroy as (Hn1 & Hi1 & Himp1).
      unfold bind at 1, read_edge at 1.
      destruct (edges w1 !! rel) as [e|] eqn:He; [|done].
      assert (Hrel : implicit_at w rel = Some (isImplicit e)).
      { rewrite <- Himp1. unfold implicit_at. by rewrite He. }
      destruct (isImplicit e) eqn:Himp.
      - unfold write_slot. unfold bind at 1, read_node at 1. rewrite Hn1, Hn.
        intros [= <-]. simpl. split; [done|]. split; [done|].
        exists (dict_set k None d). rewrite lookup_insert_eq.
        split; [done|]. split.
        { apply dict_keys_set_present. by eapply dict_get_Some_keys. }
        split; [by rewrite dict_get_set_eq, ?Hk; simpl; rewrite Hrel|].
        intros k' Hne. by apply dict_get_set_ne.
      - intros [= <-]. split; [done|]. split; [done|]. exists d.
        rewrite Hn1. split; [done|]. split; [done|].
        split; [by rewrite ?Hk; simpl; rewrite Hrel|done]. }
    destruct Hstep as (Hi2 & Himp2 & d2 & Hn2 & Hkeys2 & Hk2 & Hother2).
    destruct (IH w2 d2 w' Hn2 Hrest) as (Hi' & Himp' & d' & Hn' & Hkeys' & Hd').
    split; [congruence|]. split; [intros r; by rewrite Himp', Himp2|].
    exists d'. split; [done|]. split; [congruence|].
    intros k'. rewrite Hd'. rewrite (unloaded_slot_ext w w2) by done.
    destruct (decide (k' = k)) as [->|Hne].
    + rewrite (decide_True (P := k ∈ k :: keys)) by by left.
      rewrite Hk2. case_decide; [apply unloaded_slot_idempotent|done].
    + rewrite Hother2 by done.
      destruct (decide (k' ∈ keys)) as [Hin|Hnotin].
      * by rewrite decide_True by by right.
      * rewrite decide_False; [done|]. by intros [?|?]%elem_of_cons.
Qed.

(** X5: with a [destroyRelationship] that leaves the node dictionaries and
    the shape of the edges alone, an [unload] that returns keeps the node of
    the identifier in the table with the same keys, vacates exactly the
    slots that hold implicit edges and leaves the other slots as they were;
    so [has] afterwards is true exactly for the fields with a declared
    edge. *)
Theorem unload_vacates_the_implicit_slots identifier s n d w w' :
  (∀ rel s, keeps_slots (destroyRelationship rel s)) →
  identifiers (graph w) !! identifier = Some n →
  nodes w !! n = Some d →
  unload identifier s w = Return tt w' →
  identifiers (graph w') = identifiers (graph w) ∧
  ∃ d', nodes w' !! n = Some d' ∧ dict_keys d' = dict_keys d ∧
    (∀ k, dict_get k d' = unloaded_slot w (dict_get k d)) ∧
    (∀ k, has identifier k w'
          = Return (bool_decide (is_Some (unloaded_slot w (dict_get k d)))) w').
Proof.
  intros Hquiet Hi Hn. unfold unload. unfold bind at 1, this at 1. rewrite Hi.
  unfold bind at 1, read_node at 1. rewrite Hn. intros Hrun.
  destruct (unload_loop n s (dict_keys d) Hquiet w d w' Hn Hrun)
    as (Hi' & _ & d' & Hn' & Hkeys' & Hd').
  split; [done|]. exists d'. split; [done|]. split; [done|].
  assert (Hslots : ∀ k, dict_get k d' = unloaded_slot w (dict_get k d)).
  { intros k. rewrite Hd'. case_decide as Hk; [done|].
    by rewrite (dict_get_not_keys k d). }
  split; [done|]. intros k. unfold has. unfold_M. rewrite Hi', Hi. simpl.
  by rewrite Hn', Hslots.
Qed.

(** ** Resolving and reading edges *)

Lemma get_Return_shape identifier propertyName w relationship w' :
  get identifier propertyName w = Return relationship w' →
  (edge_at w identifier propertyName = Some relationship ∧ w' = w) ∨
  ∃ e n d,
    relationship = fresh (dom (edges w)) ∧
    edges w' = <[relationship := e]> (edges w) ∧
    new_edge_shape e ∧
    dict_get propertyName d = None ∧
    nodes w' = <[n := dict_set propertyName (Some relationship) d]> (nodes w) ∧
    ((identifiers (graph w) !! identifier = Some n ∧ nodes w !! n = Some d ∧
      identifiers (graph w') = identifiers (graph w)) ∨
     (identifiers (graph w) !! identifier = None ∧ n = fresh (dom (nodes w)) ∧
      d = [] ∧
      identifiers (graph w') = <[identifier := n]> (identifiers (graph w)))).
Proof.
  unfold get. intros Hget.
  apply bind_Return in Hget as ([] & w0 & Hassert & Hget).
  unfold assert in Hassert.
  destruct (negb (String.eqb propertyName "")); [|done].
  injection Hassert as <-.
  revert Hget. unfold edge_at. unfold_M.
  destruct (identifiers (graph w) !! identifier) as [n|] eqn:Hn; simpl.
  - destruct (nodes w !! n) as [d|] eqn:Hd; simpl; [|done].
    destruct (dict_get propertyName d) as [r|] eqn:Hr; simpl.
    { intros [= <- <-]. by left. }
    destruct (upgradeDefinition (graph w) identifier propertyName) as [[info|] cache];
      simpl; [|done].
    destruct (isLHS info (type identifier) propertyName);
      [|destruct (rhs_definition info) as [m|]; [|done]];
      simpl; rewrite Hd; simpl; intros [= <- <-]; right;
      eexists _, n, d; simpl; (split; [done|]); (split; [done|]);
      (split; [by destruct (kind _); constructor|]);
      (split; [done|]); (split; [done|]); by left.
  - rewrite lookup_insert_eq. simpl.
    destruct (upgradeDefinition _ identifier propertyName) as [[info|] cache];
      simpl; [|done].
    destruct (isLHS info (type identifier) propertyName);
      [|destruct (rhs_definition info) as [m|]; [|done]];
      simpl; rewrite lookup_insert_eq; simpl; intros [= <- <-]; right;
      eexists _, (fresh (dom (nodes w))), []; simpl;
      rewrite insert_insert_eq;
      (split; [done|]); (split; [done|]);
      (split; [by destruct (kind _); constructor|]);
      (split; [done|]); (split; [done|]); by right.
Qed.

(** X7: a [get] that returns leaves every edge that the graph already had
    where it was and as it was: the slots of all nodes still lead to the
    same objects, and the objects are unchanged. *)
Theorem get_keeps_the_existing_edges identifier propertyName w relationship w' :
  get identifier propertyName w = Return relationship w' →
  (∀ identifier' propertyName' r,
     edge_at w identifier' propertyName' = Some r →
     edge_at w' identifier' propertyName' = Some r) ∧
  (∀ r e, edges w !! r = Some e → edges w' !! r = Some e).
Proof.
  intros Hget.
  apply get_Return_shape in Hget
    as [[_ ->]|(e & n & d & -> & He & _ & Hd & Hn & Hcases)]; [done|].
  split.
  - intros i' p' r. unfold edge_at. rewrite Hn.
    destruct (identifiers (graph w) !! i') as [n'|] eqn:Hi'; [|done]. simpl.
    destruct (nodes w !! n') as [d'|] eqn:Hn'; [|done]. simpl. intros Hr.
    assert (Hi'' : identifiers (graph w') !! i' = Some n').
    { destruct Hcases as [(_ & _ & ->)|(Hnone & _ & _ & ->)]; [done|].
      rewrite lookup_insert_ne; [done|]. intros ->. congruence. }
    rewrite Hi''. simpl.
    destruct (decide (n' = n)) as [->|Hne].
    + rewrite lookup_insert_eq. simpl.
      destruct Hcases as [(_ & Hnd & _)|(_ & -> & _ & _)].
      * rewrite Hnd in Hn'. injection Hn' as <-.
        rewrite dict_get_set_ne; [done|]. intros ->. congruence.
      * exfalso. apply (is_fresh (dom (nodes w))). by apply elem_of_dom.
    + rewrite lookup_insert_ne by done. by rewrite Hn'.
  - intros r e0 Hr. rewrite He. rewrite lookup_insert_ne; [done|].
    intros <-. apply (is_fresh (dom (edges w))). by apply elem_of_dom.
Qed.

(** X6: [get] with an empty property name fails at once and writes nothing.
    [get] for a field that the schema cannot explain fails too, but only
    after it has entered an empty node for a new identifier and cached the
    answer of the resolver: the node stays behind, with no edge in it. *)
Theorem get_fails_without_a_definition identifier propertyName w cache :
  get identifier "" w = Throw (AssertionFailed "expected propertyName") w ∧
  (propertyName ≠ "" →
   identifiers (graph w) !! identifier = None →
   upgradeDefinition
     (set_identifiers (<[identifier := fresh (dom (nodes w))]> (identifiers (graph w)))
        (graph w)) identifier propertyName = (None, cache) →
   ∃ w', get identifier propertyName w
         = Throw (AssertionFailed "Could not determine relationship information") w' ∧
     identifiers (graph w') !! identifier = Some (fresh (dom (nodes w))) ∧
     nodes w' !! fresh (dom (nodes w)) = Some [] ∧
     _definitionCache (graph w') = cache ∧
     edges w' = edges w ∧
     has identifier propertyName w' = Return false w').
Proof.
  split; [done|]. intros Hp Hi Hup. apply String_eqb_empty in Hp.
  unfold get. unfold_M. rewrite Hp. simpl. rewrite Hi. simpl.
  rewrite lookup_insert_eq. simpl. rewrite Hup. simpl.
  eexists. split; [done|]. simpl. rewrite !lookup_insert_eq. repeat (split; [done|]).
  unfold has. unfold_M. simpl. rewrite lookup_insert_eq. simpl.
  by rewrite lookup_insert_eq.
Qed.

(** X8: [getData] on an edge that is already in the graph reads it without
    writing: an implicit edge fails the assertion, a belongsTo edge gives
    the payload of the resource edge, a hasMany edge the payload of the
    collection edge. *)
Theorem getData_by_the_shape_of_the_edge identifier propertyName w relationship e :
  propertyName ≠ "" →
  edge_at w identifier propertyName = Some relationship →
  edges w !! relationship = Some e →
  getData identifier propertyName w
  = match e with
    | ImplicitEdge _ =>
        Throw (AssertionFailed "Cannot getData() on an implicit relationship") w
    | ResourceEdge r =>
        Return (SinglePayload (legacyGetResourceRelationshipData r)) w
    | CollectionEdge c =>
        Return (CollectionPayload (legacyGetCollectionRelationshipData c)) w
    end.
Proof.
  intros Hp Hat He. unfold getData. unfold bind at 1.
  rewrite (get_existing _ _ _ relationship) by done.
  unfold bind at 1, read_edge at 1. rewrite He. by destruct e.
Qed.

(** ** The guards of [update] and [push] *)

(** X9: the operations that exist for remote state only never go through
    with [isRemote] false: a [deleteRecord] fails before it writes anything,
    an [updateRelationship] never returns; and an operation of a kind that
    [update] does not know never returns, whatever [isRemote] is. *)
Theorem update_refuses_remote_operations_on_local_state :
  (∀ record w,
     update (DeleteRecord record) false w
     = Throw (AssertionFailed
                "Can only perform the operation deleteRelationship on remote state") w) ∧
  (∀ record field value w,
     ∃ e w', update (UpdateRelationship record field value) false w = Throw e w') ∧
  (∀ op record field isRemote w,
     ∃ e w', update (UnknownOperation op record field) isRemote w = Throw e w').
Proof.
  split; [done|]. split.
  - intros record field value w. unfold update. unfold bind at 1.
    destruct (bind _ _ w) as [[] w1|e w1]; [|by eauto]. by eexists _, _.
  - intros op record field isRemote w. unfold update. unfold bind at 1.
    destruct (bind _ _ w) as [[] w1|e w1]; [|by eauto]. by eexists _, _.
Qed.

(** X10: an operation that addresses an implicit edge already in the graph
    is refused by [update] before anything is written.  [push] refuses it
    too, and queues nothing, except for a [replaceRelatedRecord], which it
    queues without a look at the edge: that one fails only when the flush
    hands it to [update]. *)
Theorem implicit_edges_take_no_operations op relationship i w :
  match op with DeleteRecord _ | MergeIdentifiers _ _ => False | _ => True end →
  op_field op ≠ "" →
  edge_at w (op_record op) (op_field op) = Some relationship →
  edges w !! relationship = Some (ImplicitEdge i) →
  (∀ isRemote,
     update op isRemote w
     = Throw (AssertionFailed "Cannot update an implicit relationship") w) ∧
  match op with
  | ReplaceRelatedRecord _ _ _ =>
      store (graph w) ≠ None →
      push op w
      = Return tt (flush_requested (set_graph (push_belongsTo op (graph w)) w))
  | _ =>
      push op w
      = Throw (AssertionFailed
                 "Cannot push a remote update for an implicit relationship") w
  end.
Proof.
  intros Hop Hfield Hat He. split.
  - intros isRemote. unfold update. unfold bind at 1.
    destruct op; try done; simpl in *;
      unfold bind at 1; rewrite (get_existing _ _ _ relationship) by done;
      unfold bind at 1, read_edge at 1; by rewrite He.
  - destruct op; try done; simpl in *; unfold push;
      try (unfold bind at 1; unfold bind at 1;
           rewrite (get_existing _ _ _ relationship) by done;
           unfold bind at 1, read_edge at 1; by rewrite He).
    intros Hstore. unfold flush_requested. unfold_M. simpl.
    destruct (_willSyncRemote (graph w)); simpl; [done|].
    by destruct (store (graph w)).
Qed.

(** ** Records that leave, records that were never there *)

Lemma for_each_reset_graph t : ∀ w w',
  for_each t reset_transactionRef w = Return tt w' → graph w' = graph w.
Proof.
  induction t as [|r t IH]; intros w w'; simpl; [by intros [= <-]|].
  intros Hrun. apply bind_Return in Hrun as ([] & w1 & Hreset & Hrest).
  rewrite (IH _ _ Hrest). revert Hreset. unfold reset_transactionRef. unfold_M.
  destruct (edges w !! r) as [[i|c|res]|]; simpl; try done; by intros [= <-].
Qed.

Lemma finalize_identifiers w w' :
  _finalize w = Return tt w' → identifiers (graph w') = identifiers (graph w).
Proof.
  unfold _finalize. unfold bind at 1, this at 1.
  destruct (_transaction (graph w)) as [t|]; [|by intros [= <-]].
  intros Hrun. apply bind_Return in Hrun as ([] & w1 & Hreset & Hclose).
  apply for_each_reset_graph in Hreset. injection Hclose as <-. simpl.
  by rewrite Hreset.
Qed.

Lemma update_DeleteRecord_Return record w w' :
  update (DeleteRecord record) true w = Return tt w' →
  identifiers (graph w') !! record = None.
Proof.
  unfold update. unfold bind at 1, ret at 1. unfold bind at 1, assert at 1, ret at 1.
  unfold bind at 1, this at 1.
  destruct (identifiers (graph w) !! record) as [n|] eqn:Hn.
  2: { by intros [= <-]. }
  unfold bind at 1, read_node at 1. destruct (nodes w !! n) as [d|]; [|done].
  intros Hrun. apply bind_Return in Hrun as ([] & w1 & _ & Hdelete).
  injection Hdelete as <-. simpl. apply lookup_delete_eq.
Qed.

(** X11: a remote [deleteRecord] that returns has taken the record out of
    the node table, so [has] is false for each of its fields; and a flush
    whose queue holds just this deletion, once it returns, leaves the
    record without a node. *)
Theorem deleteRecord_removes_the_node record w w' :
  (update (DeleteRecord record) true w = Return tt w' →
   identifiers (graph w') !! record = None ∧
   ∀ propertyName, has record propertyName w' = Return false w') ∧
  (_willSyncRemote (graph w) = true →
   _pushedUpdates (graph w) = mkPushed [] [] [DeleteRecord record] →
   _flushRemoteQueue w = Return tt w' →
   identifiers (graph w') !! record = None ∧
   _transaction (graph w') = None ∧
   ∀ propertyName, has record propertyName w' = Return false w').
Proof.
  assert (Hhas : ∀ w0, identifiers (graph w0) !! record = None →
            ∀ p, has record p w0 = Return false w0).
  { intros w0 Hnone p. unfold has, bind, this. by rewrite Hnone. }
  split.
  - intros Hrun. apply update_DeleteRecord_Return in Hrun. auto.
  - intros Hflag Hqueue Hflush. rewrite flush_equation in Hflush by done.
    rewrite Hqueue in Hflush. simpl in Hflush.
    apply bind_Return in Hflush as ([] & w1 & Hdelete & Hrest).
    apply bind_Return in Hdelete as ([] & w2 & Hdelete & Hret).
    injection Hret as <-.
    apply update_DeleteRecord_Return in Hdelete.
    apply bind_Return in Hrest as ([] & ? & [= <-] & Hrest).
    apply bind_Return in Hrest as ([] & ? & [= <-] & Hfinalize).
    assert (Hnone : identifiers (graph w') !! record = None).
    { by rewrite (finalize_identifiers _ _ Hfinalize). }
    split; [done|]. split; [|by apply Hhas].
    revert Hfinalize. unfold _finalize. unfold bind at 1, this at 1.
    destruct (_transaction (graph w2)) as [t|] eqn:Ht; [|by intros [= <-]].
    intros Hrun. apply bind_Return in Hrun as ([] & w3 & _ & Hclose).
    by injection Hclose as <-.
Qed.

(** X21: an identifier without a node is no error: [has] is false,
    [isReleasable] is true, and [unload], [remove], a remote [deleteRecord]
    and [mergeIdentifiers] return with the world as it was. *)
Theorem unknown_identifiers_are_no_error identifier w :
  identifiers (graph w) !! identifier = None →
  (∀ propertyName, has identifier propertyName w = Return false w) ∧
  isReleasable identifier w = Return true w ∧
  (∀ silenceNotifications, unload identifier silenceNotifications w = Return tt w) ∧
  update (DeleteRecord identifier) true w = Return tt w ∧
  (∀ value isRemote, update (MergeIdentifiers identifier value) isRemote w = Return tt w) ∧
  (_removing (graph w) = None → remove identifier w = Return tt w).
Proof.
  intros Hnone. split; [|split; [|split; [|split; [|split]]]].
  - intros p. unfold has, bind, this. by rewrite Hnone.
  - unfold isReleasable, bind, this. by rewrite Hnone.
  - intros s. unfold unload, bind, this. by rewrite Hnone.
  - unfold update. unfold_M. by rewrite Hnone.
  - intros value isRemote. unfold update. unfold_M. by rewrite Hnone.
  - intros Hremoving. unfold remove, unload. unfold_M. rewrite Hremoving. simpl.
    rewrite Hnone. simpl. rewrite delete_id by done.
    destruct w as [g ? ? ? ?]. destruct g. simpl in *. by subst.
Qed.

(** X24: a hasMany field that [getData] has to create reads as a payload
    without data, links or meta, and the edge is in the graph afterwards. *)
Theorem getData_of_a_new_collection_is_empty identifier propertyName w p w' :
  edge_at w identifier propertyName = None →
  getData identifier propertyName w = Return (CollectionPayload p) w' →
  p = mkCollectionPayload None None None ∧
  has identifier propertyName w' = Return true w'.
Proof.
  intros Hnone. unfold getData. intros Hrun.
  apply bind_Return in Hrun as (r & w1 & Hget & Hrun).
  pose proof (get_Return_edge_at _ _ _ _ _ Hget) as Hat.
  apply get_Return_shape in Hget
    as [[Hsome _]|(e & n & d & -> & He & Hshape & _)]; [congruence|].
  apply bind_Return in Hrun as (e0 & w2 & Hread & Hrun).
  revert Hread. unfold read_edge. rewrite He, lookup_insert_eq. intros [= <- <-].
  destruct Hshape as [meta i|meta i|meta i]; simpl in Hrun; [done| |done].
  revert Hrun. unfold_M. intros [= <- <-]. split; [done|].
  by apply has_true with (fresh (dom (edges w))).
Qed.

(** ** Queuing remote operations *)

Lemma queued_enqueue b op g g' :
  _pushedUpdates g' = _pushedUpdates (enqueue b op g) → queued g' = S (queued g).
Proof.
  unfold queued. intros ->. destruct b; simpl; rewrite length_app; simpl; lia.
Qed.

(** X12: a run of pushes that returns has put every operation into a
    bucket, and has asked the scheduler for one flush at most: for none
    when a flush was already requested or nothing was pushed. *)
Theorem pushes_share_one_flush ops : ∀ w w',
  for_each ops push w = Return tt w' →
  queued (graph w') = queued (graph w) + length ops ∧
  _willSyncRemote (graph w')
  = _willSyncRemote (graph w) || negb (bool_decide (ops = [])) ∧
  scheduled w'
  = if _willSyncRemote (graph w) || bool_decide (ops = []) then scheduled w
    else scheduled w ++ [("coalesce", FlushRemoteQueue)].
Proof.
  induction ops as [|op ops IH]; intros w w'; cbn [for_each].
  - intros [= <-]. rewrite bool_decide_eq_true_2 by done. simpl.
    rewrite orb_false_r, orb_true_r. split; [lia|done].
  - intros Hrun. apply bind_Return in Hrun as ([] & w1 & Hpush & Hrest).
    destruct (push_Return _ _ _ Hpush) as [Hflag Hsched].
    destruct (push_Return_bucket _ _ _ Hpush) as (b & Hb & _).
    destruct (IH _ _ Hrest) as (Hq & Hf & Hs).
    rewrite (queued_enqueue _ _ _ _ Hb) in Hq.
    rewrite Hflag in Hf, Hs. simpl in Hf, Hs.
    rewrite bool_decide_eq_false_2 by done. simpl. rewrite orb_true_r, orb_false_r.
    split; [lia|]. split; [done|]. by rewrite Hs, Hsched.
Qed.

(** X22: on a graph without a store (a destroyed one) the first push still
    puts its operation into the bucket and raises the flag, and then fails
    on the missing store; so every later push is queued and returns, and no
    flush is scheduled for any of them. *)
Theorem push_without_a_store_queues_and_fails op w :
  match op with DeleteRecord _ | ReplaceRelatedRecord _ _ _ => True | _ => False end →
  store (graph w) = None →
  _willSyncRemote (graph w) = false →
  ∃ w1, push op w = Throw (TypeError "store is null") w1 ∧
    queued (graph w1) = S (queued (graph w)) ∧
    _willSyncRemote (graph w1) = true ∧
    scheduled w1 = scheduled w ∧
    ∀ op',
      match op' with DeleteRecord _ | ReplaceRelatedRecord _ _ _ => True | _ => False end →
      ∃ w2, push op' w1 = Return tt w2 ∧
        queued (graph w2) = S (queued (graph w1)) ∧
        scheduled w2 = scheduled w.
Proof.
  intros Hop Hstore Hflag.
  destruct op; try done; unfold push; unfold_M; simpl; rewrite Hflag; simpl;
    rewrite Hstore; (eexists; split; [done|]); unfold queued; simpl;
    rewrite length_app; simpl; (split; [lia|]); (split; [done|]); (split; [done|]);
    intros op' Hop'; destruct op'; try done; simpl;
    (eexists; split; [done|]); simpl; rewrite !length_app; simpl; (split; [lia|done]).
Qed.

(** X20: [destroy] cancels nothing: the nodes, the edges, the three buckets,
    the set of relationships to reconcile, both flags, the transaction and
    the scheduler's queue are as before, so a flush that was requested
    still applies the queued operations to the destroyed graph. *)
Theorem destroy_cancels_nothing w s :
  store (graph w) = Some s →
  ∃ w', destroy w = Return tt w' ∧
    nodes w' = nodes w ∧ edges w' = edges w ∧ scheduled w' = scheduled w ∧
    _pushedUpdates (graph w') = _pushedUpdates (graph w) ∧
    _updatedRelationships (graph w') = _updatedRelationships (graph w) ∧
    _willSyncRemote (graph w') = _willSyncRemote (graph w) ∧
    _willSyncLocal (graph w') = _willSyncLocal (graph w) ∧
    _transaction (graph w') = _transaction (graph w) ∧
    (_willSyncRemote (graph w) = true →
     _flushRemoteQueue w'
     = (for_each (pushed_deletions (_pushedUpdates (graph w))) (λ op, update op true) >>
        for_each (pushed_hasMany (_pushedUpdates (graph w))) (λ op, update op true) >>
        for_each (pushed_belongsTo (_pushedUpdates (graph w))) (λ op, update op true) >>
        _finalize) (flush_started w')).
Proof.
  intros Hs. unfold destroy, Graphs_delete, DEBUG. unfold_M. rewrite !Hs. simpl.
  rewrite Hs. eexists. split; [done|]. simpl. repeat (split; [done|]).
  intros Hflag. by rewrite flush_equation.
Qed.

(** ** Reconciling local state *)

Lemma scheduleLocalSync_set relationship w w' :
  _scheduleLocalSync relationship w = Return tt w' →
  _updatedRelationships (graph w')
  = set_add relationship (_updatedRelationships (graph w)).
Proof.
  unfold _scheduleLocalSync. unfold_M. simpl.
  destruct (_willSyncLocal (graph w)); simpl; [by intros [= <-]|].
  destruct (store (graph w)); [|done]. by intros [= <-].
Qed.

Lemma NoDup_set_add {A} `{EqDecision A} (x : A) s : NoDup s → NoDup (set_add x s).
Proof.
  intros Hs. unfold set_add. destruct (decide (x ∈ s)); [done|].
  apply NoDup_app. split; [done|]. split; [|apply NoDup_singleton].
  intros y Hy Hx. apply list_elem_of_singleton in Hx as ->. done.
Qed.

(** X13: to schedule the reconciliation of a relationship a second time
    changes nothing: the relationship is in the set once, and the flush
    that was requested stays the only one. *)
Theorem scheduleLocalSync_twice_is_once relationship w w1 :
  _scheduleLocalSync relationship w = Return tt w1 →
  _scheduleLocalSync relationship w1 = Return tt w1.
Proof.
  intros Hrun. destruct (scheduleLocalSync_Return _ _ _ Hrun) as (Hin & Hflag & _).
  unfold _scheduleLocalSync. unfold_M. simpl. unfold set_add.
  rewrite decide_True by done. rewrite Hflag. simpl. f_equal.
  destruct w1 as [g ? ? ? ?]. by destruct g.
Qed.

(** X14: however often and in whatever order relationships are scheduled,
    the set that the local flush walks holds each of them once, one flush
    is requested for all, and the flush hands each to [syncRemoteToLocal]
    once, starting from an empty set with the flag down. *)
Theorem local_flush_visits_each_relationship_once rs : ∀ w w',
  NoDup (_updatedRelationships (graph w)) →
  for_each rs _scheduleLocalSync w = Return tt w' →
  NoDup (_updatedRelationships (graph w')) ∧
  (∀ r, r ∈ _updatedRelationships (graph w')
        ↔ r ∈ _updatedRelationships (graph w) ∨ r ∈ rs) ∧
  scheduled w'
  = (if _willSyncLocal (graph w) || bool_decide (rs = []) then scheduled w
     else scheduled w ++ [("sync", FlushLocalQueue)]) ∧
  (rs ≠ [] →
   _flushLocalQueue w'
   = for_each (_updatedRelationships (graph w')) syncRemoteToLocal
       (local_flush_started w')).
Proof.
  induction rs as [|r rs IH]; intros w w' Hnodup; cbn [for_each].
  - intros [= <-]. rewrite bool_decide_eq_true_2 by done. rewrite orb_true_r.
    split; [done|]. split; [|done]. intros r. rewrite elem_of_nil. tauto.
  - intros Hrun. apply bind_Return in Hrun as ([] & w1 & Hone & Hrest).
    pose proof (scheduleLocalSync_set _ _ _ Hone) as Hset.
    destruct (scheduleLocalSync_Return _ _ _ Hone) as (_ & Hflag & Hsched).
    assert (Hnodup1 : NoDup (_updatedRelationships (graph w1))).
    { rewrite Hset. by apply NoDup_set_add. }
    destruct (IH _ _ Hnodup1 Hrest) as (Hnd & Hmem & Hs & Hflush).
    rewrite Hflag in Hs. simpl in Hs.
    rewrite bool_decide_eq_false_2 by done. rewrite orb_false_r.
    split; [done|]. split; [|split].
    + intros r0. rewrite Hmem, Hset, elem_of_set_add, elem_of_cons. tauto.
    + by rewrite Hs, Hsched.
    + intros _. destruct rs as [|r' rs].
      * injection Hrest as <-. by apply local_flush_equation.
      * by apply Hflush.
Qed.

(** ** Removing members *)

(** X15: when the local set has a value that the local sequence has lost,
    [removeRelatedRecord] fails its assertion after it has taken the value
    out of the set: the inverse is not visited, and a second try finds the
    value gone and returns. *)
Theorem removeRelatedRecord_out_of_sync relationship c record value isRemote w :
  edges w !! relationship = Some (CollectionEdge c) →
  value ∈ Collection.localMembers c →
  value ∉ Collection.localState c →
  let w1 :=
    set_edges
      (<[relationship :=
           CollectionEdge
             (Collection.with_local (Collection.localMembers c ∖ {[value]})
                (Collection.localState c) c)]> (edges w)) w in
  removeRelatedRecord relationship record value isRemote w
  = Throw (AssertionFailed "expected localMembers and localState to be in sync") w1 ∧
  removeRelatedRecord relationship record value isRemote w1 = Return tt w1.
Proof.
  intros He Hin Hout w1. split.
  - unfold removeRelatedRecord. unfold bind at 1, read_edge at 1. rewrite He.
    rewrite bool_decide_eq_true_2 by done. simpl.
    unfold bind at 1, write_edge at 1.
    by rewrite (proj2 (indexOf_None _ _) Hout).
  - eapply removeRelatedRecord_absent.
    + subst w1. simpl. apply lookup_insert_eq.
    + simpl. rewrite elem_of_difference, elem_of_singleton. by intros [_ ?].
Qed.

Lemma filter_absent (v : Identifier) (l : list Identifier) :
  v ∉ l → filter (λ x, x ≠ v) l = l.
Proof.
  induction l as [|x l IH]; [done|]. rewrite not_elem_of_cons. intros [Hne Hl].
  rewrite filter_cons_True by done. by rewrite IH.
Qed.

Lemma splice1_indexOf_filter v (l : list Identifier) : ∀ index,
  NoDup l → indexOf v l = Some index → splice1 index l = filter (λ x, x ≠ v) l.
Proof.
  induction l as [|x l IH]; intros index Hnd; [done|].
  apply NoDup_cons in Hnd as [Hx Hnd]. cbn [indexOf].
  destruct (decide (x = v)) as [->|Hne].
  - intros [= <-]. unfold splice1. simpl. rewrite drop_0.
    rewrite filter_cons_False by (intros ?; done). by rewrite filter_absent.
  - destruct (indexOf v l) as [i|] eqn:Hi; [|done]. simpl. intros [= <-].
    rewrite filter_cons_True by done. unfold splice1. simpl.
    f_equal. by apply IH.
Qed.

(** X16: [removeRelatedRecord] on an edge whose local side is in step hands
    to [removeFromInverse] an edge from which only the value is gone: the
    members that stay keep their order, and the edge is in step again. *)
Theorem removeRelatedRecord_keeps_the_order relationship c record value isRemote w :
  edges w !! relationship = Some (CollectionEdge c) →
  in_sync c →
  value ∈ Collection.localMembers c →
  ∃ c',
    removeRelatedRecord relationship record value isRemote w
    = removeFromInverse value (inverseKey (Collection.definition c)) record isRemote
        (set_edges (<[relationship := CollectionEdge c']> (edges w)) w) ∧
    Collection.localState c' = filter (λ x, x ≠ value) (Collection.localState c) ∧
    Collection.localMembers c' = Collection.localMembers c ∖ {[value]} ∧
    in_sync c'.
Proof.
  intros He Hsync Hin. exists (without_local value c).
  split; [|split; [|split]].
  - rewrite (removeRelatedRecord_in_sync _ c) by done. by rewrite decide_True.
  - destruct Hsync as [[Hnd Hmem] _]. unfold without_local.
    rewrite decide_True by done.
    destruct (indexOf value (Collection.localState c)) as [index|] eqn:Hindex.
    + simpl. by apply splice1_indexOf_filter.
    + apply indexOf_None in Hindex. by apply Hmem in Hin.
  - destruct Hsync as [[Hnd Hmem] _]. unfold without_local.
    rewrite decide_True by done.
    destruct (indexOf value (Collection.localState c)) as [index|] eqn:Hindex; [done|].
    apply indexOf_None in Hindex. by apply Hmem in Hin.
  - by apply without_local_in_sync.
Qed.

Lemma removeFromRelatedRecords_on_another_edge
    record field value isRemote w relationship e :
  field ≠ "" →
  edge_at w record field = Some relationship →
  edges w !! relationship = Some e →
  isHasMany e = false →
  removeFromRelatedRecords record field value isRemote w
  = Throw (AssertionFailed
             "You can only 'removeFromRelatedRecords' on a hasMany relationship") w.
Proof.
  intros Hfield Hat He Hkind.
  unfold removeFromRelatedRecords. unfold bind at 1.
  rewrite (get_existing _ _ _ relationship) by done.
  unfold bind at 1, read_edge at 1. rewrite He.
  unfold bind at 1. by rewrite Hkind.
Qed.

(** X17: [removeFromRelatedRecords] aimed at an edge that is in the graph
    and is not a hasMany edge fails its assertion before anything is
    written; through [update] an implicit edge fails the assertion of
    [update] first. *)
Theorem removeFromRelatedRecords_wants_a_hasMany_edge
    record field value isRemote w relationship e :
  field ≠ "" →
  edge_at w record field = Some relationship →
  edges w !! relationship = Some e →
  isHasMany e = false →
  removeFromRelatedRecords record field value isRemote w
  = Throw (AssertionFailed
             "You can only 'removeFromRelatedRecords' on a hasMany relationship") w ∧
  update (RemoveFromRelatedRecords record field value) isRemote w
  = Throw (AssertionFailed
             (if isImplicit e then "Cannot update an implicit relationship"
              else "You can only 'removeFromRelatedRecords' on a hasMany relationship")) w.
Proof.
  intros Hfield Hat He Hkind.
  pose proof (removeFromRelatedRecords_on_another_edge record field value isRemote
                w relationship e Hfield Hat He Hkind) as Hremove.
  split; [done|]. unfold update. unfold bind at 1. simpl.
  unfold bind at 1. rewrite (get_existing _ _ _ relationship) by done.
  unfold bind at 1, read_edge at 1. rewrite He.
  destruct e as [i|c|r]; simpl; [done|done|]. exact Hremove.
Qed.

(** X19: an operation that fails in the middle of a flush ends the flush
    there: here a [removeFromRelatedRecords] that was queued for a belongsTo
    edge.  The operations behind it are gone from the buckets without having
    been applied, the transaction stays open, and a second flush does
    nothing. *)
Theorem a_failed_update_aborts_the_flush record field value rest w relationship r :
  _willSyncRemote (graph w) = true →
  _pushedUpdates (graph w)
  = mkPushed (RemoveFromRelatedRecords record field value :: rest) [] [] →
  field ≠ "" →
  edge_at w record field = Some relationship →
  edges w !! relationship = Some (ResourceEdge r) →
  _flushRemoteQueue w
  = Throw (AssertionFailed
             "You can only 'removeFromRelatedRecords' on a hasMany relationship")
      (flush_started w) ∧
  _transaction (graph (flush_started w)) = Some [] ∧
  queued (graph (flush_started w)) = 0 ∧
  _flushRemoteQueue (flush_started w) = Return tt (flush_started w).
Proof.
  intros Hflag Hqueue Hfield Hat He.
  split; [|split; [done|split; [done|by apply flushRemoteQueue_idle]]].
  rewrite flush_equation by done. rewrite Hqueue. cbn [for_each pushed_deletions
    pushed_hasMany pushed_belongsTo].
  assert (Hupdate :
    update (RemoveFromRelatedRecords record field value) true (flush_started w)
    = Throw (AssertionFailed
               "You can only 'removeFromRelatedRecords' on a hasMany relationship")
        (flush_started w)).
  { unfold update. unfold bind at 1. simpl.
    unfold bind at 1. rewrite (get_existing _ _ _ relationship) by done.
    unfold bind at 1, read_edge at 1.
    change (edges (flush_started w)) with (edges w). rewrite He. simpl.
    by apply (removeFromRelatedRecords_on_another_edge _ _ _ _ _ relationship
                (ResourceEdge r)). }
  unfold bind, ret. by rewrite Hupdate.
Qed.

Lemma for_each_app {A} (xs ys : list A) (body : A → M unit) w :
  for_each (xs ++ ys) body w = (for_each xs body >> for_each ys body) w.
Proof.
  revert w. induction xs as [|x xs IH]; intros w; [done|].
  cbn [app for_each]. unfold bind. destruct (body x w) as [[] w1|e w1]; [|done].
  apply IH.
Qed.

Section Repeated.

Hypothesis removeFromInverse_only_removes : ∀ identifier key value isRemote w w',
  removeFromInverse identifier key value isRemote w = Return tt w' →
  only_removes w w'.

Lemma for_each_removeRelatedRecord_repeated relationship record isRemote v vs w :
  v ∈ vs →
  for_each (vs ++ [v]) (λ v, removeRelatedRecord relationship record v isRemote) w
  = for_each vs (λ v, removeRelatedRecord relationship record v isRemote) w.
Proof.
  intros Hin. rewrite for_each_app. unfold bind at 1.
  destruct (for_each vs _ w) as [[] w1|e w1] eqn:Hrun; [|done].
  assert (Hgone : ∃ c, edges w1 !! relationship = Some (CollectionEdge c) ∧
                       v ∉ Collection.localMembers c).
  { destruct vs as [|x vs]; [by apply elem_of_nil in Hin|].
    cbn [for_each] in Hrun.
    apply bind_Return in Hrun as ([] & w0 & Hfirst & Hrest).
    destruct (removeRelatedRecord_only_removes removeFromInverse_only_removes
                _ _ _ _ _ _ Hfirst) as (_ & c0 & He0 & Hx).
    destruct (for_each_removeRelatedRecord_only_removes removeFromInverse_only_removes
                _ _ _ _ _ _ _ He0 Hrest) as ((_ & Hsub) & c1 & He1 & Hvs).
    exists c1. split; [done|].
    apply elem_of_cons in Hin as [->|Hin]; [|by apply Hvs].
    destruct (Hsub _ _ He0) as (c' & He' & Hc'). rewrite He1 in He'.
    injection He' as <-. intros Hx1. apply Hx. by apply Hc'. }
  destruct Hgone as (c & He & Hv). cbn [for_each]. unfold bind, ret.
  by rewrite (removeRelatedRecord_absent _ c).
Qed.

(** X18: a value that is named a second time in the list of a
    [removeFromRelatedRecords] makes no difference: the result and the
    world are those of the list without the repetition. *)
Theorem removeFromRelatedRecords_ignores_a_repeated_value
    record field vs v isRemote w :
  v ∈ vs →
  removeFromRelatedRecords record field (Many (vs ++ [v])) isRemote w
  = removeFromRelatedRecords record field (Many vs) isRemote w.
Proof.
  intros Hin. unfold removeFromRelatedRecords. unfold bind.
  destruct (get record field w) as [r w0|]; [|done].
  destruct (read_edge r w0) as [e w1|]; [|done].
  destruct (assert _ (isHasMany e) w1) as [[] w2|]; [|done].
  by rewrite for_each_removeRelatedRecord_repeated.
Qed.

End Repeated.

(** ** The transaction *)

Lemma set_add_idempotent {A} `{EqDecision A} (x : A) s :
  set_add x (set_add x s) = set_add x s.
Proof.
  unfold set_add at 1. rewrite decide_True; [done|].
  apply elem_of_set_add. by left.
Qed.

Lemma addToTransaction_run relationship w e t :
  _transaction (graph w) = Some t →
  edges w !! relationship = Some e →
  isImplicit e = false →
  ∃ w' e', _addToTransaction relationship w = Return tt w' ∧
    edges w' = <[relationship := e']> (edges w) ∧
    isImplicit e' = false ∧
    edge_transactionRef e' = S (edge_transactionRef e) ∧
    _transaction (graph w') = Some (set_add relationship t).
Proof.
  intros Ht He Himplicit. unfold _addToTransaction. unfold_M. rewrite Ht, He.
  destruct e as [i|c|r]; [done| |]; simpl; rewrite Ht; by eexists _, _.
Qed.

(** X23: outside a transaction [_addToTransaction] fails and writes
    nothing.  Inside one, every call on an edge raises its
    [transactionRef] by one, while the transaction holds the edge once. *)
Theorem addToTransaction_counts_the_calls relationship k :
  (∀ w, _transaction (graph w) = None →
     _addToTransaction relationship w
     = Throw (AssertionFailed "expected a transaction") w) ∧
  ∀ w e t,
    _transaction (graph w) = Some t →
    edges w !! relationship = Some e →
    isImplicit e = false →
    ∃ w' e',
      for_each (replicate (S k) relationship) _addToTransaction w = Return tt w' ∧
      edges w' = <[relationship := e']> (edges w) ∧
      isImplicit e' = false ∧
      edge_transactionRef e' = edge_transactionRef e + S k ∧
      _transaction (graph w') = Some (set_add relationship t).
Proof.
  split.
  { intros w Ht. unfold _addToTransaction. unfold_M. by rewrite Ht. }
  induction k as [|k IH]; intros w e t Ht He Himplicit.
  - destruct (addToTransaction_run _ _ _ _ Ht He Himplicit)
      as (w' & e' & Hrun & He' & Hi' & Href & Ht').
    exists w', e'. cbn [replicate for_each]. unfold bind. rewrite Hrun.
    repeat (split; [done|]). split; [lia|done].
  - destruct (addToTransaction_run _ _ _ _ Ht He Himplicit)
      as (w1 & e1 & Hrun & He1 & Hi1 & Href1 & Ht1).
    assert (Hat1 : edges w1 !! relationship = Some e1).
    { rewrite He1. apply lookup_insert_eq. }
    destruct (IH _ _ _ Ht1 Hat1 Hi1) as (w' & e' & Hrest & He' & Hi' & Href & Ht').
    exists w', e'. change (replicate (S (S k)) relationship)
      with (relationship :: replicate (S k) relationship).
    cbn [for_each]. unfold bind at 1. rewrite Hrun. split; [done|].
    split. { by rewrite He', He1, insert_insert_eq. }
    split; [done|]. split; [lia|]. by rewrite Ht', set_add_idempotent.
Qed.

End Extras.

(** * The further properties on the example *)

Lemma isReleasable_witness :
  ∃ b, isReleasable post1 blog_world = Return b blog_world ∧
    (b = true ↔
     ∀ k r e, dict_get k [("comments", Some 1%positive)] = Some r →
              edges blog_world !! r = Some e →
              inverseIsAsync (edge_definition e) = false).
Proof.
  apply (isReleasable_true_iff_no_async_inverse post1 1%positive
           [("comments", Some 1%positive)] blog_world).
  - vm_compute; reflexivity.
  - vm_compute; reflexivity.
  - intros k Hk. apply list_elem_of_singleton in Hk as ->.
    eexists _, _. split; vm_compute; reflexivity.
Defined.

Lemma vacated_slot_witness :
  isReleasable comment2 (final (unload comment2 None blog_world_implicit))
  = Throw (AssertionFailed "Expected a relationship")
      (final (unload comment2 None blog_world_implicit)).
Proof.
  apply (isReleasable_asserts_on_a_vacated_slot comment2 3%positive [("post", None)]
           (final (unload comment2 None blog_world_implicit)) [] "post" []).
  - vm_compute; reflexivity.
  - vm_compute; reflexivity.
  - reflexivity.
  - intros k' Hk'. by apply elem_of_nil in Hk'.
  - reflexivity.
Defined.

Lemma unload_witness :
  identifiers (graph (final (unload comment2 None blog_world_implicit)))
  = identifiers (graph blog_world_implicit) ∧
  ∃ d', nodes (final (unload comment2 None blog_world_implicit)) !! 3%positive = Some d' ∧
    dict_keys d' = dict_keys [("post", Some 3%positive)] ∧
    (∀ k, dict_get k d'
          = unloaded_slot blog_world_implicit (dict_get k [("post", Some 3%positive)])) ∧
    (∀ k, has comment2 k (final (unload comment2 None blog_world_implicit))
          = Return (bool_decide (is_Some (unloaded_slot blog_world_implicit
                                            (dict_get k [("post", Some 3%positive)]))))
              (final (unload comment2 None blog_world_implicit))).
Proof.
  apply (unload_vacates_the_implicit_slots comment2 None 3%positive
           [("post", Some 3%positive)] blog_world_implicit).
  - intros rel s w a w' Hrun. injection Hrun as _ <-. done.
  - vm_compute; reflexivity.
  - vm_compute; reflexivity.
  - vm_compute; reflexivity.
Defined.

Lemma get_failure_witness :
  ∃ w', get post2 "title" blog_world
        = Throw (AssertionFailed "Could not determine relationship information") w' ∧
    nodes w' !! fresh (dom (nodes blog_world)) = Some [] ∧
    has post2 "title" w' = Return false w'.
Proof.
  destruct (proj2 (get_fails_without_a_definition post2 "title" blog_world
              (upgradeDefinition
                 (set_identifiers
                    (<[post2 := fresh (dom (nodes blog_world))]>
                       (identifiers (graph blog_world))) (graph blog_world))
                 post2 "title").2))
    as (w' & Hthrow & _ & Hnode & _ & _ & Hhas).
  - done.
  - vm_compute; reflexivity.
  - reflexivity.
  - exists w'. repeat split; assumption.
Defined.

Lemma get_frame_witness :
  (∀ identifier' propertyName' r,
     edge_at blog_world identifier' propertyName' = Some r →
     edge_at (final (get comment2 "post" blog_world)) identifier' propertyName' = Some r) ∧
  (∀ r e, edges blog_world !! r = Some e →
          edges (final (get comment2 "post" blog_world)) !! r = Some e).
Proof.
  apply (get_keeps_the_existing_edges comment2 "post" blog_world
           (fresh (dom (edges blog_world)))).
  vm_compute; reflexivity.
Defined.

Lemma getData_witness :
  getData comment2 "post" blog_world_implicit
  = Throw (AssertionFailed "Cannot getData() on an implicit relationship")
      blog_world_implicit.
Proof.
  apply (getData_by_the_shape_of_the_edge comment2 "post" blog_world_implicit
           3%positive (ImplicitEdge blog_implicit)).
  - done.
  - vm_compute; reflexivity.
  - vm_compute; reflexivity.
Defined.

Lemma implicit_edge_witness :
  (∀ isRemote,
     update (RemoveFromRelatedRecords comment2 "post" (One post1)) isRemote
       blog_world_implicit
     = Throw (AssertionFailed "Cannot update an implicit relationship")
         blog_world_implicit) ∧
  push (RemoveFromRelatedRecords comment2 "post" (One post1)) blog_world_implicit
  = Throw (AssertionFailed "Cannot push a remote update for an implicit relationship")
      blog_world_implicit.
Proof.
  apply (implicit_edges_take_no_operations
           (RemoveFromRelatedRecords comment2 "post" (One post1))
           3%positive blog_implicit blog_world_implicit).
  - exact I.
  - done.
  - vm_compute; reflexivity.
  - vm_compute; reflexivity.
Defined.

Lemma deleteRecord_witness :
  identifiers (graph (final (update (DeleteRecord comment1) true blog_world))) !! comment1
  = None ∧
  ∀ propertyName,
    has comment1 propertyName (final (update (DeleteRecord comment1) true blog_world))
    = Return false (final (update (DeleteRecord comment1) true blog_world)).
Proof.
  apply (proj1 (deleteRecord_removes_the_node comment1 blog_world
                  (final (update (DeleteRecord comment1) true blog_world)))).
  vm_compute; reflexivity.
Defined.

Lemma pushes_witness :
  queued (graph (final (for_each [delete_comment1; replace_post] push blog_world)))
  = queued (graph blog_world) + 2 ∧
  _willSyncRemote
    (graph (final (for_each [delete_comment1; replace_post] push blog_world)))
  = _willSyncRemote (graph blog_world)
    || negb (bool_decide ([delete_comment1; replace_post] = [])) ∧
  scheduled (final (for_each [delete_comment1; replace_post] push blog_world))
  = if _willSyncRemote (graph blog_world)
       || bool_decide ([delete_comment1; replace_post] = [])
    then scheduled blog_world
    else scheduled blog_world ++ [("coalesce", FlushRemoteQueue)].
Proof.
  apply (pushes_share_one_flush [delete_comment1; replace_post] blog_world
           (final (for_each [delete_comment1; replace_post] push blog_world))).
  vm_compute; reflexivity.
Defined.

Lemma scheduleLocalSync_witness :
  _scheduleLocalSync 1%positive (final (_scheduleLocalSync 1%positive blog_world))
  = Return tt (final (_scheduleLocalSync 1%positive blog_world)).
Proof.
  apply (scheduleLocalSync_twice_is_once 1%positive blog_world).
  vm_compute; reflexivity.
Defined.

Lemma local_flush_witness :
  NoDup (_updatedRelationships
           (graph (final (for_each [1%positive; 2%positive; 1%positive]
                            _scheduleLocalSync blog_world)))) ∧
  scheduled (final (for_each [1%positive; 2%positive; 1%positive]
                      _scheduleLocalSync blog_world))
  = [("sync", FlushLocalQueue)].
Proof.
  destruct (local_flush_visits_each_relationship_once
              [1%positive; 2%positive; 1%positive] blog_world
              (final (for_each [1%positive; 2%positive; 1%positive]
                        _scheduleLocalSync blog_world)))
    as (Hnodup & _ & Hscheduled & _).
  - apply NoDup_nil_2.
  - vm_compute; reflexivity.
  - split; [exact Hnodup|exact Hscheduled].
Defined.

Lemma out_of_sync_witness :
  removeRelatedRecord 1%positive post1 comment1 false blog_world_out_of_sync
  = Throw (AssertionFailed "expected localMembers and localState to be in sync")
      (final (removeRelatedRecord 1%positive post1 comment1 false
                blog_world_out_of_sync)) ∧
  removeRelatedRecord 1%positive post1 comment1 false
    (final (removeRelatedRecord 1%positive post1 comment1 false blog_world_out_of_sync))
  = Return tt
      (final (removeRelatedRecord 1%positive post1 comment1 false
                blog_world_out_of_sync)).
Proof.
  apply (removeRelatedRecord_out_of_sync 1%positive blog_comments_out_of_sync
           post1 comment1 false blog_world_out_of_sync).
  - vm_compute; reflexivity.
  - apply elem_of_union_l, elem_of_singleton. reflexivity.
  - intros Hin. apply list_elem_of_singleton in Hin. discriminate Hin.
Defined.

Lemma order_witness :
  ∃ c',
    removeRelatedRecord 1%positive post1 comment1 false blog_world
    = removeFromInverse comment1 (inverseKey (Collection.definition blog_comments))
        post1 false
        (set_edges (<[1%positive := CollectionEdge c']> (edges blog_world)) blog_world) ∧
    Collection.localState c'
    = filter (λ x, x ≠ comment1) (Collection.localState blog_comments) ∧
    Collection.localMembers c' = Collection.localMembers blog_comments ∖ {[comment1]} ∧
    in_sync c'.
Proof.
  apply (removeRelatedRecord_keeps_the_order 1%positive blog_comments post1 comment1
           false blog_world).
  - vm_compute; reflexivity.
  - exact blog_comments_in_sync.
  - apply elem_of_union_l, elem_of_singleton. reflexivity.
Defined.

Lemma hasMany_only_witness :
  removeFromRelatedRecords comment1 "post" (One post1) false blog_world
  = Throw (AssertionFailed
             "You can only 'removeFromRelatedRecords' on a hasMany relationship")
      blog_world ∧
  update remove_from_post false blog_world
  = Throw (AssertionFailed
             "You can only 'removeFromRelatedRecords' on a hasMany relationship")
      blog_world.
Proof.
  apply (removeFromRelatedRecords_wants_a_hasMany_edge comment1 "post" (One post1)
           false blog_world 2%positive (ResourceEdge blog_post)).
  - done.
  - vm_compute; reflexivity.
  - vm_compute; reflexivity.
  - reflexivity.
Defined.

Lemma repeated_value_witness :
  removeFromRelatedRecords post1 "comments" (Many ([comment1] ++ [comment1])) false
    blog_world
  = removeFromRelatedRecords post1 "comments" (Many [comment1]) false blog_world.
Proof.
  apply (removeFromRelatedRecords_ignores_a_repeated_value
           blog_removeFromInverse_only_removes).
  apply elem_of_cons. by left.
Defined.

Lemma aborted_flush_witness :
  _flushRemoteQueue (final (push remove_from_post blog_world))
  = Throw (AssertionFailed
             "You can only 'removeFromRelatedRecords' on a hasMany relationship")
      (flush_started (final (push remove_from_post blog_world))) ∧
  _transaction (graph (flush_started (final (push remove_from_post blog_world))))
  = Some [] ∧
  queued (graph (flush_started (final (push remove_from_post blog_world)))) = 0 ∧
  _flushRemoteQueue (flush_started (final (push remove_from_post blog_world)))
  = Return tt (flush_started (final (push remove_from_post blog_world))).
Proof.
  apply (a_failed_update_aborts_the_flush comment1 "post" (One post1) []
           (final (push remove_from_post blog_world)) 2%positive blog_post).
  - vm_compute; reflexivity.
  - vm_compute; reflexivity.
  - done.
  - vm_compute; reflexivity.
  - vm_compute; reflexivity.
Defined.

Lemma destroy_frame_witness :
  ∃ w', destroy blog_queued = Return tt w' ∧
    nodes w' = nodes blog_queued ∧ edges w' = edges blog_queued ∧
    scheduled w' = scheduled blog_queued ∧
    _pushedUpdates (graph w') = _pushedUpdates (graph blog_queued).
Proof.
  destruct (destroy_cancels_nothing blog_queued 1%positive)
    as (w' & Hrun & Hnodes & Hedges & Hscheduled & Hqueue & _).
  - vm_compute; reflexivity.
  - exists w'. repeat split; assumption.
Defined.

Lemma unknown_identifier_witness :
  (∀ propertyName, has post2 propertyName blog_world = Return false blog_world) ∧
  isReleasable post2 blog_world = Return true blog_world ∧
  (∀ silenceNotifications,
     unload post2 silenceNotifications blog_world = Return tt blog_world) ∧
  update (DeleteRecord post2) true blog_world = Return tt blog_world ∧
  (∀ value isRemote,
     update (MergeIdentifiers post2 value) isRemote blog_world = Return tt blog_world) ∧
  (_removing (graph blog_world) = None → remove post2 blog_world = Return tt blog_world).
Proof.
  apply (unknown_identifiers_are_no_error post2 blog_world).
  vm_compute; reflexivity.
Defined.

Lemma push_without_a_store_witness :
  ∃ w1, push delete_comment1 (final (destroy blog_world))
        = Throw (TypeError "store is null") w1 ∧
    queued (graph w1) = S (queued (graph (final (destroy blog_world)))) ∧
    _willSyncRemote (graph w1) = true ∧
    scheduled w1 = scheduled (final (destroy blog_world)).
Proof.
  destruct (push_without_a_store_queues_and_fails delete_comment1
              (final (destroy blog_world)))
    as (w1 & Hthrow & Hqueued & Hflag & Hscheduled & _).
  - exact I.
  - vm_compute; reflexivity.
  - vm_compute; reflexivity.
  - exists w1. repeat split; assumption.
Defined.

Lemma addToTransaction_witness :
  ∃ w' e',
    for_each (replicate 2 1%positive) _addToTransaction (flush_started blog_world)
    = Return tt w' ∧
    edges w' = <[1%positive := e']> (edges (flush_started blog_world)) ∧
    isImplicit e' = false ∧
    edge_transactionRef e' = edge_transactionRef (CollectionEdge blog_comments) + 2 ∧
    _transaction (graph w') = Some (set_add 1%positive []).
Proof.
  apply (proj2 (addToTransaction_counts_the_calls 1%positive 1)
           (flush_started blog_world) (CollectionEdge blog_comments) []).
  - reflexivity.
  - vm_compute; reflexivity.
  - reflexivity.
Defined.

Lemma new_collection_witness :
  mkCollectionPayload None None None = mkCollectionPayload None None None ∧
  has post2 "comments" (final (getData post2 "comments" blog_world))
  = Return true (final (getData post2 "comments" blog_world)).
Proof.
  apply (getData_of_a_new_collection_is_empty post2 "comments" blog_world
           (mkCollectionPayload None None None)
           (final (getData post2 "comments" blog_world))).
  - vm_compute; reflexivity.
  - vm_compute; reflexivity.
Defined.
